(** * ChronoStore: LRU cache, TTL manager, snapshot codec and store facade

    A shallow embedding of [lru.h], [ttl_manager.h], [persistence.h],
    [store.cpp], [command_parser.h] and the read loop of [main.cpp], with
    the properties of the engine stated and proved (or refuted) over it.

    Modelling conventions.
    - [std::string] is [string]; a file is a [list byte].
    - [std::list<Node>] is a [list] whose head is the front (most recently
      used).  [std::unordered_map<Key, list::iterator>] is the finite set of
      its keys: an iterator stored under key [k] designates the list node
      that carries [k], so the operations the source performs through the
      iterator are performed on that node.
    - [size_t] sizes are [nat].  [uint32_t], [int64_t] and [uint64_t] are [Z]
      with the wrap-around written where the source converts or increments.
    - A [steady_clock] time point is its tick count ([Z], nanoseconds); every
      operation that reads [Clock::now()] takes the reading as an argument.
      Arithmetic on tick counts wraps around at 64 bits ([wrap_int64]); a
      statement that needs the exact sum or difference says so in a
      hypothesis ([int64]).
    - An exception is a [Throw] result.  Stateful member functions return the
      state they leave behind together with their result.
      [entries.reserve(count)] in [load], whose argument comes from the file,
      throws as the allocator decides ([vector.reserve]); the other
      allocations ([push_back], the construction of strings, the cache's own
      [reserve]) find the memory they ask for.
    - The file system maps a path to the bytes of the file there; a path
      that is not mapped cannot be opened for reading.  Whether a path can
      be opened for writing, and how many bytes the device takes, is given
      by an [ofstream.device].
    - Each public operation of the store runs under the store's lock, so a
      call is one atomic transition with respect to the other calls and to
      the callbacks of the expiry thread.  A wake-up of that thread is a
      collection of the due keys under the scheduler's lock
      ([KVStore.collect]) followed by one callback for each collected key
      ([KVStore.onExpire]), between which calls of the store can run;
      [KVStore.sweep] is a wake-up with no call in between. *)

From Stdlib Require Import ZArith Strings.Byte Strings.Ascii.
From stdpp Require Import gmap strings list fin_maps sorting.

Local Open Scope Z_scope.
Set Warnings "-clear-no-such-hyp".

(** ** Exceptions *)

Inductive exn : Type :=
  | invalid_argument (what : string)
  | runtime_error (what : string)
  | length_error     (* thrown by the library; its message is the library's *)
  | bad_alloc.

Inductive result (A : Type) : Type :=
  | Ok (a : A)
  | Throw (e : exn).
Arguments Ok {A} a.
Arguments Throw {A} e.

#[global] Instance result_bind : MBind result := λ A B k r,
  match r with
  | Ok a => k a
  | Throw e => Throw e
  end.

(** ** lru.h *)

Module LRUCache.

Abbreviation Key := string (only parsing).
Abbreviation Value := string (only parsing).
Abbreviation Node := (string * string)%type (only parsing).

Record t : Type := mk {
  capacity_ : nat;
  list_ : list Node;      (* front = MRU, back = LRU *)
  map_ : gset Key
}.

(** The node an iterator stored under [key] points to. *)
Fixpoint node_of (key : Key) (l : list Node) : option Node :=
  match l with
  | [] => None
  | n :: l' => if decide (n.1 = key) then Some n else node_of key l'
  end.

(** [list_.erase(it)] *)
Fixpoint erase (key : Key) (l : list Node) : list Node :=
  match l with
  | [] => []
  | n :: l' => if decide (n.1 = key) then l' else n :: erase key l'
  end.

(** [it->second->second = value] *)
Fixpoint assign (key : Key) (value : Value) (l : list Node) : list Node :=
  match l with
  | [] => []
  | n :: l' =>
      if decide (n.1 = key) then (n.1, value) :: l' else n :: assign key value l'
  end.

(** [list_.splice(list_.begin(), list_, it)] *)
Definition splice_front (key : Key) (l : list Node) : list Node :=
  match node_of key l with
  | Some n => n :: erase key l
  | None => l
  end.

Definition new (capacity : nat) : result t :=
  if decide (capacity = 0%nat)
  then Throw (invalid_argument "LRU capacity must be > 0")
  else Ok (mk capacity [] ∅).

Definition get (key : Key) (c : t) : option Value * t :=
  if decide (key ∈ map_ c) then
    let l := splice_front key (list_ c) in
    (snd <$> node_of key l, mk (capacity_ c) l (map_ c))
  else (None, c).

Definition set (key : Key) (value : Value) (c : t) : Key * t :=
  if decide (key ∈ map_ c) then
    ("", mk (capacity_ c) (splice_front key (assign key value (list_ c))) (map_ c))
  else
    let l1 := (key, value) :: list_ c in
    let m1 := {[key]} ∪ map_ c in
    if decide (capacity_ c < size m1)%nat then
      let evicted := (List.last l1 (key, value)).1 in
      (evicted, mk (capacity_ c) (removelast l1) (m1 ∖ {[evicted]}))
    else ("", mk (capacity_ c) l1 m1).

Definition del (key : Key) (c : t) : bool * t :=
  if decide (key ∈ map_ c) then
    (true, mk (capacity_ c) (erase key (list_ c)) (map_ c ∖ {[key]}))
  else (false, c).

Definition contains (key : Key) (c : t) : bool := bool_decide (key ∈ map_ c).

Definition entries (c : t) : list Node := list_ c.

Definition size (c : t) : nat := size (map_ c).

Definition capacity (c : t) : nat := capacity_ c.

Definition clear (c : t) : t := mk (capacity_ c) [] ∅.

End LRUCache.

(** The keys of the recency list, front first. *)
Definition keys_of (l : list (string * string)) : list string := l.*1.
Arguments keys_of : simpl never.

(** Representation invariant of the cache: the index holds exactly the keys
    of the list, each key is carried by one node, and the capacity bounds
    the list. *)
Record cache_wf (c : LRUCache.t) : Prop := {
  wf_capacity : (0 < LRUCache.capacity_ c)%nat;
  wf_nodup : NoDup (keys_of (LRUCache.list_ c));
  wf_index : LRUCache.map_ c = list_to_set (keys_of (LRUCache.list_ c));
  wf_bound : (length (LRUCache.list_ c) <= LRUCache.capacity_ c)%nat
}.

(** *** Sequences of cache operations and their touch log *)

Inductive cache_op : Type :=
  | OpGet (key : string)
  | OpSet (key value : string)
  | OpDel (key : string).

Definition apply_op (o : cache_op) (c : LRUCache.t) : LRUCache.t :=
  match o with
  | OpGet k => (LRUCache.get k c).2
  | OpSet k v => (LRUCache.set k v c).2
  | OpDel k => (LRUCache.del k c).2
  end.

(** The key an operation touches: every set, and a get that hits. *)
Definition touched (o : cache_op) (c : LRUCache.t) : option string :=
  match o with
  | OpGet k => if LRUCache.contains k c then Some k else None
  | OpSet k _ => Some k
  | OpDel _ => None
  end.

(** The log lists the touched keys, latest touch first. *)
Definition log_op (o : cache_op) (c : LRUCache.t) (log : list string) : list string :=
  match touched o c with
  | Some k => k :: log
  | None => log
  end.

Fixpoint run_ops (ops : list cache_op) (c : LRUCache.t) (log : list string)
  : LRUCache.t * list string :=
  match ops with
  | [] => (c, log)
  | o :: ops' => run_ops ops' (apply_op o c) (log_op o c log)
  end.

(** How many touches ago [k] was last touched ([length log] if never). *)
Fixpoint age (log : list string) (k : string) : nat :=
  match log with
  | [] => 0%nat
  | k' :: log' => if decide (k' = k) then 0%nat else S (age log' k)
  end.

(** [victim] is the resident key whose latest touch is the oldest. *)
Definition least_recently_touched (log : list string) (c : LRUCache.t)
    (victim : string) : Prop :=
  victim ∈ keys_of (LRUCache.list_ c) ∧ victim ∈ log ∧
  ∀ k, k ∈ keys_of (LRUCache.list_ c) → k ≠ victim →
       k ∈ log ∧ (age log k < age log victim)%nat.

Definition new_cache (capacity : nat) : LRUCache.t := LRUCache.mk capacity [] ∅.

(** ** ttl_manager.h *)

(** Ticks of [steady_clock] per second and per millisecond. *)
Definition ticks_per_second : Z := 1000000000.
Definition ticks_per_millisecond : Z := 1000000.

(** A time point or a duration is a count of ticks held in an [int64_t].
    Arithmetic on counts wraps around at 64 bits, as the machine's does
    (the language leaves signed overflow undefined). *)
Definition int64 (z : Z) : Prop := - 2 ^ 63 <= z < 2 ^ 63.

Definition wrap_int64 (z : Z) : Z := (z + 2 ^ 63) mod 2 ^ 64 - 2 ^ 63.

Module TTLManager.

Record t : Type := mk { expiry_map_ : gmap string Z }.

(** [duration_cast] truncates toward zero. *)
Definition duration_cast (ticks unit_ticks : Z) : Z := Z.quot ticks unit_ticks.

(** [Clock::now() + ttl_secs]: the seconds are converted to ticks, then
    added to the reading. *)
Definition set (key : string) (ttl_secs : Z) (now : Z) (m : t) : t :=
  let ttl_ticks := wrap_int64 (ttl_secs * ticks_per_second) in
  mk (<[key := wrap_int64 (now + ttl_ticks)]> (expiry_map_ m)).

Definition remove (key : string) (m : t) : t :=
  mk (delete key (expiry_map_ m)).

Definition ttl (key : string) (now : Z) (m : t) : Z :=
  match expiry_map_ m !! key with
  | None => -1
  | Some deadline =>
      let remaining := duration_cast (wrap_int64 (deadline - now)) ticks_per_second in
      if decide (remaining > 0) then remaining else 0
  end.

Definition ttl_ms (key : string) (now : Z) (m : t) : Z :=
  match expiry_map_ m !! key with
  | None => -1
  | Some deadline =>
      let remaining :=
        duration_cast (wrap_int64 (deadline - now)) ticks_per_millisecond in
      if decide (remaining > 0) then remaining else 0
  end.

Definition setAbsolute (key : string) (deadline : Z) (m : t) : t :=
  mk (<[key := deadline]> (expiry_map_ m)).

(** One wake-up of [run]: the keys with [now >= deadline] are collected
    and erased; they are returned for the callback. *)
Definition expired_keys (now : Z) (m : t) : list string :=
  (filter (λ kd, now >= kd.2) (map_to_list (expiry_map_ m))).*1.

Definition wake (now : Z) (m : t) : list string * t :=
  let expired := expired_keys now m in
  (expired, mk (foldr delete (expiry_map_ m) expired)).

End TTLManager.

(** ** persistence.h *)

(** A binary input file stream over a file of known content.  [eofbit] and
    [failbit] are the stream's state flags; [badbit] (a failing device)
    never arises when the content is given, so it is not represented. *)
Module ifstream.

Record t : Type := mk { content : list byte; eofbit : bool; failbit : bool }.

Definition open (file : list byte) : t := mk file false false.

Definition good (s : t) : bool := negb (eofbit s) && negb (failbit s).

(** [!ifs] *)
Definition fail (s : t) : bool := failbit s.

Definition eof (s : t) : bool := eofbit s.

(** [ifs.read(buf, n)]: the bytes stored into [buf] and the stream left
    behind.  A stream that is not good stores nothing and sets [failbit];
    a stream that runs out of bytes stores what is left and sets
    [eofbit] and [failbit]. *)
Definition read (n : nat) (s : t) : list byte * t :=
  if good s then
    if decide (n <= length (content s))%nat
    then (take n (content s), mk (drop n (content s)) false false)
    else (content s, mk [] true true)
  else ([], mk (content s) (eofbit s) true).

End ifstream.

(** A binary output file stream.  The device decides whether a path can
    be opened for writing and how many bytes it takes before a write fails;
    a write that does not fit stores what fits and sets [badbit]. *)
Module ofstream.

Record device : Type := mk_device { can_open : string → bool; room : nat }.

Record t : Type := mk { content : list byte; failbit : bool; badbit : bool; space : nat }.

(** [std::ofstream ofs(filename, std::ios::binary | std::ios::trunc)] *)
Definition open (dev : device) (filename : string) : t :=
  if can_open dev filename then mk [] false false (room dev) else mk [] true false 0.

(** [!ofs] *)
Definition fail (s : t) : bool := failbit s || badbit s.

(** [ofs.write(buf, n)], [bs] being the [n] bytes at [buf]. *)
Definition write (bs : list byte) (s : t) : t :=
  if fail s then s
  else if decide (length bs <= space s)%nat
  then mk (content s ++ bs) false false (space s - length bs)
  else mk (content s ++ take (space s) bs) false true 0.

End ofstream.

(** Storage of a [std::vector]: [max_size()] of the vector type, and
    whether the allocator has storage for [n] elements. *)
Module vector.

Record allocator : Type := mk_allocator { max_size : Z; has_room : Z → bool }.

(** [v.reserve(n)] on an empty vector [v]. *)
Definition reserve (mem : allocator) (n : Z) : result unit :=
  if decide (n > max_size mem) then Throw length_error
  else if decide (n <= 0) then Ok ()     (* not above [capacity()] *)
  else if has_room mem n then Ok () else Throw bad_alloc.

End vector.

Definition byte_to_Z (b : byte) : Z := Z.of_N (Byte.to_N b).

Definition byte_of_Z (z : Z) : byte :=
  match Byte.of_N (Z.to_N (z mod 256)) with
  | Some b => b
  | None => x00
  end.

(** The [n] low-order bytes of [v], least significant first (the object
    representation of an integer on a little-endian machine). *)
Fixpoint le_bytes (n : nat) (v : Z) : list byte :=
  match n with
  | O => []
  | S n' => byte_of_Z v :: le_bytes n' (v / 256)
  end.

(** The value of an integer object whose low-order bytes are [bs] and whose
    other bytes are zero. *)
Fixpoint le_value (bs : list byte) : Z :=
  match bs with
  | [] => 0
  | b :: bs' => byte_to_Z b + 256 * le_value bs'
  end.

(** A 64-bit pattern read as [int64_t]. *)
Definition to_int64 (u : Z) : Z := if decide (u < 2 ^ 63) then u else u - 2 ^ 64.

Record SnapshotEntry : Type := mkEntry {
  key : string;
  value : string;
  ttl_ms : Z     (* -1 = no expiry; >0 = remaining TTL in ms *)
}.

Module PersistenceEngine.

Definition MAGIC : Z := 0x43534442.
Definition VERSION : Z := 1.

(** The bytes that [write32], [write64] and [writeString] hand to the
    stream. *)
Definition write32 (v : Z) : list byte := le_bytes 4 v.
Definition write64 (v : Z) : list byte := le_bytes 8 v.

Definition writeString (s : string) : list byte :=
  let len := Z.of_nat (String.length s) mod 2 ^ 32 in
  write32 len ++ take (Z.to_nat len) (String.list_byte_of_string s).

Definition read32 (s : ifstream.t) : Z * ifstream.t :=
  let '(bs, s') := ifstream.read 4 s in (le_value bs, s').

Definition read64 (s : ifstream.t) : Z * ifstream.t :=
  let '(bs, s') := ifstream.read 8 s in (to_int64 (le_value bs), s').

Definition readString (s : ifstream.t) : result (string * ifstream.t) :=
  let '(len, s1) := read32 s in
  if decide (len > 1024 * 1024)
  then Throw (runtime_error "Implausible string length in snapshot")
  else
    let '(bs, s2) := ifstream.read (Z.to_nat len) s1 in
    Ok (String.string_of_list_byte (bs ++ replicate (Z.to_nat len - length bs) x00), s2).

Definition write_entry (e : SnapshotEntry) : list byte :=
  writeString (key e) ++ writeString (value e) ++ write64 (ttl_ms e).

(** The bytes of a snapshot of [entries]. *)
Definition image (entries : list SnapshotEntry) : list byte :=
  write32 MAGIC ++ write32 VERSION ++ write64 (Z.of_nat (length entries))
    ++ concat (write_entry <$> entries).

(** The file system maps a path to the content of the file there.  [save]
    returns the file system it leaves behind: untouched when the file cannot
    be opened, and else with what reached the file under [filename]. *)
Definition save (filename : string) (entries : list SnapshotEntry)
    (dev : ofstream.device) (fs : gmap string (list byte))
  : result unit * gmap string (list byte) :=
  let ofs := ofstream.open dev filename in
  if ofstream.fail ofs
  then (Throw (runtime_error ("Cannot open file for writing: " +:+ filename)), fs)
  else
    let ofs := ofstream.write (write32 MAGIC) ofs in
    let ofs := ofstream.write (write32 VERSION) ofs in
    let ofs := ofstream.write (write64 (Z.of_nat (length entries))) ofs in
    let ofs :=
      foldl (λ ofs e,
               let ofs := ofstream.write (writeString (key e)) ofs in
               let ofs := ofstream.write (writeString (value e)) ofs in
               ofstream.write (write64 (ttl_ms e)) ofs)
            ofs entries in
    let fs := <[filename := ofstream.content ofs]> fs in
    if ofstream.fail ofs
    then (Throw (runtime_error ("Write error on file: " +:+ filename)), fs)
    else (Ok (), fs).

(** The loop [for (i = 0; i < count; ++i)], [entries] being filled by
    [push_back]. *)
Fixpoint read_entries (count : nat) (entries : list SnapshotEntry) (s : ifstream.t)
  : result (list SnapshotEntry * ifstream.t) :=
  match count with
  | O => Ok (entries, s)
  | S count' =>
      '(k, s1) ← readString s;
      '(v, s2) ← readString s1;
      let '(ttl, s3) := read64 s2 in
      read_entries count' (entries ++ [mkEntry k v ttl]) s3
  end.

Definition load (filename : string) (mem : vector.allocator)
    (fs : gmap string (list byte)) : result (list SnapshotEntry) :=
  match fs !! filename with
  | None => Throw (runtime_error ("Cannot open file for reading: " +:+ filename))
  | Some file =>
      let s := ifstream.open file in
      let '(magic, s) := read32 s in
      let '(version, s) := read32 s in
      if decide (magic ≠ MAGIC)
      then Throw (runtime_error "Invalid snapshot file (bad magic)")
      else if decide (version ≠ VERSION)
      then Throw (runtime_error "Unsupported snapshot version")
      else
        let '(count, s) := read64 s in
        if decide (count < 0)
        then Throw (runtime_error "Corrupt record count")
        else
          _ ← vector.reserve mem count;
          '(entries, s) ← read_entries (Z.to_nat count) [] s;
          if ifstream.fail s && negb (ifstream.eof s)
          then Throw (runtime_error ("Read error on file: " +:+ filename))
          else Ok entries
  end.

End PersistenceEngine.

(** ** store.cpp *)

(** [++counter] on a [uint64_t]. *)
Definition incr64 (n : Z) : Z := (n + 1) mod 2 ^ 64.

Module KVStore.

Record t : Type := mk {
  cache_ : LRUCache.t;
  ttl_mgr_ : TTLManager.t;
  hits_ : Z;
  misses_ : Z;
  evictions_ : Z;
  sets_ : Z;
  dels_ : Z;
  expirations_ : Z
}.

Definition with_cache (c : LRUCache.t) (st : t) : t :=
  mk c (ttl_mgr_ st) (hits_ st) (misses_ st) (evictions_ st) (sets_ st)
     (dels_ st) (expirations_ st).

Definition with_ttl_mgr (m : TTLManager.t) (st : t) : t :=
  mk (cache_ st) m (hits_ st) (misses_ st) (evictions_ st) (sets_ st)
     (dels_ st) (expirations_ st).

Definition new (capacity : nat) : result t :=
  c ← LRUCache.new capacity;
  Ok (mk c (TTLManager.mk ∅) 0 0 0 0 0 0).

Definition set (key value : string) (ttl_seconds : Z) (now : Z) (st : t) : string * t :=
  let '(evicted, c) := LRUCache.set key value (cache_ st) in
  let '(m, ev) :=
    if decide (evicted ≠ "")
    then (TTLManager.remove evicted (ttl_mgr_ st), incr64 (evictions_ st))
    else (ttl_mgr_ st, evictions_ st) in
  let m :=
    if decide (ttl_seconds > 0)
    then TTLManager.set key ttl_seconds now m
    else TTLManager.remove key m in
  (evicted, mk c m (hits_ st) (misses_ st) ev (incr64 (sets_ st)) (dels_ st)
                (expirations_ st)).

Definition get (key : string) (st : t) : option string * t :=
  let '(result, c) := LRUCache.get key (cache_ st) in
  match result with
  | Some _ =>
      (result, mk c (ttl_mgr_ st) (incr64 (hits_ st)) (misses_ st) (evictions_ st)
                  (sets_ st) (dels_ st) (expirations_ st))
  | None =>
      (result, mk c (ttl_mgr_ st) (hits_ st) (incr64 (misses_ st)) (evictions_ st)
                  (sets_ st) (dels_ st) (expirations_ st))
  end.

Definition del (key : string) (st : t) : bool * t :=
  let '(existed, c) := LRUCache.del key (cache_ st) in
  if existed
  then (existed, mk c (TTLManager.remove key (ttl_mgr_ st)) (hits_ st) (misses_ st)
                    (evictions_ st) (sets_ st) (incr64 (dels_ st)) (expirations_ st))
  else (existed, with_cache c st).

Definition ttl (key : string) (now : Z) (st : t) : Z :=
  if negb (LRUCache.contains key (cache_ st)) then -2
  else TTLManager.ttl key now (ttl_mgr_ st).

Definition keys (st : t) : list string := (LRUCache.entries (cache_ st)).*1.

Definition flush (st : t) : t := with_cache (LRUCache.clear (cache_ st)) st.

(** The records [save] collects under the lock.  [ttl_ms] reads the
    clock once for each entry; [clock k] is the reading taken for the
    entry of key [k]. *)
Definition snapshot_entries (clock : string → Z) (st : t) : list SnapshotEntry :=
  omap (λ kv : string * string,
          let remaining_ms := TTLManager.ttl_ms kv.1 (clock kv.1) (ttl_mgr_ st) in
          if decide (remaining_ms = 0) then None
          else Some (mkEntry kv.1 kv.2 remaining_ms))
       (LRUCache.entries (cache_ st)).

Definition save (filename : string) (clock : string → Z) (st : t)
    (dev : ofstream.device) (fs : gmap string (list byte))
  : result unit * gmap string (list byte) :=
  PersistenceEngine.save filename (snapshot_entries clock st) dev fs.

(** The body of the loop over the decoded records. *)
Definition load_entry (now : Z) (st : t) (e : SnapshotEntry) : t :=
  if decide (ttl_ms e = 0) then st
  else
    let st := with_cache (LRUCache.set (key e) (value e) (cache_ st)).2 st in
    if decide (ttl_ms e > 0)
    then
      let ttl_ticks := wrap_int64 (ttl_ms e * ticks_per_millisecond) in
      let deadline := wrap_int64 (now + ttl_ticks) in
      with_ttl_mgr (TTLManager.setAbsolute (key e) deadline (ttl_mgr_ st)) st
    else st.

Definition load (filename : string) (now : Z) (mem : vector.allocator)
    (fs : gmap string (list byte)) (st : t) : result unit * t :=
  match PersistenceEngine.load filename mem fs with
  | Throw e => (Throw e, st)
  | Ok raw =>
      let st := with_cache (LRUCache.clear (cache_ st)) st in
      (Ok (), foldl (load_entry now) st raw)
  end.

Definition size (st : t) : nat := LRUCache.size (cache_ st).

Definition capacity (st : t) : nat := LRUCache.capacity (cache_ st).

Definition onExpire (key : string) (st : t) : t :=
  let '(existed, c) := LRUCache.del key (cache_ st) in
  if existed
  then mk c (ttl_mgr_ st) (hits_ st) (misses_ st) (evictions_ st) (sets_ st)
          (dels_ st) (incr64 (expirations_ st))
  else with_cache c st.

(** The expiry thread works in two steps.  Under the scheduler's lock it
    collects the due keys and erases their deadlines ([collect]); the lock
    released, it runs the callback [onExpire] for each collected key, which
    takes the store's lock for each.  Store operations can run between the
    two steps and between two callbacks. *)
Definition collect (now : Z) (st : t) : list string * t :=
  let '(expired, m) := TTLManager.wake now (ttl_mgr_ st) in
  (expired, with_ttl_mgr m st).

(** One wake-up of the expiry thread during which no store operation runs:
    the due keys leave the deadline map, then the callback runs for each. *)
Definition sweep (now : Z) (st : t) : t :=
  let '(expired, m) := TTLManager.wake now (ttl_mgr_ st) in
  foldl (λ st k, onExpire k st) (with_ttl_mgr m st) expired.

(** [struct Stats] of store.h and [KVStore::stats]. *)
Record Stats : Type := mkStats {
  hits : Z;
  misses : Z;
  evictions : Z;
  sets : Z;
  dels : Z;
  expirations : Z;
  current_keys : nat;
  capacity_of : nat     (* the field [capacity] *)
}.

Definition stats (st : t) : Stats :=
  mkStats (hits_ st) (misses_ st) (evictions_ st) (sets_ st) (dels_ st)
          (expirations_ st) (size st) (capacity st).

End KVStore.

(** The store's representation invariant is that of its cache. *)
Definition store_wf (st : KVStore.t) : Prop := cache_wf (KVStore.cache_ st).

(** ** Notions and sample states used in the statements *)

(** What [set] does to a well-formed cache, case by case. *)
Inductive set_outcome (k v : string) (c : LRUCache.t) : string → LRUCache.t → Prop :=
  | set_update l1 v0 l2 m :
      LRUCache.list_ c = l1 ++ (k, v0) :: l2 →
      k ∉ keys_of l1 →
      set_outcome k v c "" (LRUCache.mk (LRUCache.capacity_ c) ((k, v) :: l1 ++ l2) m)
  | set_insert m :
      k ∉ keys_of (LRUCache.list_ c) →
      (length (LRUCache.list_ c) < LRUCache.capacity_ c)%nat →
      set_outcome k v c "" (LRUCache.mk (LRUCache.capacity_ c) ((k, v) :: LRUCache.list_ c) m)
  | set_evict l0 k' v' m :
      k ∉ keys_of (LRUCache.list_ c) →
      length (LRUCache.list_ c) = LRUCache.capacity_ c →
      LRUCache.list_ c = l0 ++ [(k', v')] →
      set_outcome k v c k' (LRUCache.mk (LRUCache.capacity_ c) ((k, v) :: l0) m).

(** Every key of [ks] was touched, and [ks] lists them from the latest
    touched to the earliest touched. *)
Definition recency_ordered (log ks : list string) : Prop :=
  Forall (λ k, k ∈ log) ks ∧
  StronglySorted (λ a b, (age log a < age log b)%nat) ks.

(** A machine for the examples: [max_size()] of a vector of 72-byte
    records under a 64-bit address space, storage for a million records,
    and a device that opens every path and takes 4096 bytes. *)
Definition roomy : vector.allocator :=
  vector.mk_allocator ((2 ^ 63 - 1) / 72) (λ n, bool_decide (n <= 1000000)).

Definition disk : ofstream.device := ofstream.mk_device (λ _, true) 4096.

(** The empty store of capacity 2, all counters at 0. *)
Definition demo_store : KVStore.t :=
  KVStore.mk (new_cache 2) (TTLManager.mk ∅) 0 0 0 0 0 0.

(** The store after set(k, v, 1) at tick 0: "k" is resident and its
    deadline lies one second after tick 0. *)
Definition one_second_store : KVStore.t :=
  (KVStore.set "k" "v" 1 0 demo_store).2.

(** A store of capacity 1 whose only key is the empty string, set with a
    TTL of 30 seconds at tick 0. *)
Definition empty_key_store : KVStore.t :=
  (KVStore.set "" "v" 30 0
     (KVStore.mk (new_cache 1) (TTLManager.mk ∅) 0 0 0 0 0 0)).2.

(** A record the codec reads back as written: its strings are at most
    1 MiB long and its TTL is an [int64_t]. *)
Definition entry_portable (e : SnapshotEntry) : Prop :=
  Z.of_nat (String.length (key e)) <= 1024 * 1024 ∧
  Z.of_nat (String.length (value e)) <= 1024 * 1024 ∧
  - 2 ^ 63 <= ttl_ms e < 2 ^ 63.

(** Reading a file of given content sets [failbit] only together with
    [eofbit]. *)
Definition fail_at_eof (s : ifstream.t) : Prop :=
  ifstream.failbit s = true → ifstream.eofbit s = true.

Definition implausible_length : exn :=
  runtime_error "Implausible string length in snapshot".

(** The snapshot of one record without TTL, and the file system that holds
    its first [n] bytes under the default name. *)
Definition one_record_file : list byte :=
  PersistenceEngine.image [mkEntry "k" "v" (-1)].

Definition truncated_to (n : nat) : gmap string (list byte) :=
  {["snapshot.bin" := take n one_record_file]}.

Definition is_Ok {A} (r : result A) : bool :=
  match r with Ok _ => true | Throw _ => false end.

Definition bad_magic_fs : gmap string (list byte) :=
  {["snapshot.bin" := PersistenceEngine.write32 0 ++ PersistenceEngine.write32 1
                        ++ PersistenceEngine.write64 0]}.

(** A store in which "x" and "y" carry deadlines (5 s and 7 s after tick 0),
    and a snapshot that holds "x" without TTL. *)
Definition stale_store : KVStore.t :=
  (KVStore.set "y" "w" 7 0 (KVStore.set "x" "old" 5 0 demo_store).2).2.

Definition x_without_ttl_fs : gmap string (list byte) :=
  {["snapshot.bin" := PersistenceEngine.image [mkEntry "x" "new" (-1)]]}.

(** A file of 16 bytes: a valid header that declares 2^62 records. *)
Definition huge_count_fs : gmap string (list byte) :=
  {["f" := PersistenceEngine.write32 PersistenceEngine.MAGIC
             ++ PersistenceEngine.write32 1 ++ PersistenceEngine.write64 (2 ^ 62)]}.

Definition entry_node (e : SnapshotEntry) : string * string := (key e, value e).

(** [save] writes the entry of [k]: its remaining TTL, at the reading
    taken for it, is not 0 ms. *)
Definition not_expired (clock : string → Z) (st : KVStore.t) (k : string) : Prop :=
  TTLManager.ttl_ms k (clock k) (KVStore.ttl_mgr_ st) ≠ 0.

#[local] Instance not_expired_dec clock st k : Decision (not_expired clock st k) :=
  not_dec (decide (TTLManager.ttl_ms k (clock k) (KVStore.ttl_mgr_ st) = 0)).

(** What the file format can carry of the records that [save] collects:
    strings of at most 1 MiB and a record count within 63 bits. *)
Definition snapshot_portable (clock : string → Z) (st : KVStore.t) : Prop :=
  (∀ e, e ∈ KVStore.snapshot_entries clock st →
     Z.of_nat (String.length (key e)) <= 1024 * 1024 ∧
     Z.of_nat (String.length (value e)) <= 1024 * 1024) ∧
  Z.of_nat (length (KVStore.snapshot_entries clock st)) < 2 ^ 63.

(** The store after set(k, v, 1) and set(j, w) at tick 0: the keys are j, k
    in recency order. *)
Definition two_key_store : KVStore.t :=
  (KVStore.set "j" "w" 0 0 one_second_store).2.

(** A store of capacity 2 in which "b" was set with a TTL of one second at
    tick 0 and "a" without TTL.  At 1.1 s the deadline of "b" has passed;
    the expiry thread, which wakes every 500 ms, has not yet removed it. *)
Definition expired_store : KVStore.t :=
  (KVStore.set "a" "1" (-1) 0 (KVStore.set "b" "2" 1 0 demo_store).2).2.

(** ** command_parser.h *)

Module CommandParser.

Inductive CommandType : Type :=
  | SET | GET | DEL | STATS | SAVE | TTL | KEYS | FLUSH | EXIT | UNKNOWN.

Record Command : Type := mkCommand {
  type : CommandType;
  key : string;
  value : string;
  ttl : Z;          (* seconds; -1 means no expiry *)
  raw : string
}.

(** [isspace] and [toupper] in the "C" locale. *)
Definition isspace (c : ascii) : bool :=
  let n := nat_of_ascii c in
  (n =? 32)%nat || ((9 <=? n)%nat && (n <=? 13)%nat).

Definition toupper (c : ascii) : ascii :=
  let n := nat_of_ascii c in
  if ((97 <=? n)%nat && (n <=? 122)%nat)%bool then ascii_of_nat (n - 32) else c.

(** The loop [while (iss >> tok) tokens.push_back(tok)]: [tok] holds the
    characters of the token being read. *)
Fixpoint scan (s : string) (tok : string) : list string :=
  match s with
  | EmptyString => if decide (tok = "") then [] else [tok]
  | String c s' =>
      if isspace c
      then (if decide (tok = "") then scan s' "" else tok :: scan s' "")
      else scan s' (tok +:+ String c "")
  end.

Definition tokenise (s : string) : list string := scan s "".

Fixpoint toUpper (s : string) : string :=
  match s with
  | EmptyString => EmptyString
  | String c s' => String (toupper c) (toUpper s')
  end.

(** What [std::stoll] throws. *)
Inductive stoll_exception : Type :=
  | stoll_invalid_argument
  | stoll_out_of_range.

Definition isdigit (c : ascii) : bool :=
  let n := nat_of_ascii c in (48 <=? n)%nat && (n <=? 57)%nat.

Fixpoint skip_space (s : string) : string :=
  match s with
  | EmptyString => EmptyString
  | String c s' => if isspace c then skip_space s' else s
  end.

(** The values of the decimal digits at the front of [s]. *)
Fixpoint leading_digits (s : string) : list Z :=
  match s with
  | EmptyString => []
  | String c s' =>
      if isdigit c then (Z.of_nat (nat_of_ascii c) - 48) :: leading_digits s' else []
  end.

Definition decimal_value (ds : list Z) : Z := foldl (λ acc d, 10 * acc + d) 0 ds.

(** [std::stoll(s)] in base 10: white space, an optional sign, then the
    digits; what follows the digits is ignored. *)
Definition stoll (s : string) : stoll_exception + Z :=
  let s := skip_space s in
  let '(negative, s) :=
    match s with
    | String "-" s' => (true, s')
    | String "+" s' => (false, s')
    | _ => (false, s)
    end in
  match leading_digits s with
  | [] => inl stoll_invalid_argument
  | ds =>
      let v := if negative : bool then - decimal_value ds else decimal_value ds in
      if decide (- 2 ^ 63 <= v < 2 ^ 63) then inr v else inl stoll_out_of_range
  end.

(** The [try] block of the SET branch; [None] stands for any exception
    thrown in it, by [stoll] or by the check of the sign, which the handler
    catches as [std::exception]. *)
Definition read_ttl (tok : string) : option Z :=
  match stoll tok with
  | inr n => if decide (n <= 0) then None (* "TTL must be positive" *) else Some n
  | inl _ => None
  end.

Definition parse (input : string) : result Command :=
  let cmd := mkCommand UNKNOWN "" "" (-1) input in
  match tokenise input with
  | [] => Ok cmd
  | verb0 :: args =>
      let verb := toUpper verb0 in
      if decide (verb = "SET") then
        match args with
        | k :: v :: rest =>
            match rest with
            | ex :: secs :: _ =>
                if decide (toUpper ex = "EX") then
                  match read_ttl secs with
                  | Some n => Ok (mkCommand SET k v n input)
                  | None => Throw (invalid_argument ("Invalid TTL value: " +:+ secs))
                  end
                else Ok (mkCommand SET k v (-1) input)
            | _ => Ok (mkCommand SET k v (-1) input)
            end
        | _ => Throw (invalid_argument "Usage: SET <key> <value> [EX <seconds>]")
        end
      else if decide (verb = "GET") then
        match args with
        | k :: _ => Ok (mkCommand GET k "" (-1) input)
        | [] => Throw (invalid_argument "Usage: GET <key>")
        end
      else if decide (verb = "DEL" ∨ verb = "DELETE") then
        match args with
        | k :: _ => Ok (mkCommand DEL k "" (-1) input)
        | [] => Throw (invalid_argument "Usage: DEL <key>")
        end
      else if decide (verb = "TTL") then
        match args with
        | k :: _ => Ok (mkCommand TTL k "" (-1) input)
        | [] => Throw (invalid_argument "Usage: TTL <key>")
        end
      else if decide (verb = "KEYS") then Ok (mkCommand KEYS "" "" (-1) input)
      else if decide (verb = "FLUSH") then Ok (mkCommand FLUSH "" "" (-1) input)
      else if decide (verb = "STATS") then Ok (mkCommand STATS "" "" (-1) input)
      else if decide (verb = "SAVE") then Ok (mkCommand SAVE "" "" (-1) input)
      else if decide (verb = "EXIT" ∨ verb = "QUIT" ∨ verb = "Q")
      then Ok (mkCommand EXIT "" "" (-1) input)
      else Ok cmd
  end.

End CommandParser.

(** ** main.cpp *)

(** The characters of [" \t\r\n"]. *)
Definition is_blank (c : ascii) : bool :=
  let n := nat_of_ascii c in
  (n =? 32)%nat || (n =? 9)%nat || (n =? 13)%nat || (n =? 10)%nat.

(** [line.find_first_not_of(" \t\r\n")], [None] for [npos]. *)
Fixpoint find_first_not_of (s : string) : option nat :=
  match s with
  | EmptyString => None
  | String c s' => if is_blank c then S <$> find_first_not_of s' else Some 0%nat
  end.

(** [line.find_last_not_of(" \t\r\n")]. *)
Fixpoint find_last_not_of (s : string) : option nat :=
  match s with
  | EmptyString => None
  | String c s' =>
      match find_last_not_of s' with
      | Some i => Some (S i)
      | None => if is_blank c then None else Some 0%nat
      end
  end.

(** The trimming at the head of the read loop of [main]: [None] when the
    loop goes on to the next line without parsing. *)
Definition trim_line (line : string) : option string :=
  match find_first_not_of line with
  | None => None
  | Some nf =>
      let count :=
        match find_last_not_of line with
        | Some nl => (nl - nf + 1)%nat
        | None => (String.length line - nf)%nat
        end in
      let line := String.substring nf count line in
      if decide (line = "") then None else Some line
  end.

(** What one pass of the read loop of [main] does to the store, for the
    line read and the clock reading [now]; what is printed is left out, and
    SAVE and EXIT write the snapshot file without changing the store. *)
Definition repl_effect (line : string) (now : Z) (st : KVStore.t) : KVStore.t :=
  match trim_line line with
  | None => st
  | Some line =>
      if decide (line = "HELP" ∨ line = "help" ∨ line = "?") then st
      else
        match CommandParser.parse line with
        | Throw _ => st
        | Ok cmd =>
            match CommandParser.type cmd with
            | CommandParser.SET =>
                (KVStore.set (CommandParser.key cmd) (CommandParser.value cmd)
                   (CommandParser.ttl cmd) now st).2
            | CommandParser.GET => (KVStore.get (CommandParser.key cmd) st).2
            | CommandParser.DEL => (KVStore.del (CommandParser.key cmd) st).2
            | CommandParser.FLUSH => KVStore.flush st
            | _ => st
            end
        end
  end.

(** A session: lines read by the loop, and wake-ups of the expiry thread
    between them. *)
Inductive repl_event : Type :=
  | ReadLine (line : string) (now : Z)
  | WakeUp (now : Z)
  | Collect (now : Z)           (* the first step of a wake-up alone *)
  | Callback (key : string).    (* the callback for one collected key *)

Definition repl_step (st : KVStore.t) (ev : repl_event) : KVStore.t :=
  match ev with
  | ReadLine line now => repl_effect line now st
  | WakeUp now => KVStore.sweep now st
  | Collect now => (KVStore.collect now st).2
  | Callback k => KVStore.onExpire k st
  end.

Definition run_repl (events : list repl_event) (st : KVStore.t) : KVStore.t :=
  foldl repl_step st events.

(** ** Sequences of store operations *)

Inductive store_op : Type :=
  | DoSet (key value : string) (ttl_seconds now : Z)
  | DoGet (key : string)
  | DoDel (key : string)
  | DoFlush
  | DoLoad (filename : string) (now : Z) (mem : vector.allocator)
           (fs : gmap string (list byte))
  | DoSweep (now : Z)
  | DoCollect (now : Z)         (* the first step of a wake-up alone *)
  | DoExpire (key : string).    (* the callback for one collected key *)

Definition store_step (st : KVStore.t) (o : store_op) : KVStore.t :=
  match o with
  | DoSet k v ttl_seconds now => (KVStore.set k v ttl_seconds now st).2
  | DoGet k => (KVStore.get k st).2
  | DoDel k => (KVStore.del k st).2
  | DoFlush => KVStore.flush st
  | DoLoad filename now mem fs => (KVStore.load filename now mem fs st).2
  | DoSweep now => KVStore.sweep now st
  | DoCollect now => (KVStore.collect now st).2
  | DoExpire k => KVStore.onExpire k st
  end.

Definition run_store (ops : list store_op) (st : KVStore.t) : KVStore.t :=
  foldl store_step st ops.

(** The characters of [s], and strings without white space. *)
Definition chars (s : string) : list ascii := String.list_ascii_of_string s.

Definition no_space (s : string) : Prop :=
  Forall (λ c, CommandParser.isspace c = false) (chars s).

(** The words [ws] on one line, a single space between neighbours. *)
Fixpoint unwords (ws : list string) : string :=
  match ws with
  | [] => ""
  | [w] => w
  | w :: ws => w +:+ String " " (unwords ws)
  end.

(** The stream over [file] once [off] bytes have been asked of it: good
    while the file had them, failed at end of file otherwise. *)
Definition stream_at (file : list byte) (off : nat) : ifstream.t :=
  if decide (off <= length file)%nat then ifstream.open (drop off file)
  else ifstream.mk [] true true.

(** A string of 1 MiB and one byte. *)
Definition oversized_value : string :=
  String.string_of_list_ascii (replicate (1024 * 1024 + 1) "a"%char).

(** A record with a string longer than 1 MiB (and shorter than 4 GiB, so
    that its length is written as it is). *)
Definition entry_oversized (e : SnapshotEntry) : Prop :=
  1024 * 1024 < Z.of_nat (String.length (key e)) < 2 ^ 32 ∨
  (Z.of_nat (String.length (key e)) <= 1024 * 1024 ∧
   1024 * 1024 < Z.of_nat (String.length (value e)) < 2 ^ 32).

(** A device that takes exactly the snapshot of the record "a" and a
    record with the oversized value. *)
Definition large_disk : ofstream.device :=
  ofstream.mk_device (λ _, true)
    (length (PersistenceEngine.image
               [mkEntry "a" "1" (-1); mkEntry "k" oversized_value (-1)])).

(** The deadline recorded for [k] has been reached at [now]. *)
Definition is_due (now : Z) (m : TTLManager.t) (k : string) : bool :=
  match TTLManager.expiry_map_ m !! k with
  | Some deadline => bool_decide (now >= deadline)
  | None => false
  end.

(** * Properties *)

(** ** The recency list *)

Section recency_list.
Implicit Types (l : list (string * string)) (k v : string).

Lemma keys_of_app l1 l2 : keys_of (l1 ++ l2) = keys_of l1 ++ keys_of l2.
Proof. unfold keys_of. apply fmap_app. Qed.

Lemma keys_of_cons k v l : keys_of ((k, v) :: l) = k :: keys_of l.
Proof. reflexivity. Qed.

Lemma keys_of_length l : length (keys_of l) = length l.
Proof. unfold keys_of. apply length_fmap. Qed.

Lemma keys_of_elem l k : k ∈ keys_of l ↔ ∃ v, (k, v) ∈ l.
Proof.
  unfold keys_of. rewrite list_elem_of_fmap. split.
  - intros ([k' v] & -> & Hin). by exists v.
  - intros [v Hin]. by exists (k, v).
Qed.

(** A resident key has a first node. *)
Lemma keys_of_split k l :
  k ∈ keys_of l → ∃ l1 v l2, l = l1 ++ (k, v) :: l2 ∧ k ∉ keys_of l1.
Proof.
  induction l as [|[k' v'] l IH]; intros Hin.
  - by apply elem_of_nil in Hin.
  - destruct (decide (k' = k)) as [->|Hne].
    + exists [], v', l. split; [done|]. apply not_elem_of_nil.
    + rewrite keys_of_cons in Hin. apply elem_of_cons in Hin as [?|Hin]; [congruence|].
      destruct (IH Hin) as (l1 & v & l2 & -> & Hl1).
      exists ((k', v') :: l1), v, l2. split; [done|].
      rewrite keys_of_cons. set_solver.
Qed.

Lemma node_of_split k v l1 l2 :
  k ∉ keys_of l1 → LRUCache.node_of k (l1 ++ (k, v) :: l2) = Some (k, v).
Proof.
  induction l1 as [|[k' v'] l1 IH]; intros Hl1; simpl.
  - by rewrite decide_True.
  - rewrite keys_of_cons in Hl1. rewrite decide_False by set_solver.
    apply IH. set_solver.
Qed.

Lemma erase_split k v l1 l2 :
  k ∉ keys_of l1 → LRUCache.erase k (l1 ++ (k, v) :: l2) = l1 ++ l2.
Proof.
  induction l1 as [|[k' v'] l1 IH]; intros Hl1; simpl.
  - by rewrite decide_True.
  - rewrite keys_of_cons in Hl1. rewrite decide_False by set_solver.
    f_equal. apply IH. set_solver.
Qed.

Lemma assign_split k v v' l1 l2 :
  k ∉ keys_of l1 →
  LRUCache.assign k v' (l1 ++ (k, v) :: l2) = l1 ++ (k, v') :: l2.
Proof.
  induction l1 as [|[k0 v0] l1 IH]; intros Hl1; simpl.
  - by rewrite decide_True.
  - rewrite keys_of_cons in Hl1. rewrite decide_False by set_solver.
    f_equal. apply IH. set_solver.
Qed.

Lemma splice_front_split k v l1 l2 :
  k ∉ keys_of l1 →
  LRUCache.splice_front k (l1 ++ (k, v) :: l2) = (k, v) :: l1 ++ l2.
Proof.
  intros Hl1. unfold LRUCache.splice_front.
  by rewrite node_of_split, erase_split.
Qed.

Lemma NoDup_keys_split k v l1 l2 :
  NoDup (keys_of (l1 ++ (k, v) :: l2)) →
  NoDup (keys_of (l1 ++ l2)) ∧ k ∉ keys_of (l1 ++ l2).
Proof.
  rewrite !keys_of_app, keys_of_cons.
  intros Hnd. apply NoDup_app in Hnd as (Hnd1 & Hdisj & Hnd2).
  apply NoDup_cons in Hnd2 as [Hk Hnd2]. split.
  - apply NoDup_app. split_and!; [done| |done].
    intros x Hx Hx2. apply (Hdisj x Hx). set_solver.
  - intros Hin. apply elem_of_app in Hin as [Hin|Hin]; [|done].
    apply (Hdisj k Hin). set_solver.
Qed.

Lemma nonempty_snoc l : l ≠ [] → ∃ l0 n, l = l0 ++ [n].
Proof.
  intros Hl. exists (removelast l), (List.last l ("", "")).
  by apply app_removelast_last.
Qed.

Lemma last_snoc_cons (n n' d : string * string) l0 :
  List.last (n :: l0 ++ [n']) d = n'.
Proof. by rewrite app_comm_cons, last_last. Qed.

Lemma removelast_snoc_cons (n n' : string * string) l0 :
  removelast (n :: l0 ++ [n']) = n :: l0.
Proof. by rewrite app_comm_cons, removelast_last. Qed.

End recency_list.

(** ** The representation invariant *)

Lemma wf_resident c k :
  cache_wf c → k ∈ LRUCache.map_ c ↔ k ∈ keys_of (LRUCache.list_ c).
Proof. intros Hwf. rewrite (wf_index c Hwf). apply elem_of_list_to_set. Qed.

Lemma wf_size c : cache_wf c → LRUCache.size c = length (LRUCache.list_ c).
Proof.
  intros Hwf. unfold LRUCache.size. rewrite (wf_index c Hwf).
  rewrite size_list_to_set by apply (wf_nodup c Hwf). apply keys_of_length.
Qed.

Lemma contains_resident c k :
  cache_wf c → LRUCache.contains k c = true ↔ k ∈ keys_of (LRUCache.list_ c).
Proof.
  intros Hwf. unfold LRUCache.contains.
  rewrite bool_decide_eq_true. by apply wf_resident.
Qed.

Lemma new_cache_wf capacity : (0 < capacity)%nat → cache_wf (new_cache capacity).
Proof.
  intros Hc. split; simpl; [done|apply NoDup_nil_2|done|lia].
Qed.

Lemma new_ok capacity :
  (0 < capacity)%nat → LRUCache.new capacity = Ok (new_cache capacity).
Proof. intros Hc. unfold LRUCache.new. rewrite decide_False by lia. done. Qed.

Lemma set_cases k v c :
  cache_wf c →
  set_outcome k v c (LRUCache.set k v c).1 (LRUCache.set k v c).2 ∧
  cache_wf (LRUCache.set k v c).2.
Proof.
  intros Hwf. pose proof (wf_resident c k Hwf) as Hres.
  pose proof (wf_nodup c Hwf) as Hnd. pose proof (wf_bound c Hwf) as Hb.
  pose proof (wf_capacity c Hwf) as Hc. pose proof (wf_index c Hwf) as Hidx.
  unfold LRUCache.set. destruct (decide (k ∈ LRUCache.map_ c)) as [Hin|Hnin].
  - apply Hres, keys_of_split in Hin as (l1 & v0 & l2 & Hl & Hl1).
    rewrite Hl, assign_split, splice_front_split by done. simpl. split.
    + by eapply set_update.
    + rewrite Hl in Hnd, Hb, Hidx.
      destruct (NoDup_keys_split _ _ _ _ Hnd) as [Hnd' Hk].
      split; simpl.
      * done.
      * rewrite keys_of_cons. by apply NoDup_cons.
      * rewrite Hidx, !keys_of_app, keys_of_cons. set_solver.
      * rewrite length_app in *. simpl in *. lia.
  - assert (k ∉ keys_of (LRUCache.list_ c)) as Hk by (by rewrite <- Hres).
    assert (size ({[k]} ∪ LRUCache.map_ c) = S (length (LRUCache.list_ c))) as Hsz.
    { rewrite size_union by set_solver. rewrite size_singleton.
      fold (LRUCache.size c). by rewrite wf_size. }
    rewrite Hsz. destruct (decide _) as [Hfull|Hroom].
    + destruct (nonempty_snoc (LRUCache.list_ c)) as (l0 & [k' v'] & Hl).
      { intros Hnil. rewrite Hnil in Hfull. simpl in Hfull. lia. }
      cbn [fst snd]. rewrite Hl, last_snoc_cons, removelast_snoc_cons.
      cbn [fst].
      pose proof Hk as Hk_c. rewrite Hl in Hk, Hnd, Hb, Hidx, Hfull.
      destruct (NoDup_keys_split _ _ _ _ Hnd) as [Hnd0 Hk'].
      rewrite app_nil_r in Hnd0, Hk'.
      rewrite keys_of_app in Hk, Hidx. apply not_elem_of_app in Hk as [Hk0 Hkk].
      change (keys_of [(k', v')]) with [k'] in Hkk, Hidx.
      rewrite list_elem_of_singleton in Hkk.
      rewrite length_app in Hfull, Hb. simpl in Hfull, Hb.
      split.
      * eapply set_evict; [done| |done].
        rewrite Hl, length_app. simpl. lia.
      * split; cbn [LRUCache.capacity_ LRUCache.list_ LRUCache.map_].
        -- done.
        -- rewrite keys_of_cons. by apply NoDup_cons.
        -- rewrite Hidx, keys_of_cons.
           apply set_eq. intros x. rewrite elem_of_difference, !elem_of_union,
             !elem_of_list_to_set, elem_of_cons, elem_of_app, !elem_of_singleton,
             list_elem_of_singleton.
           split; [tauto|]. intros [->|Hx]; (split; [tauto|]); [done|].
           by intros ->.
        -- simpl. lia.
    + cbn [fst snd]. split.
      * eapply set_insert; [done|lia].
      * split; cbn [LRUCache.capacity_ LRUCache.list_ LRUCache.map_].
        -- done.
        -- rewrite keys_of_cons. by apply NoDup_cons.
        -- by rewrite Hidx, keys_of_cons.
        -- simpl. lia.
Qed.

Lemma get_hit k v0 l1 l2 c :
  cache_wf c →
  LRUCache.list_ c = l1 ++ (k, v0) :: l2 → k ∉ keys_of l1 →
  LRUCache.get k c =
    (Some v0, LRUCache.mk (LRUCache.capacity_ c) ((k, v0) :: l1 ++ l2) (LRUCache.map_ c)).
Proof.
  intros Hwf Hl Hl1. unfold LRUCache.get.
  rewrite decide_True.
  - rewrite Hl, splice_front_split by done.
    cbn [LRUCache.node_of fst]. by rewrite decide_True.
  - apply wf_resident; [done|]. rewrite Hl, keys_of_app, keys_of_cons. set_solver.
Qed.

Lemma get_miss k c :
  cache_wf c → k ∉ keys_of (LRUCache.list_ c) → LRUCache.get k c = (None, c).
Proof.
  intros Hwf Hk. unfold LRUCache.get. rewrite decide_False; [done|].
  by rewrite wf_resident.
Qed.

Lemma del_hit k v0 l1 l2 c :
  cache_wf c →
  LRUCache.list_ c = l1 ++ (k, v0) :: l2 → k ∉ keys_of l1 →
  LRUCache.del k c =
    (true, LRUCache.mk (LRUCache.capacity_ c) (l1 ++ l2) (LRUCache.map_ c ∖ {[k]})).
Proof.
  intros Hwf Hl Hl1. unfold LRUCache.del.
  rewrite decide_True.
  - by rewrite Hl, erase_split.
  - apply wf_resident; [done|]. rewrite Hl, keys_of_app, keys_of_cons. set_solver.
Qed.

Lemma del_miss k c :
  cache_wf c → k ∉ keys_of (LRUCache.list_ c) → LRUCache.del k c = (false, c).
Proof.
  intros Hwf Hk. unfold LRUCache.del. rewrite decide_False; [done|].
  by rewrite wf_resident.
Qed.

(** Taking a node out of a well-formed cache, or moving it to the front,
    leaves a well-formed cache. *)
Lemma wf_take_out k v0 l1 l2 c :
  cache_wf c → LRUCache.list_ c = l1 ++ (k, v0) :: l2 →
  cache_wf (LRUCache.mk (LRUCache.capacity_ c) (l1 ++ l2) (LRUCache.map_ c ∖ {[k]})).
Proof.
  intros [Hc Hnd Hidx Hb] Hl. rewrite Hl in Hnd, Hidx, Hb.
  destruct (NoDup_keys_split _ _ _ _ Hnd) as [Hnd' Hk].
  split; cbn [LRUCache.capacity_ LRUCache.list_ LRUCache.map_]; [done|done| |].
  - rewrite Hidx. rewrite !keys_of_app, keys_of_cons in *.
    apply set_eq. intros x.
    rewrite elem_of_difference, !elem_of_list_to_set, !elem_of_app, elem_of_cons,
      elem_of_singleton.
    rewrite elem_of_app in Hk. split; [tauto|].
    intros Hx. split; [tauto|]. intros ->. tauto.
  - rewrite length_app in *. simpl in Hb. lia.
Qed.

Lemma wf_to_front k v0 l1 l2 c :
  cache_wf c → LRUCache.list_ c = l1 ++ (k, v0) :: l2 →
  cache_wf (LRUCache.mk (LRUCache.capacity_ c) ((k, v0) :: l1 ++ l2) (LRUCache.map_ c)).
Proof.
  intros [Hc Hnd Hidx Hb] Hl. rewrite Hl in Hnd, Hidx, Hb.
  destruct (NoDup_keys_split _ _ _ _ Hnd) as [Hnd' Hk].
  split; cbn [LRUCache.capacity_ LRUCache.list_ LRUCache.map_]; [done| | |].
  - rewrite keys_of_cons. by apply NoDup_cons.
  - rewrite Hidx, keys_of_cons, !keys_of_app, keys_of_cons.
    apply set_eq. intros x.
    rewrite !elem_of_list_to_set, elem_of_cons, !elem_of_app, elem_of_cons. tauto.
  - rewrite length_app in Hb. simpl in *. rewrite length_app. lia.
Qed.

Lemma apply_op_wf o c : cache_wf c → cache_wf (apply_op o c).
Proof.
  intros Hwf. destruct o as [k|k v|k]; simpl.
  - destruct (decide (k ∈ keys_of (LRUCache.list_ c))) as [Hin|Hnin].
    + apply keys_of_split in Hin as (l1 & v0 & l2 & Hl & Hl1).
      rewrite (get_hit k v0 l1 l2) by done. by eapply wf_to_front.
    + by rewrite get_miss.
  - by apply set_cases.
  - destruct (decide (k ∈ keys_of (LRUCache.list_ c))) as [Hin|Hnin].
    + apply keys_of_split in Hin as (l1 & v0 & l2 & Hl & Hl1).
      rewrite (del_hit k v0 l1 l2) by done. by eapply wf_take_out.
    + by rewrite del_miss.
Qed.

(** ** Recency order and the touch log *)

Lemma age_touch_same log k : age (k :: log) k = 0%nat.
Proof. simpl. by rewrite decide_True. Qed.

Lemma age_touch_other log k k' : k ≠ k' → age (k :: log) k' = S (age log k').
Proof. intros Hne. simpl. by rewrite decide_False. Qed.

Lemma recency_nil log : recency_ordered log [].
Proof. split; constructor. Qed.

Lemma recency_remove log ks1 k ks2 :
  recency_ordered log (ks1 ++ k :: ks2) → recency_ordered log (ks1 ++ ks2).
Proof.
  intros [Hin Hs]. split.
  - rewrite Forall_app, Forall_cons in Hin. rewrite Forall_app. tauto.
  - apply StronglySorted_app in Hs as (Hlt & Hs1 & Hs2).
    apply StronglySorted_app. split_and!; [|done|].
    + intros x y Hx Hy. apply Hlt; [done|]. by apply elem_of_cons; right.
    + by apply StronglySorted_cons in Hs2 as [_ ?].
Qed.

Lemma recency_remove_last log ks k :
  recency_ordered log (ks ++ [k]) → recency_ordered log ks.
Proof. intros H. apply recency_remove in H. by rewrite app_nil_r in H. Qed.

Lemma recency_touch log k ks :
  recency_ordered log ks → k ∉ ks → recency_ordered (k :: log) (k :: ks).
Proof.
  intros [Hin Hs] Hk. split.
  - constructor; [by apply elem_of_cons; left|].
    eapply Forall_impl; [exact Hin|]. intros x Hx. by apply elem_of_cons; right.
  - apply StronglySorted_cons. split.
    + apply Forall_forall. intros x Hx. rewrite age_touch_same, age_touch_other; [lia|].
      by intros ->.
    + clear Hin. induction Hs as [|a ks Hs IH Hall]; [constructor|].
      apply not_elem_of_cons in Hk as [Hka Hk]. constructor; [by apply IH|].
      rewrite Forall_forall in Hall. apply Forall_forall. intros x Hx.
      rewrite !age_touch_other; [|by intros ->|done].
      specialize (Hall x Hx). lia.
Qed.

Lemma recency_last_oldest log ks k k' :
  recency_ordered log (ks ++ [k]) → k' ∈ ks → (age log k' < age log k)%nat.
Proof.
  intros [_ Hs] Hk'. apply StronglySorted_app in Hs as (Hlt & _ & _).
  apply Hlt; [done|]. by apply list_elem_of_singleton.
Qed.

Lemma apply_op_recency o c log :
  cache_wf c →
  recency_ordered log (keys_of (LRUCache.list_ c)) →
  recency_ordered (log_op o c log) (keys_of (LRUCache.list_ (apply_op o c))).
Proof.
  intros Hwf Hrec. pose proof (wf_nodup c Hwf) as Hnd.
  unfold log_op. destruct o as [k|k v|k]; simpl.
  - destruct (decide (k ∈ keys_of (LRUCache.list_ c))) as [Hin|Hnin].
    + rewrite (proj2 (contains_resident c k Hwf) Hin).
      apply keys_of_split in Hin as (l1 & v0 & l2 & Hl & Hl1).
      rewrite (get_hit k v0 l1 l2) by done. simpl. rewrite Hl in Hrec, Hnd.
      rewrite keys_of_cons. apply recency_touch.
      * rewrite keys_of_app, keys_of_cons in Hrec. rewrite keys_of_app.
        by eapply recency_remove.
      * by apply NoDup_keys_split in Hnd as [_ ?].
    + rewrite get_miss by done.
      destruct (LRUCache.contains k c) eqn:Hc; [|done].
      by apply contains_resident in Hc.
  - destruct (set_cases k v c Hwf) as [Hout _].
    destruct Hout as [l1 v0 l2 m Hl Hl1|m Hk Hlt|l0 k' v' m Hk Hlen Hl];
      cbn [LRUCache.list_]; rewrite keys_of_cons; apply recency_touch.
    + rewrite Hl, keys_of_app, keys_of_cons in Hrec. rewrite keys_of_app.
      by eapply recency_remove.
    + rewrite Hl in Hnd. by apply NoDup_keys_split in Hnd as [_ ?].
    + done.
    + done.
    + rewrite Hl, keys_of_app in Hrec. by eapply recency_remove_last.
    + rewrite Hl, keys_of_app in Hk. by apply not_elem_of_app in Hk as [? _].
  - destruct (decide (k ∈ keys_of (LRUCache.list_ c))) as [Hin|Hnin].
    + apply keys_of_split in Hin as (l1 & v0 & l2 & Hl & Hl1).
      rewrite (del_hit k v0 l1 l2) by done. simpl.
      rewrite Hl, keys_of_app, keys_of_cons in Hrec. rewrite keys_of_app.
      by eapply recency_remove.
    + by rewrite del_miss.
Qed.

Lemma run_ops_invariant ops c log :
  cache_wf c →
  recency_ordered log (keys_of (LRUCache.list_ c)) →
  cache_wf (run_ops ops c log).1 ∧
  recency_ordered (run_ops ops c log).2 (keys_of (LRUCache.list_ (run_ops ops c log).1)).
Proof.
  revert c log. induction ops as [|o ops IH]; intros c log Hwf Hrec; simpl.
  - done.
  - apply IH; [by apply apply_op_wf|by apply apply_op_recency].
Qed.

Lemma capacity_apply_op o c :
  LRUCache.capacity_ (apply_op o c) = LRUCache.capacity_ c.
Proof.
  destruct o as [k|k v|k]; simpl.
  - unfold LRUCache.get. by destruct (decide _).
  - unfold LRUCache.set. destruct (decide _); [done|]. by destruct (decide _).
  - unfold LRUCache.del. by destruct (decide _).
Qed.

Lemma capacity_run_ops ops c log :
  LRUCache.capacity_ (run_ops ops c log).1 = LRUCache.capacity_ c.
Proof.
  revert c log. induction ops as [|o ops IH]; intros c log; simpl; [done|].
  by rewrite IH, capacity_apply_op.
Qed.

(** ** Capacity and eviction order (lru.h) *)

Lemma resident_after_evict k v c l0 k' v' x :
  LRUCache.list_ c = l0 ++ [(k', v')] →
  NoDup (keys_of (LRUCache.list_ c)) →
  x ∈ keys_of ((k, v) :: l0) ↔ x = k ∨ (x ∈ keys_of (LRUCache.list_ c) ∧ x ≠ k').
Proof.
  intros Hl Hnd. rewrite Hl in *.
  destruct (NoDup_keys_split _ _ _ _ Hnd) as [_ Hk']. rewrite app_nil_r in Hk'.
  rewrite keys_of_cons, keys_of_app, elem_of_cons, elem_of_app.
  change (keys_of [(k', v')]) with [k']. rewrite list_elem_of_singleton.
  split; [|tauto]. intros [->|Hx]; [tauto|]. right. split; [tauto|]. by intros ->.
Qed.

(** C1: for every capacity C > 0 the cache can be built, and over every
    sequence of get/set/delete operations the number of resident entries
    never exceeds C; a set of a key that is not resident, when C entries are
    resident, evicts exactly the resident key whose latest touch (a get that
    hits, or a set) is the oldest, keeps every other resident key and makes
    the new key resident.  With capacity 2, after set(a,1); set(b,2); get(a),
    set(c,3) evicts b, and a and c are resident. *)
Theorem lru_capacity_and_eviction (C : nat) (ops : list cache_op) (k v : string) :
  (0 < C)%nat →
  (∃ c0, LRUCache.new C = Ok c0 ∧
     (∀ n, (LRUCache.size (run_ops (take n ops) c0 []).1 <= C)%nat) ∧
     (let c := (run_ops ops c0 []).1 in
      let log := (run_ops ops c0 []).2 in
      LRUCache.size c = C → LRUCache.contains k c = false →
      let victim := (LRUCache.set k v c).1 in
      let c' := (LRUCache.set k v c).2 in
      least_recently_touched log c victim ∧
      (∀ x, LRUCache.contains x c' = true ↔
            x = k ∨ (LRUCache.contains x c = true ∧ x ≠ victim)) ∧
      LRUCache.size c' = C)) ∧
  (let c := (run_ops [OpSet "a" "1"; OpSet "b" "2"; OpGet "a"] (new_cache 2) []).1 in
   (LRUCache.set "c" "3" c).1 = "b" ∧
   LRUCache.contains "a" (LRUCache.set "c" "3" c).2 = true ∧
   LRUCache.contains "c" (LRUCache.set "c" "3" c).2 = true ∧
   LRUCache.contains "b" (LRUCache.set "c" "3" c).2 = false).
Proof.
  intros HC. split; [|by vm_compute].
  exists (new_cache C). split; [by apply new_ok|].
  assert (∀ ops', cache_wf (run_ops ops' (new_cache C) []).1 ∧
    recency_ordered (run_ops ops' (new_cache C) []).2
      (keys_of (LRUCache.list_ (run_ops ops' (new_cache C) []).1))) as Hinv.
  { intros ops'. apply run_ops_invariant; [by apply new_cache_wf|apply recency_nil]. }
  split.
  - intros n. destruct (Hinv (take n ops)) as [Hwf _].
    rewrite wf_size by done. pose proof (wf_bound _ Hwf) as Hb.
    by rewrite capacity_run_ops in Hb.
  - destruct (Hinv ops) as [Hwf Hrec].
    pose proof (capacity_run_ops ops (new_cache C) []) as Hcap.
    destruct (run_ops ops (new_cache C) []) as [c log]. simpl in Hwf, Hrec, Hcap |- *.
    intros Hsize Hk. rewrite wf_size in Hsize by done.
    assert (k ∉ keys_of (LRUCache.list_ c)) as Hk'.
    { intros Hin. apply (contains_resident c k Hwf) in Hin. congruence. }
    destruct (set_cases k v c Hwf) as [Hout Hwf'].
    pose proof (wf_nodup c Hwf) as Hnd.
    revert Hwf'.
    destruct Hout as [l1 v0 l2 m Hl Hl1|m _ Hlt|l0 k' v' m _ Hlen Hl]; intros Hwf'.
    + exfalso. apply Hk'. rewrite Hl, keys_of_app, keys_of_cons. set_solver.
    + lia.
    + assert (k' ∈ keys_of (LRUCache.list_ c)) as Hk'in.
      { rewrite Hl, keys_of_app. apply elem_of_app. right. by apply list_elem_of_singleton. }
      split_and!.
      * destruct Hrec as [Hlog Hs]. rewrite Forall_forall in Hlog.
        split_and!; [done|by apply Hlog|]. intros x Hx Hne. split; [by apply Hlog|].
        rewrite Hl, keys_of_app in Hx. apply elem_of_app in Hx as [Hx|Hx].
        -- eapply recency_last_oldest; [|done]. split; [|by rewrite Hl, keys_of_app in Hs].
           apply Forall_forall. intros y Hy. apply Hlog. by rewrite Hl, keys_of_app.
        -- by apply list_elem_of_singleton in Hx.
      * intros x. rewrite !contains_resident by done. cbn [LRUCache.list_].
        by eapply resident_after_evict.
      * rewrite wf_size by done. cbn [LRUCache.list_]. rewrite Hl, length_app in Hlen.
        simpl in *. lia.
Qed.

Lemma lru_capacity_and_eviction_witness :
  (∃ c0, LRUCache.new 1 = Ok c0 ∧
     (∀ n, (LRUCache.size (run_ops (take n [OpSet "x" "1"]) c0 []).1 <= 1)%nat) ∧
     (let c := (run_ops [OpSet "x" "1"] c0 []).1 in
      let log := (run_ops [OpSet "x" "1"] c0 []).2 in
      LRUCache.size c = 1%nat → LRUCache.contains "y" c = false →
      let victim := (LRUCache.set "y" "2" c).1 in
      let c' := (LRUCache.set "y" "2" c).2 in
      least_recently_touched log c victim ∧
      (∀ x, LRUCache.contains x c' = true ↔
            x = "y" ∨ (LRUCache.contains x c = true ∧ x ≠ victim)) ∧
      LRUCache.size c' = 1%nat)) ∧
  (let c := (run_ops [OpSet "a" "1"; OpSet "b" "2"; OpGet "a"] (new_cache 2) []).1 in
   (LRUCache.set "c" "3" c).1 = "b" ∧
   LRUCache.contains "a" (LRUCache.set "c" "3" c).2 = true ∧
   LRUCache.contains "c" (LRUCache.set "c" "3" c).2 = true ∧
   LRUCache.contains "b" (LRUCache.set "c" "3" c).2 = false).
Proof. apply (lru_capacity_and_eviction 1 [OpSet "x" "1"] "y" "2"). lia. Defined.

(** ** The store facade: set, ttl, flush (store.cpp) *)

Section store_set.
Context (key value : string) (ttl_seconds now : Z) (st : KVStore.t).

Let r := LRUCache.set key value (KVStore.cache_ st).

Lemma set_returns : (KVStore.set key value ttl_seconds now st).1 = r.1.
Proof.
  unfold KVStore.set. subst r. destruct (LRUCache.set _ _ _) as [ev c].
  by destruct (decide (ev ≠ "")).
Qed.

Lemma set_cache :
  KVStore.cache_ (KVStore.set key value ttl_seconds now st).2 = r.2.
Proof.
  unfold KVStore.set. subst r. destruct (LRUCache.set _ _ _) as [ev c].
  by destruct (decide (ev ≠ "")).
Qed.

Lemma set_ttl_mgr :
  KVStore.ttl_mgr_ (KVStore.set key value ttl_seconds now st).2 =
    let m := if decide (r.1 ≠ "")
             then TTLManager.remove r.1 (KVStore.ttl_mgr_ st)
             else KVStore.ttl_mgr_ st in
    if decide (ttl_seconds > 0)
    then TTLManager.set key ttl_seconds now m
    else TTLManager.remove key m.
Proof.
  unfold KVStore.set. subst r. destruct (LRUCache.set _ _ _) as [ev c].
  cbn [fst]. by destruct (decide (ev ≠ "")).
Qed.

Lemma set_evictions :
  KVStore.evictions_ (KVStore.set key value ttl_seconds now st).2 =
    if decide (r.1 ≠ "") then incr64 (KVStore.evictions_ st)
    else KVStore.evictions_ st.
Proof.
  unfold KVStore.set. subst r. destruct (LRUCache.set _ _ _) as [ev c].
  cbn [fst]. by destruct (decide (ev ≠ "")).
Qed.

Lemma set_wf : store_wf st → store_wf (KVStore.set key value ttl_seconds now st).2.
Proof. intros Hwf. unfold store_wf. rewrite set_cache. by apply set_cases. Qed.


(** A key evicted by [set] is another key than the one set. *)
Lemma set_evicts_other :
  store_wf st → r.1 ≠ "" →
  r.1 ≠ key ∧ LRUCache.contains r.1 r.2 = false.
Proof.
  intros Hwf. pose proof (wf_nodup _ Hwf) as Hnd.
  destruct (set_cases key value _ Hwf) as [Hout Hwf']. subst r. revert Hwf'.
  destruct Hout as [| |l0 k' v' m Hk Hlen Hl]; intros Hwf' Hne; [done|done|].
  assert (k' ≠ key) as Hk'.
  { intros ->. apply Hk. rewrite Hl, keys_of_app. apply elem_of_app. right.
    by apply list_elem_of_singleton. }
  split; [done|]. apply not_true_is_false. rewrite contains_resident by done.
  cbn [LRUCache.list_]. rewrite (resident_after_evict key value _ l0 k' v') by done.
  intros [?|[_ ?]]; done.
Qed.

End store_set.


(** ** Tick counts *)

Lemma wrap_int64_id z : int64 z → wrap_int64 z = z.
Proof. unfold int64, wrap_int64. intros Hz. rewrite Z.mod_small; lia. Qed.

Lemma wrap_int64_add_r a b : wrap_int64 (a + wrap_int64 b) = wrap_int64 (a + b).
Proof.
  unfold wrap_int64. f_equal.
  replace (a + ((b + 2 ^ 63) mod 2 ^ 64 - 2 ^ 63) + 2 ^ 63)
    with (a + (b + 2 ^ 63) mod 2 ^ 64) by lia.
  rewrite Zplus_mod_idemp_r. f_equal. lia.
Qed.

Lemma wrap_int64_sub_l a b : wrap_int64 (wrap_int64 a - b) = wrap_int64 (a - b).
Proof.
  unfold wrap_int64. f_equal.
  replace ((a + 2 ^ 63) mod 2 ^ 64 - 2 ^ 63 - b + 2 ^ 63)
    with ((a + 2 ^ 63) mod 2 ^ 64 - b) by lia.
  rewrite Zminus_mod_idemp_l. f_equal. lia.
Qed.

Lemma wrap_int64_range z : int64 (wrap_int64 z).
Proof.
  unfold int64, wrap_int64.
  pose proof (Z.mod_pos_bound (z + 2 ^ 63) (2 ^ 64) ltac:(lia)). lia.
Qed.


Lemma demo_store_wf : store_wf demo_store.
Proof. apply new_cache_wf. lia. Qed.

Lemma one_second_store_wf : store_wf one_second_store.
Proof. apply set_wf, demo_store_wf. Qed.



(** C6, as stated, fails: half a second after set(k, v, 1), "k" is resident
    and its deadline has not passed, yet ttl(k) returns 0, not a positive
    number of seconds.  It fails also where the tick count wraps: one
    second after set(k, v, 9223372037) at tick 0 the recorded deadline lies
    behind the clock, yet ttl(k) returns 9223372036, not 0. *)
Lemma ttl_subsecond_counterexample :
  LRUCache.contains "k" (KVStore.cache_ one_second_store) = true ∧
  TTLManager.expiry_map_ (KVStore.ttl_mgr_ one_second_store) !! "k" = Some 1000000000 ∧
  500000000 < 1000000000 ∧
  KVStore.ttl "k" 500000000 one_second_store = 0 ∧
  ¬ (KVStore.ttl "k" 500000000 one_second_store > 0) ∧
  LRUCache.contains "k" (KVStore.cache_ (KVStore.set "k" "v" 9223372037 0 demo_store).2)
    = true ∧
  TTLManager.expiry_map_
    (KVStore.ttl_mgr_ (KVStore.set "k" "v" 9223372037 0 demo_store).2) !! "k"
    = Some (-9223372036709551616) ∧
  -9223372036709551616 <= 1000000000 ∧
  KVStore.ttl "k" 1000000000 (KVStore.set "k" "v" 9223372037 0 demo_store).2
    = 9223372036.
Proof. vm_compute. split_and!; try done. Qed.

(** C6, amended: ttl(key) returns -2 if the key is not resident; otherwise
    -1 if no deadline is recorded; otherwise, when the difference between
    the deadline and the clock reading fits the 64-bit tick count, 0 if the
    deadline has passed or lies less than one whole second ahead, and else
    the number n > 0 of whole seconds that remain, rounded down (n seconds
    do not exceed the remaining time, n + 1 seconds do). *)
Theorem ttl_cases (key : string) (now : Z) (st : KVStore.t) :
  (LRUCache.contains key (KVStore.cache_ st) = false → KVStore.ttl key now st = -2) ∧
  (LRUCache.contains key (KVStore.cache_ st) = true →
   match TTLManager.expiry_map_ (KVStore.ttl_mgr_ st) !! key with
   | None => KVStore.ttl key now st = -1
   | Some deadline =>
       int64 (deadline - now) →
       (deadline - now < ticks_per_second → KVStore.ttl key now st = 0) ∧
       (ticks_per_second <= deadline - now →
          KVStore.ttl key now st > 0 ∧
          KVStore.ttl key now st * ticks_per_second <= deadline - now
            < (KVStore.ttl key now st + 1) * ticks_per_second)
   end).
Proof.
  unfold KVStore.ttl. split; intros ->; [done|]. cbn [negb]. unfold TTLManager.ttl.
  destruct (_ !! key) as [deadline|]; [|done]. intros Hrange.
  rewrite wrap_int64_id by done.
  unfold TTLManager.duration_cast, ticks_per_second. split; intros Hd.
  - destruct (decide (deadline - now < 0)).
    + rewrite decide_False; [done|].
      pose proof (Z.quot_opp_l (now - deadline) 1000000000 ltac:(lia)) as Hq.
      replace (- (now - deadline)) with (deadline - now) in Hq by lia.
      pose proof (Z.quot_pos (now - deadline) 1000000000 ltac:(lia) ltac:(lia)). lia.
    + rewrite Z.quot_small by lia. by rewrite decide_False.
  - rewrite Z.quot_div_nonneg by lia.
    pose proof (Z.div_mod (deadline - now) 1000000000 ltac:(lia)).
    pose proof (Z.mod_pos_bound (deadline - now) 1000000000 ltac:(lia)).
    assert ((deadline - now) `div` 1000000000 > 0) by lia.
    rewrite decide_True by done. lia.
Qed.

Lemma ttl_cases_witness :
  LRUCache.contains "k" (KVStore.cache_ one_second_store) = true ∧
  int64 (1000000000 - 500000000) ∧
  KVStore.ttl "k" 500000000 one_second_store = 0.
Proof.
  split; [done|]. split; [unfold int64; lia|].
  destruct (ttl_cases "k" 500000000 one_second_store) as [_ H].
  specialize (H eq_refl).
  assert (TTLManager.expiry_map_ (KVStore.ttl_mgr_ one_second_store) !! "k"
            = Some 1000000000) as Hd by done.
  rewrite Hd in H. apply H; [unfold int64; lia|unfold ticks_per_second; lia].
Defined.

(** C9: flush empties the cache (size() == 0, keys() is empty) and leaves the
    deadline map as it was. *)
Theorem flush_keeps_deadlines (st : KVStore.t) :
  KVStore.size (KVStore.flush st) = 0%nat ∧
  KVStore.keys (KVStore.flush st) = [] ∧
  TTLManager.expiry_map_ (KVStore.ttl_mgr_ (KVStore.flush st))
    = TTLManager.expiry_map_ (KVStore.ttl_mgr_ st).
Proof.
  split_and!; [|done|done].
  unfold KVStore.size, LRUCache.size, KVStore.flush, KVStore.with_cache, LRUCache.clear.
  cbn [KVStore.cache_ LRUCache.map_]. apply size_empty.
Qed.

(** C5 at the empty-string key: setting "b" evicts the resident key "",
    yet the eviction counter stays 0 and the deadline of "" stays recorded;
    the next wake-up after the deadline still hands "" to the callback. *)
Lemma evicted_empty_key_keeps_deadline :
  KVStore.keys empty_key_store = [""] ∧
  let st' := (KVStore.set "b" "w" (-1) 1 empty_key_store).2 in
  KVStore.keys st' = ["b"] ∧
  KVStore.evictions_ st' = 0 ∧
  TTLManager.expiry_map_ (KVStore.ttl_mgr_ st') !! "" = Some 30000000000 ∧
  TTLManager.expired_keys 30000000000 (KVStore.ttl_mgr_ st') = [""].
Proof. by vm_compute. Qed.

(** For an evicted key other than the empty string the bookkeeping is done:
    the counter goes up by one, the deadline is gone and ttl reports -2. *)
Lemma set_evicts_nonempty (k v : string) (ttl_seconds now t : Z) (st : KVStore.t) :
  store_wf st →
  let evicted := (KVStore.set k v ttl_seconds now st).1 in
  let st' := (KVStore.set k v ttl_seconds now st).2 in
  evicted ≠ "" →
  KVStore.evictions_ st' = incr64 (KVStore.evictions_ st) ∧
  TTLManager.expiry_map_ (KVStore.ttl_mgr_ st') !! evicted = None ∧
  KVStore.ttl evicted t st' = -2.
Proof.
  intros Hwf evicted st' Hne. subst evicted st'. rewrite set_returns in *.
  destruct (set_evicts_other k v st Hwf Hne) as [Hother Hgone].
  rewrite set_evictions, decide_True by done. split; [reflexivity|split].
  - rewrite set_ttl_mgr. cbn zeta.
    rewrite (decide_True (P:=(LRUCache.set k v (KVStore.cache_ st)).1 ≠ "")) by done.
    destruct (decide (ttl_seconds > 0)); cbn [TTLManager.set TTLManager.remove
      TTLManager.expiry_map_].
    + rewrite lookup_insert_ne by done. apply lookup_delete_eq.
    + rewrite lookup_delete_ne by done. apply lookup_delete_eq.
  - unfold KVStore.ttl. by rewrite set_cache, Hgone.
Qed.

(** ** Integers and strings in the snapshot file (persistence.h) *)

Lemma byte_to_Z_range b : 0 <= byte_to_Z b < 256.
Proof. unfold byte_to_Z. pose proof (Byte.to_N_bounded b). lia. Qed.

Lemma byte_to_of_Z z : byte_to_Z (byte_of_Z z) = z mod 256.
Proof.
  unfold byte_to_Z, byte_of_Z. pose proof (Z.mod_pos_bound z 256 ltac:(lia)) as Hm.
  destruct (Byte.of_N (Z.to_N (z mod 256))) as [b|] eqn:Hb.
  - apply Byte.to_of_N in Hb. rewrite Hb. lia.
  - apply Byte.of_N_None_iff in Hb. lia.
Qed.

Lemma le_bytes_length n v : length (le_bytes n v) = n.
Proof. revert v. induction n as [|n IH]; intros v; simpl; [done|]. by rewrite IH. Qed.

Lemma le_value_bytes n v : le_value (le_bytes n v) = v mod 256 ^ Z.of_nat n.
Proof.
  revert v. induction n as [|n IH]; intros v.
  - simpl. by rewrite Z.mod_1_r.
  - cbn [le_bytes le_value]. rewrite byte_to_of_Z, IH.
    rewrite Nat2Z.inj_succ, Z.pow_succ_r by lia.
    rewrite Z.rem_mul_r; [done|lia|]. apply Z.pow_pos_nonneg; lia.
Qed.

Lemma to_int64_wrap v : - 2 ^ 63 <= v < 2 ^ 63 → to_int64 (v mod 2 ^ 64) = v.
Proof.
  intros Hv. unfold to_int64. destruct (decide (0 <= v)).
  - rewrite Z.mod_small by lia. rewrite decide_True; lia.
  - replace (v mod 2 ^ 64) with (v + 2 ^ 64).
    + rewrite decide_False; lia.
    + apply Z.mod_unique with (-1); lia.
Qed.

Lemma list_byte_of_string_length s :
  length (String.list_byte_of_string s) = String.length s.
Proof.
  unfold String.list_byte_of_string. rewrite length_map.
  induction s as [|a s IH]; simpl; [done|]. by rewrite IH.
Qed.

(** *** Reading from a stream *)

Lemma read_exact bs rest :
  ifstream.read (length bs) (ifstream.open (bs ++ rest)) = (bs, ifstream.open rest).
Proof.
  unfold ifstream.read, ifstream.open. cbn [ifstream.good ifstream.eofbit
    ifstream.failbit ifstream.content negb andb].
  rewrite decide_True by (rewrite length_app; lia).
  by rewrite take_app_length, drop_app_length.
Qed.

Lemma read32_write32 v rest :
  0 <= v < 2 ^ 32 →
  PersistenceEngine.read32 (ifstream.open (PersistenceEngine.write32 v ++ rest))
    = (v, ifstream.open rest).
Proof.
  intros Hv. unfold PersistenceEngine.read32, PersistenceEngine.write32.
  pose proof (read_exact (le_bytes 4 v) rest) as Hr. rewrite le_bytes_length in Hr.
  rewrite Hr, le_value_bytes. f_equal. apply Z.mod_small.
  change (256 ^ Z.of_nat 4) with (2 ^ 32). lia.
Qed.

Lemma read64_write64 v rest :
  - 2 ^ 63 <= v < 2 ^ 63 →
  PersistenceEngine.read64 (ifstream.open (PersistenceEngine.write64 v ++ rest))
    = (v, ifstream.open rest).
Proof.
  intros Hv. unfold PersistenceEngine.read64, PersistenceEngine.write64.
  pose proof (read_exact (le_bytes 8 v) rest) as Hr. rewrite le_bytes_length in Hr.
  rewrite Hr, le_value_bytes. f_equal.
  change (256 ^ Z.of_nat 8) with (2 ^ 64). by apply to_int64_wrap.
Qed.

Lemma readString_writeString s rest :
  Z.of_nat (String.length s) <= 1024 * 1024 →
  PersistenceEngine.readString (ifstream.open (PersistenceEngine.writeString s ++ rest))
    = Ok (s, ifstream.open rest).
Proof.
  intros Hs. unfold PersistenceEngine.readString, PersistenceEngine.writeString.
  rewrite Z.mod_small by lia. rewrite <- app_assoc, read32_write32 by lia.
  rewrite decide_False by lia. rewrite Nat2Z.id.
  rewrite firstn_all2 by (rewrite list_byte_of_string_length; lia).
  pose proof (read_exact (String.list_byte_of_string s) rest) as Hr.
  rewrite list_byte_of_string_length in Hr. rewrite Hr.
  rewrite list_byte_of_string_length, Nat.sub_diag. cbn [replicate].
  by rewrite app_nil_r, String.string_of_list_byte_of_string.
Qed.

Lemma bind_Ok {A B} (a : A) (k : A → result B) : Ok a ≫= k = k a.
Proof. reflexivity. Qed.

Lemma read_entries_written es acc rest :
  Forall entry_portable es →
  PersistenceEngine.read_entries (length es) acc
      (ifstream.open (concat (PersistenceEngine.write_entry <$> es) ++ rest))
    = Ok (acc ++ es, ifstream.open rest).
Proof.
  intros Hes. revert acc. induction Hes as [|e es (Hk & Hv & Ht) Hes IH]; intros acc.
  - simpl. by rewrite app_nil_r.
  - cbn [length fmap list_fmap concat PersistenceEngine.read_entries].
    unfold PersistenceEngine.write_entry at 1. rewrite <- !app_assoc.
    rewrite readString_writeString, bind_Ok by done.
    rewrite readString_writeString, bind_Ok by done.
    rewrite read64_write64 by done. rewrite IH. rewrite <- app_assoc.
    by destruct e.
Qed.

Lemma load_image filename mem es (fs : gmap string (list byte)) :
  Forall entry_portable es →
  Z.of_nat (length es) < 2 ^ 63 →
  vector.reserve mem (Z.of_nat (length es)) = Ok () →
  PersistenceEngine.load filename mem (<[filename := PersistenceEngine.image es]> fs)
    = Ok es.
Proof.
  intros Hes Hlen Hmem. unfold PersistenceEngine.load, PersistenceEngine.image.
  rewrite lookup_insert_eq.
  rewrite read32_write32 by (unfold PersistenceEngine.MAGIC; lia).
  rewrite read32_write32 by (unfold PersistenceEngine.VERSION; lia).
  rewrite decide_False by tauto. rewrite decide_False by tauto.
  rewrite read64_write64 by lia. rewrite decide_False by lia.
  rewrite Hmem, bind_Ok. rewrite Nat2Z.id.
  rewrite <- (app_nil_r (concat _)), read_entries_written, bind_Ok by done.
  done.
Qed.

(** ** What [PersistenceEngine::load] throws *)

Lemma open_fail_at_eof file : fail_at_eof (ifstream.open file).
Proof. by intros ?. Qed.

Lemma read_fail_at_eof n s : fail_at_eof s → fail_at_eof (ifstream.read n s).2.
Proof.
  unfold fail_at_eof, ifstream.read, ifstream.good.
  destruct s as [bs [] []]; simpl; intros H; try done.
  by destruct (decide _).
Qed.

Lemma read32_fail_at_eof s : fail_at_eof s → fail_at_eof (PersistenceEngine.read32 s).2.
Proof.
  intros Hs. unfold PersistenceEngine.read32.
  pose proof (read_fail_at_eof 4 s Hs). by destruct (ifstream.read 4 s).
Qed.

Lemma read64_fail_at_eof s : fail_at_eof s → fail_at_eof (PersistenceEngine.read64 s).2.
Proof.
  intros Hs. unfold PersistenceEngine.read64.
  pose proof (read_fail_at_eof 8 s Hs). by destruct (ifstream.read 8 s).
Qed.

Lemma readString_outcome s :
  fail_at_eof s →
  match PersistenceEngine.readString s with
  | Ok (_, s') => fail_at_eof s'
  | Throw e => e = implausible_length
  end.
Proof.
  intros Hs. unfold PersistenceEngine.readString.
  pose proof (read32_fail_at_eof s Hs) as H1.
  destruct (PersistenceEngine.read32 s) as [len s1]. simpl in H1.
  destruct (decide (len > 1024 * 1024)); [done|].
  pose proof (read_fail_at_eof (Z.to_nat len) s1 H1) as H2.
  by destruct (ifstream.read (Z.to_nat len) s1).
Qed.

Lemma read_entries_outcome n acc s :
  fail_at_eof s →
  match PersistenceEngine.read_entries n acc s with
  | Ok (_, s') => fail_at_eof s'
  | Throw e => e = implausible_length
  end.
Proof.
  revert acc s. induction n as [|n IH]; intros acc s Hs; simpl; [done|].
  pose proof (readString_outcome s Hs) as H1.
  destruct (PersistenceEngine.readString s) as [[k s1]|e]; [|done].
  rewrite bind_Ok. pose proof (readString_outcome s1 H1) as H2.
  destruct (PersistenceEngine.readString s1) as [[v s2]|e]; [|done].
  rewrite bind_Ok. pose proof (read64_fail_at_eof s2 H2) as H3.
  destruct (PersistenceEngine.read64 s2) as [t s3]. cbn [snd] in H3. by apply IH.
Qed.

Lemma reserve_throws mem n e :
  vector.reserve mem n = Throw e → e = length_error ∨ e = bad_alloc.
Proof. unfold vector.reserve. repeat case_match; intros [= <-]; auto. Qed.

(** Whatever the file holds, [load] never throws its read error: the check
    after the loop lets a stream pass that failed at the end of the file. *)
Lemma load_never_read_error filename mem (fs : gmap string (list byte)) :
  PersistenceEngine.load filename mem fs
    ≠ Throw (runtime_error ("Read error on file: " +:+ filename)).
Proof.
  unfold PersistenceEngine.load. destruct (fs !! filename) as [file|]; [|done].
  pose proof (read32_fail_at_eof _ (open_fail_at_eof file)) as H1.
  destruct (PersistenceEngine.read32 (ifstream.open file)) as [magic s1].
  cbn [snd] in H1. pose proof (read32_fail_at_eof _ H1) as H2.
  destruct (PersistenceEngine.read32 s1) as [version s2]. cbn [snd] in H2.
  destruct (decide (magic ≠ _)); [done|]. destruct (decide (version ≠ _)); [done|].
  pose proof (read64_fail_at_eof _ H2) as H3.
  destruct (PersistenceEngine.read64 s2) as [count s3]. cbn [snd] in H3.
  destruct (decide (count < 0)); [done|].
  destruct (vector.reserve mem count) as [[]|e] eqn:Hmem.
  2:{ by apply reserve_throws in Hmem as [-> | ->]. }
  rewrite bind_Ok.
  pose proof (read_entries_outcome (Z.to_nat count) [] s3 H3) as H4.
  destruct (PersistenceEngine.read_entries _ _ _) as [[es s4]|e].
  - rewrite bind_Ok. unfold ifstream.fail, ifstream.eof.
    destruct (ifstream.failbit s4) eqn:Hf; [|done]. by rewrite H4.
  - by subst e.
Qed.

(** C3 at a file cut one byte short: the file of 34 bytes loads as written;
    cut to 33 bytes, [load] returns a record, with a TTL of 2^56 - 1 ms,
    and throws nothing.  Cut anywhere after magic and version, it returns a
    record list. *)
Lemma load_truncated_returns_records :
  length one_record_file = 34%nat ∧
  PersistenceEngine.load "snapshot.bin" roomy (truncated_to 34) = Ok [mkEntry "k" "v" (-1)] ∧
  PersistenceEngine.load "snapshot.bin" roomy (truncated_to 33)
    = Ok [mkEntry "k" "v" (2 ^ 56 - 1)] ∧
  forallb (λ n, is_Ok (PersistenceEngine.load "snapshot.bin" roomy (truncated_to n)))
          (seq 8 26) = true.
Proof. by vm_compute. Qed.

(** ** Loading (store.cpp) *)

(** C8: when decoding the snapshot throws (the file is missing, its magic,
    version, record count or a string length is rejected, or storage for
    the records cannot be reserved), the store's load throws the same
    exception and the store is as it was before the call: cache, deadlines
    and counters. *)
Theorem load_error_leaves_state (filename : string) (now : Z)
    (mem : vector.allocator) (fs : gmap string (list byte)) (st : KVStore.t) (e : exn) :
  PersistenceEngine.load filename mem fs = Throw e →
  KVStore.load filename now mem fs st = (Throw e, st).
Proof. intros He. unfold KVStore.load. by rewrite He. Qed.

Lemma load_error_leaves_state_witness :
  PersistenceEngine.load "snapshot.bin" roomy bad_magic_fs
    = Throw (runtime_error "Invalid snapshot file (bad magic)") ∧
  KVStore.load "snapshot.bin" 0 roomy bad_magic_fs one_second_store
    = (Throw (runtime_error "Invalid snapshot file (bad magic)"), one_second_store).
Proof.
  split; [by vm_compute|].
  apply (load_error_leaves_state "snapshot.bin" 0 roomy bad_magic_fs one_second_store).
  by vm_compute.
Defined.

(** Each of the format errors arises. *)
Lemma format_errors_arise :
  let header v c := PersistenceEngine.write32 PersistenceEngine.MAGIC
                      ++ PersistenceEngine.write32 v ++ PersistenceEngine.write64 c in
  PersistenceEngine.load "f" roomy {["f" := header 2 0]}
    = Throw (runtime_error "Unsupported snapshot version") ∧
  PersistenceEngine.load "f" roomy {["f" := header 1 (-1)]}
    = Throw (runtime_error "Corrupt record count") ∧
  PersistenceEngine.load "f" roomy {["f" := header 1 1 ++ PersistenceEngine.write32 (1024 * 1024 + 1)]}
    = Throw implausible_length ∧
  PersistenceEngine.load "f" roomy ∅
    = Throw (runtime_error "Cannot open file for reading: f").
Proof. by vm_compute. Qed.

(** Whatever the snapshot holds, a deadline recorded before [load] is still
    recorded after it unless a record with a positive TTL replaces it. *)
Lemma load_entry_keeps_deadline now st e k :
  (key e = k → ¬ ttl_ms e > 0) →
  TTLManager.expiry_map_ (KVStore.ttl_mgr_ (KVStore.load_entry now st e)) !! k
    = TTLManager.expiry_map_ (KVStore.ttl_mgr_ st) !! k.
Proof.
  intros Hk. unfold KVStore.load_entry.
  destruct (decide (ttl_ms e = 0)); [done|].
  destruct (decide (ttl_ms e > 0)) as [Hpos|]; [|done].
  cbn [KVStore.with_ttl_mgr KVStore.with_cache KVStore.ttl_mgr_ TTLManager.setAbsolute
       TTLManager.expiry_map_].
  apply lookup_insert_ne. intros Heq. by apply Hk.
Qed.

Lemma load_entries_keep_deadline now raw k : ∀ st,
  (∀ e, e ∈ raw → key e = k → ¬ ttl_ms e > 0) →
  TTLManager.expiry_map_ (KVStore.ttl_mgr_ (foldl (KVStore.load_entry now) st raw)) !! k
    = TTLManager.expiry_map_ (KVStore.ttl_mgr_ st) !! k.
Proof.
  induction raw as [|e raw IH]; intros st Hk; [done|]. cbn [foldl].
  rewrite IH.
  - apply load_entry_keeps_deadline. apply Hk. by apply elem_of_cons; left.
  - intros e' He'. apply Hk. by apply elem_of_cons; right.
Qed.

Lemma load_keeps_deadline filename now mem (fs : gmap string (list byte)) st raw k :
  PersistenceEngine.load filename mem fs = Ok raw →
  (∀ e, e ∈ raw → key e = k → ¬ ttl_ms e > 0) →
  TTLManager.expiry_map_ (KVStore.ttl_mgr_ (KVStore.load filename now mem fs st).2) !! k
    = TTLManager.expiry_map_ (KVStore.ttl_mgr_ st) !! k.
Proof.
  intros Hraw Hk. unfold KVStore.load. rewrite Hraw. cbn [snd].
  by rewrite load_entries_keep_deadline.
Qed.

(** C4 at a store with deadlines: load, one second in, succeeds and leaves
    "x" as the only resident key, but the deadlines of "x" and "y" recorded
    before the call are still recorded, though no snapshot record carries a
    TTL: ttl(x) is 4, not -1, and the wake-up at the old deadline expires
    "x". *)
Lemma load_keeps_old_deadlines :
  let st' := (KVStore.load "snapshot.bin" 1000000000 roomy x_without_ttl_fs stale_store).2 in
  (KVStore.load "snapshot.bin" 1000000000 roomy x_without_ttl_fs stale_store).1 = Ok () ∧
  KVStore.keys st' = ["x"] ∧
  TTLManager.expiry_map_ (KVStore.ttl_mgr_ st') !! "x" = Some 5000000000 ∧
  TTLManager.expiry_map_ (KVStore.ttl_mgr_ st') !! "y" = Some 7000000000 ∧
  KVStore.ttl "x" 1000000000 st' = 4 ∧
  KVStore.keys (KVStore.sweep 5000000000 st') = [] ∧
  KVStore.expirations_ (KVStore.sweep 5000000000 st') = 1.
Proof. by vm_compute. Qed.

(** *** The loop of [KVStore::load] on records with fresh keys *)

Lemma load_entry_fresh now st e :
  store_wf st →
  ttl_ms e ≠ 0 →
  key e ∉ keys_of (LRUCache.list_ (KVStore.cache_ st)) →
  (length (LRUCache.list_ (KVStore.cache_ st)) < LRUCache.capacity_ (KVStore.cache_ st))%nat →
  let st1 := KVStore.load_entry now st e in
  store_wf st1 ∧
  LRUCache.list_ (KVStore.cache_ st1) = entry_node e :: LRUCache.list_ (KVStore.cache_ st) ∧
  LRUCache.capacity_ (KVStore.cache_ st1) = LRUCache.capacity_ (KVStore.cache_ st) ∧
  TTLManager.expiry_map_ (KVStore.ttl_mgr_ st1) =
    if decide (ttl_ms e > 0)
    then <[key e := wrap_int64 (now + wrap_int64 (ttl_ms e * ticks_per_millisecond))]>
           (TTLManager.expiry_map_ (KVStore.ttl_mgr_ st))
    else TTLManager.expiry_map_ (KVStore.ttl_mgr_ st).
Proof.
  intros Hwf Hnz Hk Hlen st1. subst st1. unfold KVStore.load_entry.
  rewrite decide_False by done.
  destruct (set_cases (key e) (value e) _ Hwf) as [Hout Hwf'].
  assert (LRUCache.list_ (LRUCache.set (key e) (value e) (KVStore.cache_ st)).2
            = entry_node e :: LRUCache.list_ (KVStore.cache_ st) ∧
          LRUCache.capacity_ (LRUCache.set (key e) (value e) (KVStore.cache_ st)).2
            = LRUCache.capacity_ (KVStore.cache_ st)) as [Hl Hc].
  { destruct Hout as [l1 v0 l2 m Hl Hl1| |l0 k' v' m _ Hfull _]; [|done|lia].
    exfalso. apply Hk. rewrite Hl, keys_of_app, keys_of_cons. set_solver. }
  by destruct (decide (ttl_ms e > 0)).
Qed.

Lemma load_entries_fresh now es : ∀ st,
  store_wf st →
  Forall (λ e, ttl_ms e ≠ 0) es →
  NoDup (key <$> es) →
  (∀ e, e ∈ es → key e ∉ keys_of (LRUCache.list_ (KVStore.cache_ st))) →
  (length (LRUCache.list_ (KVStore.cache_ st)) + length es
     <= LRUCache.capacity_ (KVStore.cache_ st))%nat →
  let st' := foldl (KVStore.load_entry now) st es in
  store_wf st' ∧
  LRUCache.list_ (KVStore.cache_ st')
    = reverse (entry_node <$> es) ++ LRUCache.list_ (KVStore.cache_ st) ∧
  (∀ e, e ∈ es → ttl_ms e > 0 →
     TTLManager.expiry_map_ (KVStore.ttl_mgr_ st') !! key e
       = Some (wrap_int64 (now + wrap_int64 (ttl_ms e * ticks_per_millisecond)))) ∧
  (∀ k, (∀ e, e ∈ es → key e = k → ¬ ttl_ms e > 0) →
     TTLManager.expiry_map_ (KVStore.ttl_mgr_ st') !! k
       = TTLManager.expiry_map_ (KVStore.ttl_mgr_ st) !! k).
Proof.
  induction es as [|e es IH]; intros st Hwf Hnz Hnd Hfresh Hlen; cbn [foldl].
  - split_and!; [done|done| |done]. intros e He. by apply elem_of_nil in He.
  - apply Forall_cons in Hnz as [Hnz_e Hnz].
    rewrite fmap_cons in Hnd. apply NoDup_cons in Hnd as [He_es Hnd].
    simpl in Hlen.
    destruct (load_entry_fresh now st e) as (Hwf1 & Hl1 & Hc1 & Hm1);
      [done|done|by apply Hfresh, elem_of_cons; left|lia|].
    assert (∀ e', e' ∈ es → key e' ≠ key e) as Hother.
    { intros e' He' Heq. apply He_es. rewrite <- Heq. by apply list_elem_of_fmap_2. }
    destruct (IH (KVStore.load_entry now st e)) as (Hwf' & Hl' & Hpos & Hkeep);
      [done|done|done| |rewrite Hl1, Hc1; simpl; lia|].
    { intros e' He'. rewrite Hl1. unfold entry_node. rewrite keys_of_cons.
      apply not_elem_of_cons. split; [by apply Hother|].
      by apply Hfresh, elem_of_cons; right. }
    split_and!.
    + done.
    + rewrite Hl', Hl1, fmap_cons, reverse_cons, <- app_assoc. done.
    + intros e0 He0 Hpos0. apply elem_of_cons in He0 as [->|He0]; [|by apply Hpos].
      rewrite Hkeep.
      * rewrite Hm1, decide_True by done. apply lookup_insert_eq.
      * intros e' He' Heq. by apply Hother in He'.
    + intros k Hk. rewrite Hkeep.
      * rewrite Hm1. destruct (decide (ttl_ms e > 0)) as [Hpos_e|]; [|done].
        apply lookup_insert_ne. intros Heq.
        by apply (Hk e); [apply elem_of_cons; left| |].
      * intros e' He'. apply Hk. by apply elem_of_cons; right.
Qed.

(** *** The records [KVStore::save] writes *)

Lemma snapshot_entries_nodes clock st :
  entry_node <$> KVStore.snapshot_entries clock st
    = filter (λ kv, not_expired clock st kv.1) (LRUCache.list_ (KVStore.cache_ st)).
Proof.
  unfold KVStore.snapshot_entries, LRUCache.entries.
  induction (LRUCache.list_ (KVStore.cache_ st)) as [|[k v] l IH]; [done|].
  cbn [omap list_omap fst snd]. rewrite filter_cons. cbn [fst].
  destruct (decide (TTLManager.ttl_ms k (clock k) (KVStore.ttl_mgr_ st) = 0)) as [Hz|Hnz].
  - rewrite decide_False by (unfold not_expired; tauto). apply IH.
  - rewrite decide_True by done. rewrite fmap_cons, IH. done.
Qed.

Lemma snapshot_entries_elem clock st e :
  e ∈ KVStore.snapshot_entries clock st →
  entry_node e ∈ LRUCache.list_ (KVStore.cache_ st) ∧
  ttl_ms e = TTLManager.ttl_ms (key e) (clock (key e)) (KVStore.ttl_mgr_ st) ∧
  ttl_ms e ≠ 0.
Proof.
  unfold KVStore.snapshot_entries, LRUCache.entries. rewrite list_elem_of_omap.
  intros ([k v] & Hin & Hf). cbn [fst snd] in Hf.
  destruct (decide _) as [|Hnz]; [done|]. injection Hf as <-. by simpl.
Qed.

Lemma keys_of_filter (P : string → Prop) `{!∀ k, Decision (P k)} l :
  keys_of (filter (λ kv, P kv.1) l) = filter P (keys_of l).
Proof.
  unfold keys_of. induction l as [|[k v] l IH]; [done|].
  rewrite fmap_cons, !filter_cons. cbn [fst]. destruct (decide (P k)).
  - by rewrite fmap_cons, IH.
  - done.
Qed.

Lemma snapshot_entries_keys clock st :
  key <$> KVStore.snapshot_entries clock st
    = filter (not_expired clock st) (keys_of (LRUCache.list_ (KVStore.cache_ st))).
Proof.
  rewrite <- (keys_of_filter (not_expired clock st)), <- snapshot_entries_nodes.
  unfold keys_of. rewrite <- list_fmap_compose. done.
Qed.

(** *** Writing to a stream *)

Lemma write_app a b s :
  ofstream.write (a ++ b) s = ofstream.write b (ofstream.write a s).
Proof.
  unfold ofstream.write. destruct (ofstream.fail s) eqn:Hs; [by rewrite Hs|].
  rewrite length_app.
  destruct (decide (length a <= ofstream.space s)%nat) as [Ha|Ha].
  - cbn [ofstream.fail ofstream.failbit ofstream.badbit ofstream.content
         ofstream.space orb].
    destruct (decide (length b <= ofstream.space s - length a)%nat) as [Hb|Hb].
    + rewrite decide_True by lia. rewrite app_assoc. f_equal. lia.
    + rewrite decide_False by lia. rewrite take_app_ge by lia.
      by rewrite app_assoc.
  - rewrite decide_False by lia.
    cbn [ofstream.fail ofstream.failbit ofstream.badbit orb].
    by rewrite take_app_le by lia.
Qed.

Lemma write_entries es : ∀ s,
  foldl (λ ofs e,
           let ofs := ofstream.write (PersistenceEngine.writeString (key e)) ofs in
           let ofs := ofstream.write (PersistenceEngine.writeString (value e)) ofs in
           ofstream.write (PersistenceEngine.write64 (ttl_ms e)) ofs) s es
  = ofstream.write (concat (PersistenceEngine.write_entry <$> es)) s.
Proof.
  induction es as [|e es IH]; intros s.
  - cbn [foldl fmap list_fmap concat]. destruct s as [c [] [] n]; try done.
    unfold ofstream.write.
    cbn [ofstream.fail ofstream.failbit ofstream.badbit orb ofstream.space
         ofstream.content length].
    rewrite decide_True by lia. rewrite app_nil_r. f_equal. lia.
  - cbn [foldl]. rewrite IH. rewrite fmap_cons. cbn [concat].
    unfold PersistenceEngine.write_entry at 2. by rewrite !write_app.
Qed.

(** What [PersistenceEngine::save] does, case by case: it throws when the
    file cannot be opened, leaving the file system as it was; it throws when
    the device does not take the whole snapshot, leaving what was written;
    otherwise the file holds the snapshot. *)
Lemma save_outcome filename es dev (fs : gmap string (list byte)) :
  PersistenceEngine.save filename es dev fs =
    if ofstream.can_open dev filename then
      if decide (length (PersistenceEngine.image es) <= ofstream.room dev)%nat
      then (Ok (), <[filename := PersistenceEngine.image es]> fs)
      else (Throw (runtime_error ("Write error on file: " +:+ filename)),
            <[filename := take (ofstream.room dev) (PersistenceEngine.image es)]> fs)
    else (Throw (runtime_error ("Cannot open file for writing: " +:+ filename)), fs).
Proof.
  unfold PersistenceEngine.save, ofstream.open.
  destruct (ofstream.can_open dev filename); [|done].
  cbn [ofstream.fail ofstream.failbit ofstream.badbit orb].
  rewrite write_entries, <- !write_app, <- ?app_assoc.
  fold (PersistenceEngine.image es). unfold ofstream.write.
  cbn [ofstream.fail ofstream.failbit ofstream.badbit orb ofstream.space
       ofstream.content].
  by destruct (decide _).
Qed.

Lemma save_Ok filename es dev (fs fs' : gmap string (list byte)) :
  PersistenceEngine.save filename es dev fs = (Ok (), fs') →
  fs' = <[filename := PersistenceEngine.image es]> fs.
Proof.
  rewrite save_outcome. destruct (ofstream.can_open dev filename); [|done].
  destruct (decide _); [|done]. by intros [= <-].
Qed.

(** *** Save, then load into a fresh store *)

Lemma ttl_ms_cases k now m :
  match TTLManager.expiry_map_ m !! k with
  | None => TTLManager.ttl_ms k now m = -1
  | Some d =>
      0 <= TTLManager.ttl_ms k now m ∧
      TTLManager.ttl_ms k now m * ticks_per_millisecond
        <= Z.max 0 (wrap_int64 (d - now)) ∧
      (TTLManager.ttl_ms k now m ≠ 0 →
         TTLManager.ttl_ms k now m = Z.quot (wrap_int64 (d - now)) ticks_per_millisecond ∧
         ticks_per_millisecond <= wrap_int64 (d - now))
  end.
Proof.
  unfold TTLManager.ttl_ms, TTLManager.duration_cast, ticks_per_millisecond.
  destruct (_ !! k) as [d|]; [|done]. generalize (wrap_int64 (d - now)). intros w.
  destruct (decide (_ > 0)) as [Hpos|Hnpos]; [|lia].
  assert (0 <= w) as Hd.
  { destruct (decide (0 <= w)); [done|].
    pose proof (Z.quot_opp_l (- w) 1000000 ltac:(lia)) as Hq.
    replace (- - w) with w in Hq by lia.
    pose proof (Z.quot_pos (- w) 1000000 ltac:(lia) ltac:(lia)). lia. }
  rewrite Z.quot_div_nonneg in * by lia.
  pose proof (Z.div_mod w 1000000 ltac:(lia)).
  pose proof (Z.mod_pos_bound w 1000000 ltac:(lia)). lia.
Qed.

Lemma snapshot_entries_portable clock st :
  snapshot_portable clock st → Forall entry_portable (KVStore.snapshot_entries clock st).
Proof.
  intros (Hstr & _). apply Forall_forall. intros e He.
  destruct (Hstr _ He) as [Hk Hv].
  apply snapshot_entries_elem in He as (Hnode & Httl & _).
  split_and!; [done|done| |].
  - rewrite Httl.
    pose proof (ttl_ms_cases (key e) (clock (key e)) (KVStore.ttl_mgr_ st)) as Hc.
    destruct (_ !! key e); lia.
  - rewrite Httl.
    pose proof (ttl_ms_cases (key e) (clock (key e)) (KVStore.ttl_mgr_ st)) as Hc.
    destruct (_ !! key e) as [d|] eqn:Hd; [|lia].
    pose proof (wrap_int64_range (d - clock (key e))) as Hw.
    unfold int64, ticks_per_millisecond in *. lia.
Qed.

Lemma save_load_fresh (path : string) (clock : string → Z) (now' : Z)
    (dev : ofstream.device) (mem : vector.allocator)
    (fs fs' : gmap string (list byte)) (st : KVStore.t) (C' : nat) :
  store_wf st → snapshot_portable clock st →
  (0 < C')%nat → (length (KVStore.snapshot_entries clock st) <= C')%nat →
  KVStore.save path clock st dev fs = (Ok (), fs') →
  vector.reserve mem (Z.of_nat (length (KVStore.snapshot_entries clock st))) = Ok () →
  ∃ st0,
    KVStore.new C' = Ok st0 ∧
    (KVStore.load path now' mem fs' st0).1 = Ok () ∧
    let st' := (KVStore.load path now' mem fs' st0).2 in
    store_wf st' ∧
    LRUCache.list_ (KVStore.cache_ st')
      = reverse (filter (λ kv, not_expired clock st kv.1)
                        (LRUCache.list_ (KVStore.cache_ st))) ∧
    (∀ e, e ∈ KVStore.snapshot_entries clock st → ttl_ms e > 0 →
       TTLManager.expiry_map_ (KVStore.ttl_mgr_ st') !! key e
         = Some (wrap_int64 (now' + wrap_int64 (ttl_ms e * ticks_per_millisecond)))) ∧
    (∀ k, (∀ e, e ∈ KVStore.snapshot_entries clock st → key e = k → ¬ ttl_ms e > 0) →
       TTLManager.expiry_map_ (KVStore.ttl_mgr_ st') !! k = None).
Proof.
  intros Hwf Hport HC Hfit Hsave Hmem. unfold KVStore.save in Hsave.
  set (es := KVStore.snapshot_entries clock st) in *.
  set (st0 := KVStore.mk (new_cache C') (TTLManager.mk ∅) 0 0 0 0 0 0).
  apply save_Ok in Hsave. subst fs'. exists st0.
  split.
  { unfold KVStore.new. by rewrite new_ok, bind_Ok by done. }
  assert (PersistenceEngine.load path mem (<[path := PersistenceEngine.image es]> fs)
            = Ok es) as Hload.
  { apply load_image; [by apply snapshot_entries_portable| |done].
    by destruct Hport as (_ & Hcount). }
  unfold KVStore.load. rewrite Hload. cbn [fst snd].
  split; [done|].
  change (KVStore.with_cache (LRUCache.clear (KVStore.cache_ st0)) st0) with st0.
  destruct (load_entries_fresh now' es st0) as (Hwf' & Hl' & Hpos & Hkeep).
  - apply new_cache_wf. lia.
  - apply Forall_forall. intros e He. by apply snapshot_entries_elem in He as (_ & _ & ?).
  - subst es. rewrite snapshot_entries_keys. apply NoDup_filter, (wf_nodup _ Hwf).
  - intros e _. apply not_elem_of_nil.
  - simpl. lia.
  - split_and!; [done| |done|].
    + rewrite Hl'. simpl. rewrite app_nil_r. subst es. by rewrite snapshot_entries_nodes.
    + intros k Hk. by rewrite Hkeep.
Qed.

Lemma filter_all {A} (P : A → Prop) `{!∀ x, Decision (P x)} (l : list A) :
  (∀ x, x ∈ l → P x) → filter P l = l.
Proof.
  induction l as [|x l IH]; intros Hall; [done|].
  rewrite filter_cons, decide_True by (apply Hall, elem_of_cons; by left).
  f_equal. apply IH. intros y Hy. apply Hall, elem_of_cons. by right.
Qed.

Lemma two_key_store_wf : store_wf two_key_store.
Proof. apply set_wf, one_second_store_wf. Qed.

Lemma two_key_store_portable : snapshot_portable (λ _, 0) two_key_store.
Proof.
  assert (KVStore.snapshot_entries (λ _, 0) two_key_store
            = [mkEntry "j" "w" (-1); mkEntry "k" "v" 1000]) as Hes by (by vm_compute).
  unfold snapshot_portable. rewrite Hes. split.
  - intros e He. apply elem_of_cons in He as [->|He].
    + simpl. lia.
    + apply list_elem_of_singleton in He as ->. simpl. lia.
  - simpl. lia.
Qed.

(** C10, amended: when save has written the snapshot (the file could be
    opened and the device took the bytes) and load finds storage for its
    records, then after save and load into a fresh instance whose capacity
    holds the saved records, keys() lists, least recently used first, the
    resident keys that save wrote, that is those whose remaining TTL at save
    time was not 0 ms; when no resident key is at 0 ms this is kn, ..., k1.
    Strings are at most 1 MiB long. *)
Theorem save_load_reverses_order (path : string) (clock : string → Z) (now' : Z)
    (dev : ofstream.device) (mem : vector.allocator)
    (fs fs' : gmap string (list byte)) (st : KVStore.t) (C' : nat) :
  store_wf st → snapshot_portable clock st →
  (0 < C')%nat → (length (KVStore.snapshot_entries clock st) <= C')%nat →
  KVStore.save path clock st dev fs = (Ok (), fs') →
  vector.reserve mem (Z.of_nat (length (KVStore.snapshot_entries clock st))) = Ok () →
  ∃ st0,
    KVStore.new C' = Ok st0 ∧
    (KVStore.load path now' mem fs' st0).1 = Ok () ∧
    KVStore.keys (KVStore.load path now' mem fs' st0).2
      = reverse (filter (not_expired clock st) (KVStore.keys st)) ∧
    ((∀ k, k ∈ KVStore.keys st → not_expired clock st k) →
     KVStore.keys (KVStore.load path now' mem fs' st0).2 = reverse (KVStore.keys st)).
Proof.
  intros Hwf Hport HC Hfit Hsave Hmem.
  destruct (save_load_fresh path clock now' dev mem fs fs' st C' Hwf Hport HC Hfit
              Hsave Hmem) as (st0 & Hnew & Hok & _ & Hl & _).
  exists st0. split_and!; [done|done| |].
  - unfold KVStore.keys, LRUCache.entries. rewrite Hl, fmap_reverse.
    f_equal. apply (keys_of_filter (not_expired clock st)).
  - intros Hall. unfold KVStore.keys, LRUCache.entries in *. rewrite Hl, fmap_reverse.
    f_equal. rewrite filter_all; [done|]. intros [k v] Hkv. apply Hall.
    by apply (list_elem_of_fmap_2 fst) in Hkv.
Qed.

Lemma save_load_reverses_order_witness :
  KVStore.keys two_key_store = ["j"; "k"] ∧
  ∃ st0,
    KVStore.new 2 = Ok st0 ∧
    (KVStore.load "snapshot.bin" 1 roomy
       (KVStore.save "snapshot.bin" (λ _, 0) two_key_store disk ∅).2 st0).1 = Ok () ∧
    KVStore.keys
      (KVStore.load "snapshot.bin" 1 roomy
         (KVStore.save "snapshot.bin" (λ _, 0) two_key_store disk ∅).2 st0).2
      = ["k"; "j"].
Proof.
  split; [by vm_compute|].
  destruct (save_load_reverses_order "snapshot.bin" (λ _, 0) 1 disk roomy ∅
              (KVStore.save "snapshot.bin" (λ _, 0) two_key_store disk ∅).2
              two_key_store 2) as (st0 & Hnew & Hok & Hkeys & _).
  - apply two_key_store_wf.
  - apply two_key_store_portable.
  - lia.
  - vm_compute. lia.
  - by vm_compute.
  - by vm_compute.
  - exists st0. split_and!; [done|done|]. rewrite Hkeys. by vm_compute.
Defined.

(** C10, as stated, fails: the keys are a, b in recency order, and after
    save (at 1.1 s) and load into a fresh instance keys() is a alone, not
    b, a. *)
Lemma save_load_order_counterexample :
  KVStore.keys expired_store = ["a"; "b"] ∧
  match KVStore.save "snapshot.bin" (λ _, 1100000000) expired_store disk ∅,
        KVStore.new 2 with
  | (Ok _, fs'), Ok st0 =>
      (KVStore.load "snapshot.bin" 1100000000 roomy fs' st0).1 = Ok () ∧
      KVStore.keys (KVStore.load "snapshot.bin" 1100000000 roomy fs' st0).2 = ["a"] ∧
      KVStore.keys (KVStore.load "snapshot.bin" 1100000000 roomy fs' st0).2
        ≠ reverse (KVStore.keys expired_store)
  | _, _ => False
  end.
Proof. vm_compute. split_and!; done. Qed.

(** *** Values and remaining time after the round trip *)

Lemma node_unique k v v0 l1 l2 :
  NoDup (keys_of (l1 ++ (k, v0) :: l2)) → (k, v) ∈ l1 ++ (k, v0) :: l2 → v = v0.
Proof.
  intros Hnd Hin. apply NoDup_keys_split in Hnd as [_ Hk].
  rewrite keys_of_app, not_elem_of_app in Hk. destruct Hk as [Hk1 Hk2].
  apply elem_of_app in Hin as [Hin|Hin].
  - exfalso. apply Hk1. by apply (list_elem_of_fmap_2 fst) in Hin.
  - apply elem_of_cons in Hin as [Heq|Hin]; [congruence|].
    exfalso. apply Hk2. by apply (list_elem_of_fmap_2 fst) in Hin.
Qed.

Lemma get_returns c k v :
  cache_wf c → (LRUCache.get k c).1 = Some v ↔ (k, v) ∈ LRUCache.list_ c.
Proof.
  intros Hwf. destruct (decide (k ∈ keys_of (LRUCache.list_ c))) as [Hin|Hnin].
  - apply keys_of_split in Hin as (l1 & v0 & l2 & Hl & Hl1).
    rewrite (get_hit k v0 l1 l2) by done. cbn [fst].
    pose proof (wf_nodup c Hwf) as Hnd. rewrite Hl in Hnd |- *. split.
    + intros [= ->]. apply elem_of_app. right. by apply elem_of_cons; left.
    + intros Hin. by rewrite (node_unique k v v0 l1 l2).
  - rewrite get_miss by done. split; [done|]. intros Hin. exfalso. apply Hnin.
    by apply (list_elem_of_fmap_2 fst) in Hin.
Qed.

Lemma store_get_value k st : (KVStore.get k st).1 = (LRUCache.get k (KVStore.cache_ st)).1.
Proof. unfold KVStore.get. by destruct (LRUCache.get k (KVStore.cache_ st)) as [[v|] c]. Qed.

Lemma quot_clip_mono a b u :
  0 < u → a <= b →
  0 <= (if decide (Z.quot a u > 0) then Z.quot a u else 0)
    <= (if decide (Z.quot b u > 0) then Z.quot b u else 0).
Proof.
  intros Hu Hab. pose proof (Z.quot_le_mono a b u Hu Hab).
  do 2 destruct (decide _); lia.
Qed.

Lemma ttl_no_greater k t t' m m' d d' :
  TTLManager.expiry_map_ m !! k = Some d →
  TTLManager.expiry_map_ m' !! k = Some d' →
  wrap_int64 (d' - t') <= wrap_int64 (d - t) →
  0 <= TTLManager.ttl k t' m' <= TTLManager.ttl k t m ∧
  0 <= TTLManager.ttl_ms k t' m' <= TTLManager.ttl_ms k t m.
Proof.
  intros Hd Hd' Hle. unfold TTLManager.ttl, TTLManager.ttl_ms, TTLManager.duration_cast.
  rewrite Hd, Hd'. split; apply quot_clip_mono; done.
Qed.

Lemma snapshot_entries_resident clock st k :
  k ∈ keys_of (LRUCache.list_ (KVStore.cache_ st)) → not_expired clock st k →
  ∃ e, e ∈ KVStore.snapshot_entries clock st ∧ key e = k ∧
       ttl_ms e = TTLManager.ttl_ms k (clock k) (KVStore.ttl_mgr_ st).
Proof.
  intros Hk Hne. apply keys_of_split in Hk as (l1 & v & l2 & Hl & _).
  exists (mkEntry k v (TTLManager.ttl_ms k (clock k) (KVStore.ttl_mgr_ st))).
  split; [|done]. unfold KVStore.snapshot_entries, LRUCache.entries.
  apply list_elem_of_omap. exists (k, v). split.
  - rewrite Hl. apply elem_of_app. right. by apply elem_of_cons; left.
  - cbn [fst snd]. by rewrite decide_False.
Qed.

(** C2, amended: for a well-formed store of which save collects strings of
    at most 1 MiB, when save has written the snapshot (the file could be
    opened and the device took the bytes) and load finds storage for its
    records, load into a fresh instance of the same capacity succeeds and
    gives a store whose resident keys are the resident keys of the saved
    store that were not at 0 ms of remaining TTL when save read the clock
    for them (save skips the others), each with the value it had.  A key without TTL has
    none after the load.  A key with a TTL has one that, at any reading t
    from the load on, is no greater than the TTL reported at save time, in
    seconds and in milliseconds, provided the difference between the
    deadline of the load (its reading plus the remaining time recorded) and
    t fits the 64-bit tick count. *)
Theorem save_load_roundtrip (path : string) (clock : string → Z) (now' : Z)
    (dev : ofstream.device) (mem : vector.allocator)
    (fs fs' : gmap string (list byte)) (st : KVStore.t) :
  store_wf st → snapshot_portable clock st →
  KVStore.save path clock st dev fs = (Ok (), fs') →
  vector.reserve mem (Z.of_nat (length (KVStore.snapshot_entries clock st))) = Ok () →
  ∃ st0,
    KVStore.new (KVStore.capacity st) = Ok st0 ∧
    (KVStore.load path now' mem fs' st0).1 = Ok () ∧
    let st' := (KVStore.load path now' mem fs' st0).2 in
    (∀ k, k ∈ KVStore.keys st' ↔ k ∈ KVStore.keys st ∧ not_expired clock st k) ∧
    (∀ k, not_expired clock st k → (KVStore.get k st').1 = (KVStore.get k st).1) ∧
    (∀ k t, k ∈ KVStore.keys st' → now' <= t →
       let ms := TTLManager.ttl_ms k (clock k) (KVStore.ttl_mgr_ st) in
       (KVStore.ttl k (clock k) st = -1 →
          KVStore.ttl k t st' = -1 ∧
          TTLManager.ttl_ms k t (KVStore.ttl_mgr_ st') = -1) ∧
       (KVStore.ttl k (clock k) st ≠ -1 →
        int64 (now' + ms * ticks_per_millisecond - t) →
          0 <= KVStore.ttl k t st' <= KVStore.ttl k (clock k) st ∧
          0 <= TTLManager.ttl_ms k t (KVStore.ttl_mgr_ st') <= ms)).
Proof.
  intros Hwf Hport Hsave Hmem.
  assert (length (KVStore.snapshot_entries clock st) <= KVStore.capacity st)%nat as Hfit.
  { rewrite <- (length_fmap entry_node), snapshot_entries_nodes.
    etrans; [apply length_filter|]. apply (wf_bound _ Hwf). }
  destruct (save_load_fresh path clock now' dev mem fs fs' st (KVStore.capacity st)
              Hwf Hport (wf_capacity _ Hwf) Hfit Hsave Hmem)
    as (st0 & Hnew & Hok & Hwf' & Hl & Hpos & Hnone).
  exists st0. split_and!; [done|done|]. cbn zeta.
  set (st' := (KVStore.load path now' mem fs' st0).2) in *.
  assert (∀ k v, (k, v) ∈ LRUCache.list_ (KVStore.cache_ st')
                 ↔ (k, v) ∈ LRUCache.list_ (KVStore.cache_ st) ∧ not_expired clock st k)
    as Hnodes.
  { intros k v. rewrite Hl, elem_of_reverse, list_elem_of_filter. cbn [fst]. tauto. }
  assert (∀ k, k ∈ KVStore.keys st' ↔ k ∈ KVStore.keys st ∧ not_expired clock st k)
    as Hkeys.
  { intros k. unfold KVStore.keys, LRUCache.entries.
    fold (keys_of (LRUCache.list_ (KVStore.cache_ st'))).
    fold (keys_of (LRUCache.list_ (KVStore.cache_ st))).
    rewrite !keys_of_elem. split.
    - intros [v Hv]. apply Hnodes in Hv as [Hv Hne]. split; [by exists v|done].
    - intros [[v Hv] Hne]. exists v. by apply Hnodes. }
  split_and!; [done| |].
  - intros k Hne. rewrite !store_get_value. apply option_eq. intros v.
    rewrite !get_returns by done. rewrite Hnodes. tauto.
  - intros k t Hk' Ht. apply Hkeys in Hk' as Hk. destruct Hk as [Hk Hlive].
    assert (LRUCache.contains k (KVStore.cache_ st) = true) as Hres
      by (by apply contains_resident).
    assert (LRUCache.contains k (KVStore.cache_ st') = true) as Hres'
      by (by apply contains_resident).
    destruct (snapshot_entries_resident clock st k Hk Hlive) as (e & He & Hke & Hte).
    unfold KVStore.ttl. rewrite Hres, Hres'. cbn [negb].
    pose proof (ttl_ms_cases k (clock k) (KVStore.ttl_mgr_ st)) as Hms.
    destruct (TTLManager.expiry_map_ (KVStore.ttl_mgr_ st) !! k) as [d|] eqn:Hd.
    + destruct Hms as (Hms0 & Hmsw & Hms). specialize (Hms Hlive) as [Hq Hge].
      split.
      { unfold TTLManager.ttl. rewrite Hd. intros Hm1. exfalso. revert Hm1.
        by destruct (decide _); lia. }
      intros _ Hdiff.
      assert (TTLManager.expiry_map_ (KVStore.ttl_mgr_ st') !! k
                = Some (wrap_int64
                          (now' + TTLManager.ttl_ms k (clock k) (KVStore.ttl_mgr_ st)
                                  * ticks_per_millisecond))) as Hd'.
      { rewrite <- Hte, <- Hke. rewrite Hpos.
        - by rewrite wrap_int64_add_r.
        - done.
        - rewrite Hte. unfold not_expired in Hlive. lia. }
      assert (wrap_int64
                (wrap_int64 (now' + TTLManager.ttl_ms k (clock k) (KVStore.ttl_mgr_ st)
                                    * ticks_per_millisecond) - t)
              <= wrap_int64 (d - clock k)) as Hle.
      { rewrite wrap_int64_sub_l, wrap_int64_id by done.
        unfold ticks_per_millisecond in *. lia. }
      destruct (ttl_no_greater k (clock k) t _ _ d _ Hd Hd' Hle) as [Hs Hm].
      split; [lia|done].
    + assert (TTLManager.expiry_map_ (KVStore.ttl_mgr_ st') !! k = None) as Hd'.
      { apply Hnone. intros e' He' Hke'.
        apply snapshot_entries_elem in He' as (_ & Hte' & _).
        rewrite Hte', Hke', Hms. lia. }
      unfold TTLManager.ttl, TTLManager.ttl_ms. rewrite Hd, Hd'. split; [done|].
      intros Hm1. by exfalso.
Qed.

Lemma save_load_roundtrip_witness :
  ∃ st0,
    KVStore.new (KVStore.capacity two_key_store) = Ok st0 ∧
    (KVStore.load "snapshot.bin" 1 roomy
       (KVStore.save "snapshot.bin" (λ _, 0) two_key_store disk ∅).2 st0).1 = Ok () ∧
    let st' :=
      (KVStore.load "snapshot.bin" 1 roomy
         (KVStore.save "snapshot.bin" (λ _, 0) two_key_store disk ∅).2 st0).2 in
    (∀ k, k ∈ KVStore.keys st'
          ↔ k ∈ KVStore.keys two_key_store ∧ not_expired (λ _, 0) two_key_store k) ∧
    (∀ k, not_expired (λ _, 0) two_key_store k →
          (KVStore.get k st').1 = (KVStore.get k two_key_store).1) ∧
    (∀ k t, k ∈ KVStore.keys st' → 1 <= t →
       let ms := TTLManager.ttl_ms k 0 (KVStore.ttl_mgr_ two_key_store) in
       (KVStore.ttl k 0 two_key_store = -1 →
          KVStore.ttl k t st' = -1 ∧
          TTLManager.ttl_ms k t (KVStore.ttl_mgr_ st') = -1) ∧
       (KVStore.ttl k 0 two_key_store ≠ -1 →
        int64 (1 + ms * ticks_per_millisecond - t) →
          0 <= KVStore.ttl k t st' <= KVStore.ttl k 0 two_key_store ∧
          0 <= TTLManager.ttl_ms k t (KVStore.ttl_mgr_ st') <= ms)).
Proof.
  apply (save_load_roundtrip "snapshot.bin" (λ _, 0) 1 disk roomy ∅
           (KVStore.save "snapshot.bin" (λ _, 0) two_key_store disk ∅).2
           two_key_store).
  - apply two_key_store_wf.
  - apply two_key_store_portable.
  - by vm_compute.
  - by vm_compute.
Defined.

(** C2, as stated, fails: "b" is resident in the saved store with the value
    2, and after save (at 1.1 s) and load into a fresh instance of the same
    capacity "b" is not resident and get(b) finds nothing. *)
Lemma save_load_roundtrip_counterexample :
  "b" ∈ KVStore.keys expired_store ∧
  (KVStore.get "b" expired_store).1 = Some "2" ∧
  match KVStore.save "snapshot.bin" (λ _, 1100000000) expired_store disk ∅,
        KVStore.new (KVStore.capacity expired_store) with
  | (Ok _, fs'), Ok st0 =>
      (KVStore.load "snapshot.bin" 1100000001 roomy fs' st0).1 = Ok () ∧
      ("b" ∉ KVStore.keys (KVStore.load "snapshot.bin" 1100000001 roomy fs' st0).2) ∧
      (KVStore.get "b" (KVStore.load "snapshot.bin" 1100000001 roomy fs' st0).2).1 = None
  | _, _ => False
  end.
Proof.
  vm_compute. split_and!; try done.
  - apply elem_of_cons. right. apply elem_of_cons. by left.
  - intros H. apply list_elem_of_singleton in H. done.
Qed.

(** * Further properties *)

(** ** The cache (lru.h) *)

Lemma filter_out_key (k : string) (ks1 ks2 : list string) :
  k ∉ ks1 ++ ks2 → filter (λ x, x ≠ k) (ks1 ++ k :: ks2) = ks1 ++ ks2.
Proof.
  intros Hk. apply not_elem_of_app in Hk as [Hk1 Hk2].
  rewrite filter_app, filter_cons, decide_False by tauto.
  rewrite !filter_all; [done| |]; intros x Hx ->; done.
Qed.

Lemma node_elem_other (k k' v v0 : string) (x : string) l1 l2 :
  k' ≠ k →
  (k', x) ∈ (k, v) :: l1 ++ l2 ↔ (k', x) ∈ l1 ++ (k, v0) :: l2.
Proof.
  intros Hne. rewrite elem_of_cons, !elem_of_app, elem_of_cons.
  split; intros H; destruct_or!; try tauto; congruence.
Qed.

Lemma get_ext c c' k :
  cache_wf c → cache_wf c' →
  (∀ v, (k, v) ∈ LRUCache.list_ c ↔ (k, v) ∈ LRUCache.list_ c') →
  (LRUCache.get k c).1 = (LRUCache.get k c').1.
Proof.
  intros Hwf Hwf' Hiff. apply option_eq. intros v.
  by rewrite !get_returns, Hiff by done.
Qed.

Lemma resident_node c k :
  k ∈ keys_of (LRUCache.list_ c) ↔ ∃ v, (k, v) ∈ LRUCache.list_ c.
Proof.
  unfold keys_of. rewrite list_elem_of_fmap. split.
  - intros ([k' v] & -> & Hin). by exists v.
  - intros [v Hin]. by exists (k, v).
Qed.

(** X1: from the constructed cache, over every sequence of get/set/del
    operations, the index and the list agree: the keys of entries() are
    pairwise distinct, contains(k) holds exactly for them, size() is their
    number, and the capacity is the one the cache was built with. *)
Theorem cache_index_agrees (C : nat) (ops : list cache_op) :
  (0 < C)%nat →
  let c := (run_ops ops (new_cache C) []).1 in
  NoDup (keys_of (LRUCache.entries c)) ∧
  (∀ k, LRUCache.contains k c = true ↔ k ∈ keys_of (LRUCache.entries c)) ∧
  LRUCache.size c = length (LRUCache.entries c) ∧
  LRUCache.capacity c = C.
Proof.
  intros HC c.
  destruct (run_ops_invariant ops (new_cache C) []) as [Hwf _];
    [by apply new_cache_wf|apply recency_nil|].
  fold c in Hwf. split_and!.
  - apply (wf_nodup _ Hwf).
  - intros k. by apply contains_resident.
  - by apply wf_size.
  - apply capacity_run_ops.
Qed.

Lemma cache_index_agrees_witness :
  let c := (run_ops [OpSet "a" "1"; OpGet "a"; OpDel "b"] (new_cache 3) []).1 in
  NoDup (keys_of (LRUCache.entries c)) ∧
  (∀ k, LRUCache.contains k c = true ↔ k ∈ keys_of (LRUCache.entries c)) ∧
  LRUCache.size c = length (LRUCache.entries c) ∧
  LRUCache.capacity c = 3%nat.
Proof. apply (cache_index_agrees 3 [OpSet "a" "1"; OpGet "a"; OpDel "b"]). lia. Defined.

(** X2: from the constructed cache, over every sequence of operations,
    entries() lists the keys from the latest touched to the earliest
    touched: of two resident keys, the one nearer the front was touched (by
    a set or by a get that hit) more recently. *)
Theorem entries_in_touch_order (C : nat) (ops : list cache_op) (i j : nat)
    (ki kj : string) :
  (0 < C)%nat →
  let c := (run_ops ops (new_cache C) []).1 in
  let log := (run_ops ops (new_cache C) []).2 in
  keys_of (LRUCache.entries c) !! i = Some ki →
  keys_of (LRUCache.entries c) !! j = Some kj →
  (i < j)%nat →
  ki ∈ log ∧ kj ∈ log ∧ (age log ki < age log kj)%nat.
Proof.
  intros HC c log Hi Hj Hij.
  destruct (run_ops_invariant ops (new_cache C) []) as [_ [Hlog Hsorted]];
    [by apply new_cache_wf|apply recency_nil|].
  fold c log in Hlog, Hsorted. unfold LRUCache.entries in *.
  rewrite Forall_forall in Hlog. split_and!.
  - by eapply Hlog, list_elem_of_lookup_2.
  - by eapply Hlog, list_elem_of_lookup_2.
  - rewrite <- (take_drop j (keys_of (LRUCache.list_ c))) in Hsorted.
    apply StronglySorted_app in Hsorted as (Hlt & _ & _). apply Hlt.
    + apply elem_of_take. eauto.
    + apply list_elem_of_lookup. exists 0%nat. rewrite lookup_drop.
      by rewrite Nat.add_0_r.
Qed.

Lemma entries_in_touch_order_witness :
  let c := (run_ops [OpSet "a" "1"; OpSet "b" "2"; OpGet "a"] (new_cache 2) []).1 in
  let log := (run_ops [OpSet "a" "1"; OpSet "b" "2"; OpGet "a"] (new_cache 2) []).2 in
  "a" ∈ log ∧ "b" ∈ log ∧ (age log "a" < age log "b")%nat.
Proof.
  apply (entries_in_touch_order 2 [OpSet "a" "1"; OpSet "b" "2"; OpGet "a"] 0 1 "a" "b");
    [lia|by vm_compute|by vm_compute|lia].
Defined.

(** X3: on a well-formed cache, get(k) after set(k, v) returns v. *)
Theorem set_then_get (k v : string) (c : LRUCache.t) :
  cache_wf c →
  (LRUCache.get k (LRUCache.set k v c).2).1 = Some v.
Proof.
  intros Hwf. destruct (set_cases k v c Hwf) as [Hout Hwf'].
  apply get_returns; [done|].
  destruct Hout; cbn [LRUCache.list_]; by apply elem_of_cons; left.
Qed.

Lemma set_then_get_witness :
  (LRUCache.get "k" (LRUCache.set "k" "v" (new_cache 2)).2).1 = Some "v".
Proof. apply (set_then_get "k" "v" (new_cache 2)). apply new_cache_wf. lia. Defined.

(** X4: on a well-formed cache, set(k, v) changes no other key's value:
    a key k' other than k that is resident afterwards has the value it had;
    and the only resident key that can be gone afterwards is the key that
    set returns, which happens only when k was not resident and the cache
    was full. *)
Theorem set_keeps_other_values (k v k' : string) (c : LRUCache.t) :
  cache_wf c → k' ≠ k →
  let evicted := (LRUCache.set k v c).1 in
  let c' := (LRUCache.set k v c).2 in
  (LRUCache.contains k' c' = true →
     LRUCache.contains k' c = true ∧
     (LRUCache.get k' c').1 = (LRUCache.get k' c).1) ∧
  (LRUCache.contains k' c = true → LRUCache.contains k' c' = false →
     k' = evicted ∧ LRUCache.size c = LRUCache.capacity c ∧
     LRUCache.contains k c = false).
Proof.
  intros Hwf Hne evicted c'. subst evicted c'.
  pose proof (wf_nodup c Hwf) as Hnd. pose proof (wf_size c Hwf) as Hsize.
  destruct (set_cases k v c Hwf) as [Hout Hwf']. revert Hwf'.
  destruct Hout as [l1 v0 l2 m Hl Hl1|m Hk Hlt|l0 kk vv m Hk Hlen Hl]; intros Hwf'.
  - assert (∀ x, (k', x) ∈ (k, v) :: l1 ++ l2 ↔ (k', x) ∈ LRUCache.list_ c) as Hiff.
    { intros x. rewrite Hl. by apply node_elem_other. }
    assert (LRUCache.contains k' (LRUCache.mk (LRUCache.capacity_ c) ((k, v) :: l1 ++ l2) m)
              = true ↔ LRUCache.contains k' c = true) as Hc.
    { rewrite !contains_resident, !resident_node by done. cbn [LRUCache.list_].
      by setoid_rewrite Hiff. }
    split.
    + intros Hin. split; [by apply Hc|]. by apply get_ext.
    + intros Hin Hout. apply Hc in Hin. congruence.
  - assert (∀ x, (k', x) ∈ (k, v) :: LRUCache.list_ c ↔ (k', x) ∈ LRUCache.list_ c) as Hiff.
    { intros x. rewrite elem_of_cons. split; [intros [?|?]; [congruence|done]|tauto]. }
    assert (LRUCache.contains k' (LRUCache.mk (LRUCache.capacity_ c)
              ((k, v) :: LRUCache.list_ c) m) = true ↔ LRUCache.contains k' c = true) as Hc.
    { rewrite !contains_resident, !resident_node by done. cbn [LRUCache.list_].
      by setoid_rewrite Hiff. }
    split.
    + intros Hin. split; [by apply Hc|]. by apply get_ext.
    + intros Hin Hout. apply Hc in Hin. congruence.
  - assert (LRUCache.contains k' (LRUCache.mk (LRUCache.capacity_ c) ((k, v) :: l0) m)
              = true ↔ LRUCache.contains k' c = true ∧ k' ≠ kk) as Hc.
    { rewrite !contains_resident by done. cbn [LRUCache.list_].
      rewrite (resident_after_evict k v c l0 kk vv) by done. tauto. }
    split.
    + intros Hin. apply Hc in Hin as [Hin Hkk]. split; [done|].
      apply get_ext; [done|done|].
      intros x. cbn [LRUCache.list_]. rewrite Hl, elem_of_cons, elem_of_app,
        list_elem_of_singleton.
      split; [intros [?|?]; [congruence|tauto]|]. intros [?|?]; [tauto|congruence].
    + intros Hin Hnot. split_and!.
      * destruct (decide (k' = kk)); [done|].
        assert (LRUCache.contains k' (LRUCache.mk (LRUCache.capacity_ c) ((k, v) :: l0) m)
                  = true) by (by apply Hc).
        congruence.
      * unfold LRUCache.capacity. lia.
      * apply not_true_is_false. by rewrite contains_resident.
Qed.

Lemma set_keeps_other_values_witness :
  let c := (LRUCache.set "a" "1" (new_cache 1)).2 in
  let evicted := (LRUCache.set "b" "2" c).1 in
  let c' := (LRUCache.set "b" "2" c).2 in
  (LRUCache.contains "a" c' = true →
     LRUCache.contains "a" c = true ∧
     (LRUCache.get "a" c').1 = (LRUCache.get "a" c).1) ∧
  (LRUCache.contains "a" c = true → LRUCache.contains "a" c' = false →
     "a" = evicted ∧ LRUCache.size c = LRUCache.capacity c ∧
     LRUCache.contains "b" c = false).
Proof.
  apply (set_keeps_other_values "b" "2" "a" (LRUCache.set "a" "1" (new_cache 1)).2).
  - apply set_cases, new_cache_wf. lia.
  - done.
Defined.

(** X5: on a well-formed cache, del(k) returns whether k was resident;
    afterwards k is not resident, the other keys are listed in the order
    they had, each with the value it had, and the cache is well formed; a
    del of a key that is not resident changes nothing. *)
Theorem del_removes_only_key (k : string) (c : LRUCache.t) :
  cache_wf c →
  let c' := (LRUCache.del k c).2 in
  (LRUCache.del k c).1 = LRUCache.contains k c ∧
  LRUCache.contains k c' = false ∧
  keys_of (LRUCache.entries c') = filter (λ x, x ≠ k) (keys_of (LRUCache.entries c)) ∧
  (∀ k', k' ≠ k → (LRUCache.get k' c').1 = (LRUCache.get k' c).1) ∧
  cache_wf c' ∧
  (LRUCache.contains k c = false → c' = c).
Proof.
  intros Hwf c'. subst c'. pose proof (wf_nodup c Hwf) as Hnd.
  unfold LRUCache.entries.
  destruct (decide (k ∈ keys_of (LRUCache.list_ c))) as [Hin|Hnin].
  - pose proof (proj2 (contains_resident c k Hwf) Hin) as Hc.
    apply keys_of_split in Hin as (l1 & v0 & l2 & Hl & Hl1).
    rewrite (del_hit k v0 l1 l2) by done. cbn [fst snd].
    pose proof (wf_take_out k v0 l1 l2 c Hwf Hl) as Hwf'.
    rewrite Hl in Hnd. destruct (NoDup_keys_split _ _ _ _ Hnd) as [Hnd' Hk].
    split_and!.
    + by rewrite Hc.
    + apply not_true_is_false. by rewrite contains_resident.
    + cbn [LRUCache.list_]. rewrite Hl, !keys_of_app, keys_of_cons.
      rewrite filter_out_key; [done|]. by rewrite <- keys_of_app.
    + intros k' Hne. apply get_ext; [done|done|]. intros x. cbn [LRUCache.list_].
      rewrite Hl, !elem_of_app, elem_of_cons.
      split; [tauto|]. intros [?|[?|?]]; [tauto|congruence|tauto].
    + done.
    + congruence.
  - assert (LRUCache.contains k c = false) as Hc.
    { apply not_true_is_false. by rewrite contains_resident. }
    rewrite del_miss by done. cbn [fst snd]. split_and!; try done.
    rewrite filter_all; [done|]. by intros x Hx ->.
Qed.

Lemma del_removes_only_key_witness :
  let c := (LRUCache.set "b" "2" (LRUCache.set "a" "1" (new_cache 2)).2).2 in
  let c' := (LRUCache.del "a" c).2 in
  (LRUCache.del "a" c).1 = LRUCache.contains "a" c ∧
  LRUCache.contains "a" c' = false ∧
  keys_of (LRUCache.entries c') = filter (λ x, x ≠ "a") (keys_of (LRUCache.entries c)) ∧
  (∀ k', k' ≠ "a" → (LRUCache.get k' c').1 = (LRUCache.get k' c).1) ∧
  cache_wf c' ∧
  (LRUCache.contains "a" c = false → c' = c).
Proof.
  apply (del_removes_only_key "a" (LRUCache.set "b" "2" (LRUCache.set "a" "1" (new_cache 2)).2).2).
  apply set_cases, set_cases, new_cache_wf. lia.
Defined.

(** X6: on a well-formed cache, a get that misses returns nothing and leaves
    the cache as it was; a get that hits returns the value stored under k
    and moves k to the front of entries(), the other keys keeping their
    order; no key is added or removed and no value changes. *)
Theorem get_promotes (k : string) (c : LRUCache.t) :
  cache_wf c →
  let c' := (LRUCache.get k c).2 in
  (LRUCache.contains k c = false → LRUCache.get k c = (None, c)) ∧
  (LRUCache.contains k c = true →
     (∃ v, (LRUCache.get k c).1 = Some v ∧ (k, v) ∈ LRUCache.entries c) ∧
     keys_of (LRUCache.entries c')
       = k :: filter (λ x, x ≠ k) (keys_of (LRUCache.entries c))) ∧
  (∀ k' v', (k', v') ∈ LRUCache.entries c' ↔ (k', v') ∈ LRUCache.entries c) ∧
  cache_wf c'.
Proof.
  intros Hwf c'. subst c'. pose proof (wf_nodup c Hwf) as Hnd.
  unfold LRUCache.entries.
  destruct (decide (k ∈ keys_of (LRUCache.list_ c))) as [Hin|Hnin].
  - pose proof (proj2 (contains_resident c k Hwf) Hin) as Hc.
    apply keys_of_split in Hin as (l1 & v0 & l2 & Hl & Hl1).
    rewrite (get_hit k v0 l1 l2) by done. cbn [fst snd LRUCache.list_].
    rewrite Hl in Hnd. destruct (NoDup_keys_split _ _ _ _ Hnd) as [Hnd' Hk].
    split_and!.
    + congruence.
    + intros _. split.
      * exists v0. split; [done|]. rewrite Hl. apply elem_of_app. right.
        by apply elem_of_cons; left.
      * rewrite Hl, keys_of_cons, !keys_of_app, keys_of_cons.
        rewrite filter_out_key; [done|]. by rewrite <- keys_of_app.
    + intros k' v'. rewrite Hl, elem_of_cons, !elem_of_app, elem_of_cons. tauto.
    + by eapply wf_to_front.
  - assert (LRUCache.contains k c = false) as Hc.
    { apply not_true_is_false. by rewrite contains_resident. }
    rewrite get_miss by done. cbn [fst snd]. split_and!; try done. congruence.
Qed.

Lemma get_promotes_witness :
  let c := (LRUCache.set "b" "2" (LRUCache.set "a" "1" (new_cache 2)).2).2 in
  let c' := (LRUCache.get "a" c).2 in
  (LRUCache.contains "a" c = false → LRUCache.get "a" c = (None, c)) ∧
  (LRUCache.contains "a" c = true →
     (∃ v, (LRUCache.get "a" c).1 = Some v ∧ ("a", v) ∈ LRUCache.entries c) ∧
     keys_of (LRUCache.entries c')
       = "a" :: filter (λ x, x ≠ "a") (keys_of (LRUCache.entries c))) ∧
  (∀ k' v', (k', v') ∈ LRUCache.entries c' ↔ (k', v') ∈ LRUCache.entries c) ∧
  cache_wf c'.
Proof.
  apply (get_promotes "a" (LRUCache.set "b" "2" (LRUCache.set "a" "1" (new_cache 2)).2).2).
  apply set_cases, set_cases, new_cache_wf. lia.
Defined.

(** X7: on a well-formed cache, a set of a key that is resident, or a set
    into a cache that is not full, evicts nothing: it returns the empty
    string, every resident key stays resident, and the size stays
    (resident key) or grows by one (new key). *)
Theorem set_without_eviction (k v : string) (c : LRUCache.t) :
  cache_wf c →
  LRUCache.contains k c = true ∨ (LRUCache.size c < LRUCache.capacity c)%nat →
  let c' := (LRUCache.set k v c).2 in
  (LRUCache.set k v c).1 = "" ∧
  (∀ k', LRUCache.contains k' c = true → LRUCache.contains k' c' = true) ∧
  LRUCache.size c' =
    (if LRUCache.contains k c then LRUCache.size c else S (LRUCache.size c)).
Proof.
  intros Hwf Hor c'. subst c'. pose proof (wf_nodup c Hwf) as Hnd.
  pose proof (wf_size c Hwf) as Hsize.
  destruct (set_cases k v c Hwf) as [Hout Hwf']. revert Hwf'.
  destruct Hout as [l1 v0 l2 m Hl Hl1|m Hk Hlt|l0 kk vv m Hk Hlen Hl]; intros Hwf'.
  - assert (LRUCache.contains k c = true) as Hc.
    { apply contains_resident; [done|]. rewrite Hl, keys_of_app, keys_of_cons.
      apply elem_of_app. right. by apply elem_of_cons; left. }
    rewrite Hc. split_and!; [done| |].
    + intros k'. rewrite !contains_resident by done. cbn [LRUCache.list_].
      rewrite Hl, keys_of_cons, !keys_of_app, keys_of_cons, elem_of_cons, !elem_of_app,
        elem_of_cons. tauto.
    + rewrite Hsize, wf_size by done. cbn [LRUCache.list_]. rewrite Hl.
      cbn [length]. rewrite !length_app. cbn [length]. lia.
  - assert (LRUCache.contains k c = false) as Hc.
    { apply not_true_is_false. by rewrite contains_resident. }
    rewrite Hc. split_and!; [done| |].
    + intros k'. rewrite !contains_resident by done. cbn [LRUCache.list_].
      rewrite keys_of_cons, elem_of_cons. tauto.
    + rewrite Hsize, wf_size by done. done.
  - exfalso. destruct Hor as [Hc|Hlt].
    + by apply contains_resident in Hc.
    + unfold LRUCache.capacity in Hlt. lia.
Qed.

Lemma set_without_eviction_witness :
  let c := (LRUCache.set "a" "1" (new_cache 2)).2 in
  let c' := (LRUCache.set "a" "2" c).2 in
  (LRUCache.set "a" "2" c).1 = "" ∧
  (∀ k', LRUCache.contains k' c = true → LRUCache.contains k' c' = true) ∧
  LRUCache.size c' =
    (if LRUCache.contains "a" c then LRUCache.size c else S (LRUCache.size c)).
Proof.
  apply (set_without_eviction "a" "2" (LRUCache.set "a" "1" (new_cache 2)).2).
  - apply set_cases, new_cache_wf. lia.
  - left. by vm_compute.
Defined.

(** ** The deadline map (ttl_manager.h) *)

Lemma expired_keys_elem now m k :
  k ∈ TTLManager.expired_keys now m ↔
  ∃ d, TTLManager.expiry_map_ m !! k = Some d ∧ now >= d.
Proof.
  unfold TTLManager.expired_keys. rewrite list_elem_of_fmap. split.
  - intros ([k' d] & -> & Hin). apply list_elem_of_filter in Hin as [Hdue Hin].
    apply elem_of_map_to_list in Hin. by exists d.
  - intros (d & Hd & Hdue). exists (k, d). split; [done|].
    apply list_elem_of_filter. split; [done|]. by apply elem_of_map_to_list.
Qed.

Lemma NoDup_fst_filter {A B} (P : A * B → Prop) `{!∀ x, Decision (P x)}
    (l : list (A * B)) :
  NoDup (l.*1) → NoDup ((filter P l).*1).
Proof.
  induction l as [|x l IH]; [done|]. rewrite fmap_cons, NoDup_cons.
  intros [Hx Hnd]. rewrite filter_cons. destruct (decide (P x)); [|by apply IH].
  rewrite fmap_cons. apply NoDup_cons. split; [|by apply IH].
  intros Hin. apply Hx. apply list_elem_of_fmap in Hin as (y & Hy & Hin).
  apply list_elem_of_filter in Hin as [_ Hin]. apply list_elem_of_fmap. by exists y.
Qed.

Lemma expired_keys_NoDup now m : NoDup (TTLManager.expired_keys now m).
Proof. apply NoDup_fst_filter, NoDup_fst_map_to_list. Qed.

Lemma is_due_spec now m k :
  is_due now m k = true ↔ ∃ d, TTLManager.expiry_map_ m !! k = Some d ∧ now >= d.
Proof.
  unfold is_due. destruct (_ !! k) as [d|].
  - rewrite bool_decide_eq_true. split; [by exists d|]. by intros (? & [= <-] & ?).
  - split; [done|]. by intros (? & ? & _).
Qed.

Lemma wake_lookup now m k :
  TTLManager.expiry_map_ (TTLManager.wake now m).2 !! k =
    if is_due now m k then None else TTLManager.expiry_map_ m !! k.
Proof.
  unfold TTLManager.wake. cbn [snd TTLManager.expiry_map_].
  destruct (is_due now m k) eqn:Hdue.
  - apply lookup_foldr_delete, expired_keys_elem. by apply is_due_spec.
  - apply lookup_foldr_delete_not_elem_of. rewrite expired_keys_elem, <- is_due_spec.
    congruence.
Qed.

(** X8: one wake-up of the expiry thread at clock reading now collects
    exactly the keys whose deadline is at or before now, each once, and
    erases exactly their deadlines; every later deadline is kept as it
    was. *)
Theorem wake_collects_due (now : Z) (m : TTLManager.t) :
  NoDup (TTLManager.wake now m).1 ∧
  (∀ k, k ∈ (TTLManager.wake now m).1 ↔
        ∃ d, TTLManager.expiry_map_ m !! k = Some d ∧ d <= now) ∧
  (∀ k, TTLManager.expiry_map_ (TTLManager.wake now m).2 !! k =
        match TTLManager.expiry_map_ m !! k with
        | Some d => if decide (d <= now) then None else Some d
        | None => None
        end).
Proof.
  split_and!.
  - apply expired_keys_NoDup.
  - intros k. unfold TTLManager.wake. cbn [fst]. rewrite expired_keys_elem.
    split; intros (d & Hd & Hle); exists d; (split; [done|lia]).
  - intros k. rewrite wake_lookup. unfold is_due.
    destruct (_ !! k) as [d|]; [|done].
    destruct (decide (d <= now)).
    + rewrite bool_decide_eq_true_2; [done|lia].
    + rewrite bool_decide_eq_false_2; [done|lia].
Qed.

(** X9: the TTL in seconds is the TTL in milliseconds divided by 1000 and
    rounded down; both are -1 exactly when no deadline is recorded. *)
Theorem ttl_seconds_from_ms (k : string) (now : Z) (m : TTLManager.t) :
  (TTLManager.ttl_ms k now m = -1 ↔ TTLManager.expiry_map_ m !! k = None) ∧
  TTLManager.ttl k now m =
    (if decide (TTLManager.ttl_ms k now m = -1) then -1
     else TTLManager.ttl_ms k now m / 1000).
Proof.
  unfold TTLManager.ttl, TTLManager.ttl_ms, TTLManager.duration_cast,
    ticks_per_second, ticks_per_millisecond.
  destruct (_ !! k) as [d|]; [|done]. generalize (wrap_int64 (d - now)). intros w.
  assert (∀ x u, 0 < u → Z.quot x u > 0 ↔ u <= x) as Hq.
  { intros x u Hu. destruct (decide (0 <= x)).
    - rewrite Z.quot_div_nonneg by lia. split.
      + intros Hpos. destruct (decide (u <= x)); [done|].
        rewrite Z.div_small in Hpos; lia.
      + intros Hle. pose proof (Z.div_le_mono u x u Hu Hle) as Hm.
        rewrite Z.div_same in Hm; lia.
    - pose proof (Z.quot_opp_l (- x) u ltac:(lia)) as Ho.
      rewrite Z.opp_involutive in Ho.
      pose proof (Z.quot_pos (- x) u ltac:(lia) ltac:(lia)). lia. }
  split.
  - split; [|done]. destruct (decide (_ > 0)); lia.
  - destruct (decide (Z.quot w 1000000 > 0)) as [Hms|Hms].
    + rewrite (decide_False (P := Z.quot w 1000000 = -1)) by lia.
      apply Hq in Hms; [|lia]. rewrite !Z.quot_div_nonneg by lia.
      rewrite Z.div_div by lia. change (1000000 * 1000) with 1000000000.
      destruct (decide (_ > 0)) as [|Hs]; [done|].
      assert (w < 1000000000).
      { destruct (decide (w < 1000000000)); [done|]. exfalso. apply Hs.
        pose proof (Z.div_le_mono 1000000000 w 1000000000 ltac:(lia) ltac:(lia))
          as Hm. rewrite Z.div_same in Hm; lia. }
      rewrite Z.div_small; lia.
    + rewrite (decide_False (P := 0 = -1)) by lia. rewrite Z.div_small by lia.
      rewrite decide_False; [done|]. rewrite Hq by lia. rewrite Hq in Hms by lia. lia.
Qed.

(** X10: as the clock advances, the reported TTL of a key never grows, in
    seconds or in milliseconds, as long as the differences between the
    deadline and the two readings fit the 64-bit tick count; and it stays
    -1 for a key without deadline. *)
Theorem ttl_never_increases (k : string) (now now' : Z) (m : TTLManager.t) :
  now <= now' →
  (∀ d, TTLManager.expiry_map_ m !! k = Some d → int64 (d - now) ∧ int64 (d - now')) →
  TTLManager.ttl k now' m <= TTLManager.ttl k now m ∧
  TTLManager.ttl_ms k now' m <= TTLManager.ttl_ms k now m ∧
  (TTLManager.ttl k now m = -1 → TTLManager.ttl k now' m = -1).
Proof.
  intros Hle Hrange. unfold TTLManager.ttl, TTLManager.ttl_ms, TTLManager.duration_cast.
  destruct (_ !! k) as [d|]; [|done]. destruct (Hrange d eq_refl) as [Hnow Hnow'].
  rewrite !wrap_int64_id by done.
  pose proof (quot_clip_mono (d - now') (d - now) ticks_per_second) as Hs.
  pose proof (quot_clip_mono (d - now') (d - now) ticks_per_millisecond) as Hm.
  unfold ticks_per_second, ticks_per_millisecond in *.
  split_and!; [lia|lia|].
  destruct (decide (Z.quot (d - now) 1000000000 > 0)); lia.
Qed.

Lemma ttl_never_increases_witness :
  TTLManager.ttl "k" 2500000000 (TTLManager.mk {["k" := 5000000000]})
    <= TTLManager.ttl "k" 1000000000 (TTLManager.mk {["k" := 5000000000]}) ∧
  TTLManager.ttl_ms "k" 2500000000 (TTLManager.mk {["k" := 5000000000]})
    <= TTLManager.ttl_ms "k" 1000000000 (TTLManager.mk {["k" := 5000000000]}) ∧
  (TTLManager.ttl "k" 1000000000 (TTLManager.mk {["k" := 5000000000]}) = -1 →
   TTLManager.ttl "k" 2500000000 (TTLManager.mk {["k" := 5000000000]}) = -1).
Proof.
  apply (ttl_never_increases "k" 1000000000 2500000000
           (TTLManager.mk {["k" := 5000000000]})).
  - lia.
  - intros d Hd. cbn [TTLManager.expiry_map_] in Hd.
    apply lookup_singleton_Some in Hd as [_ <-]. unfold int64. lia.
Defined.

(** ** The store over sequences of operations (store.cpp) *)

Lemma get_cache k st :
  KVStore.cache_ (KVStore.get k st).2 = (LRUCache.get k (KVStore.cache_ st)).2.
Proof. unfold KVStore.get. by destruct (LRUCache.get k (KVStore.cache_ st)) as [[v|] c]. Qed.

Lemma del_cache k st :
  KVStore.cache_ (KVStore.del k st).2 = (LRUCache.del k (KVStore.cache_ st)).2.
Proof. unfold KVStore.del. by destruct (LRUCache.del k (KVStore.cache_ st)) as [[] c]. Qed.

Lemma onExpire_cache k st :
  KVStore.cache_ (KVStore.onExpire k st) = (LRUCache.del k (KVStore.cache_ st)).2.
Proof. unfold KVStore.onExpire. by destruct (LRUCache.del k (KVStore.cache_ st)) as [[] c]. Qed.

Lemma load_entry_cache now st e :
  KVStore.cache_ (KVStore.load_entry now st e) =
    if decide (ttl_ms e = 0) then KVStore.cache_ st
    else (LRUCache.set (key e) (value e) (KVStore.cache_ st)).2.
Proof.
  unfold KVStore.load_entry. destruct (decide (ttl_ms e = 0)); [done|].
  by destruct (decide (ttl_ms e > 0)).
Qed.

Lemma clear_wf c : cache_wf c → cache_wf (LRUCache.clear c).
Proof.
  intros Hwf. split; cbn [LRUCache.clear LRUCache.capacity_ LRUCache.list_ LRUCache.map_].
  - apply (wf_capacity _ Hwf).
  - apply NoDup_nil_2.
  - done.
  - simpl. lia.
Qed.

Lemma capacity_set k v c :
  LRUCache.capacity_ (LRUCache.set k v c).2 = LRUCache.capacity_ c.
Proof. apply (capacity_apply_op (OpSet k v)). Qed.

Lemma capacity_del k c : LRUCache.capacity_ (LRUCache.del k c).2 = LRUCache.capacity_ c.
Proof. apply (capacity_apply_op (OpDel k)). Qed.

(** Well-formed with capacity [C]. *)
Lemma load_entries_wf now es C : ∀ st,
  store_wf st ∧ LRUCache.capacity_ (KVStore.cache_ st) = C →
  store_wf (foldl (KVStore.load_entry now) st es) ∧
  LRUCache.capacity_ (KVStore.cache_ (foldl (KVStore.load_entry now) st es)) = C.
Proof.
  induction es as [|e es IH]; intros st [Hwf HC]; [done|]. cbn [foldl]. apply IH.
  unfold store_wf. rewrite load_entry_cache. destruct (decide (ttl_ms e = 0)); [done|].
  split; [by apply set_cases|]. by rewrite capacity_set.
Qed.

Lemma expire_keys_wf ks C : ∀ st,
  store_wf st ∧ LRUCache.capacity_ (KVStore.cache_ st) = C →
  store_wf (foldl (λ st k, KVStore.onExpire k st) st ks) ∧
  LRUCache.capacity_ (KVStore.cache_ (foldl (λ st k, KVStore.onExpire k st) st ks)) = C.
Proof.
  induction ks as [|k ks IH]; intros st [Hwf HC]; [done|]. cbn [foldl]. apply IH.
  unfold store_wf. rewrite onExpire_cache. split.
  - by apply (apply_op_wf (OpDel k)).
  - by rewrite capacity_del.
Qed.

Lemma store_step_wf o C st :
  store_wf st ∧ LRUCache.capacity_ (KVStore.cache_ st) = C →
  store_wf (store_step st o) ∧ LRUCache.capacity_ (KVStore.cache_ (store_step st o)) = C.
Proof.
  intros [Hwf HC].
  destruct o as [k v ttl_seconds now|k|k| |filename now mem fs|now|now|k];
    cbn [store_step].
  - split; [by apply set_wf|]. by rewrite set_cache, capacity_set.
  - unfold store_wf. rewrite get_cache. split; [by apply (apply_op_wf (OpGet k))|].
    rewrite <- HC. apply (capacity_apply_op (OpGet k)).
  - unfold store_wf. rewrite del_cache. split; [by apply (apply_op_wf (OpDel k))|].
    by rewrite capacity_del.
  - split; [by apply clear_wf|done].
  - unfold KVStore.load. destruct (PersistenceEngine.load filename mem fs) as [raw|e]; [|done].
    cbn [snd]. apply load_entries_wf. split; [by apply clear_wf|done].
  - unfold KVStore.sweep. destruct (TTLManager.wake now (KVStore.ttl_mgr_ st)) as [ks m].
    by apply expire_keys_wf.
  - unfold KVStore.collect. by destruct (TTLManager.wake now (KVStore.ttl_mgr_ st)).
  - by apply (expire_keys_wf [k]).
Qed.

Lemma run_store_wf ops C : ∀ st,
  store_wf st ∧ LRUCache.capacity_ (KVStore.cache_ st) = C →
  store_wf (run_store ops st) ∧ LRUCache.capacity_ (KVStore.cache_ (run_store ops st)) = C.
Proof.
  unfold run_store. induction ops as [|o ops IH]; intros st H; [done|].
  cbn [foldl]. by apply IH, store_step_wf.
Qed.

(** X11: from the constructed store of capacity C > 0, over every sequence
    of set, get, del, flush, load and expiry wake-ups (whole, or taken apart
    into the collection of the due keys and the callbacks, with other
    operations between them), the capacity stays C, keys() holds pairwise
    distinct keys, as many as size(), never more than C, and stats()
    reports the same: current_keys <= capacity.  This holds also after
    loading a snapshot with more records than the capacity. *)
Theorem store_invariant_preserved (C : nat) (ops : list store_op) :
  (0 < C)%nat →
  ∃ st0, KVStore.new C = Ok st0 ∧
    let st := run_store ops st0 in
    NoDup (KVStore.keys st) ∧
    length (KVStore.keys st) = KVStore.size st ∧
    (KVStore.size st <= C)%nat ∧
    KVStore.capacity st = C ∧
    (KVStore.current_keys (KVStore.stats st) <= KVStore.capacity_of (KVStore.stats st))%nat.
Proof.
  intros HC. exists (KVStore.mk (new_cache C) (TTLManager.mk ∅) 0 0 0 0 0 0).
  split. { unfold KVStore.new. by rewrite new_ok, bind_Ok by done. }
  cbn zeta.
  destruct (run_store_wf ops C (KVStore.mk (new_cache C) (TTLManager.mk ∅) 0 0 0 0 0 0))
    as [Hwf Hcap]; [split; [by apply new_cache_wf|done]|].
  set (st := run_store ops _) in *.
  pose proof (wf_size _ Hwf) as Hsize. pose proof (wf_bound _ Hwf) as Hb.
  unfold KVStore.stats, KVStore.size, KVStore.capacity, LRUCache.capacity, KVStore.keys,
    LRUCache.entries. cbn [KVStore.current_keys KVStore.capacity_of].
  rewrite Hsize, Hcap in *. split_and!; [apply (wf_nodup _ Hwf)|apply length_fmap|done..].
Qed.

Lemma store_invariant_preserved_witness :
  ∃ st0, KVStore.new 1 = Ok st0 ∧
    let st := run_store [DoSet "a" "1" 5 0; DoSet "b" "2" (-1) 1; DoSweep 9] st0 in
    NoDup (KVStore.keys st) ∧
    length (KVStore.keys st) = KVStore.size st ∧
    (KVStore.size st <= 1)%nat ∧
    KVStore.capacity st = 1%nat ∧
    (KVStore.current_keys (KVStore.stats st) <= KVStore.capacity_of (KVStore.stats st))%nat.
Proof.
  apply (store_invariant_preserved 1 [DoSet "a" "1" 5 0; DoSet "b" "2" (-1) 1; DoSweep 9]).
  lia.
Defined.

(** ** Expiry (store.cpp, ttl_manager.h) *)

Lemma del_list k c :
  cache_wf c →
  LRUCache.list_ (LRUCache.del k c).2 = filter (λ kv, kv.1 ≠ k) (LRUCache.list_ c).
Proof.
  intros Hwf. pose proof (wf_nodup c Hwf) as Hnd.
  destruct (decide (k ∈ keys_of (LRUCache.list_ c))) as [Hin|Hnin].
  - apply keys_of_split in Hin as (l1 & v0 & l2 & Hl & Hl1).
    rewrite (del_hit k v0 l1 l2) by done. cbn [snd LRUCache.list_].
    rewrite Hl in Hnd |- *. apply NoDup_keys_split in Hnd as [_ Hk].
    rewrite keys_of_app, not_elem_of_app in Hk. destruct Hk as [Hk1 Hk2].
    rewrite filter_app, filter_cons. cbn [fst]. rewrite decide_False by tauto.
    rewrite !filter_all; [done| |]; intros [k' v'] Hin; cbn [fst]; intros ->.
    + apply Hk2. by apply (list_elem_of_fmap_2 fst) in Hin.
    + apply Hk1. by apply (list_elem_of_fmap_2 fst) in Hin.
  - rewrite del_miss by done. cbn [snd]. rewrite filter_all; [done|].
    intros [k' v'] Hin. cbn [fst]. intros ->. apply Hnin.
    by apply (list_elem_of_fmap_2 fst) in Hin.
Qed.

(** The counters that the expiry callback leaves alone. *)
Lemma onExpire_frame k st :
  let st' := KVStore.onExpire k st in
  KVStore.ttl_mgr_ st' = KVStore.ttl_mgr_ st ∧
  KVStore.hits_ st' = KVStore.hits_ st ∧ KVStore.misses_ st' = KVStore.misses_ st ∧
  KVStore.evictions_ st' = KVStore.evictions_ st ∧ KVStore.sets_ st' = KVStore.sets_ st ∧
  KVStore.dels_ st' = KVStore.dels_ st.
Proof.
  unfold KVStore.onExpire. by destruct (LRUCache.del k (KVStore.cache_ st)) as [[] c].
Qed.

Lemma onExpire_expirations k st :
  store_wf st →
  KVStore.expirations_ (KVStore.onExpire k st) =
    Nat.iter (length (LRUCache.list_ (KVStore.cache_ st))
              - length (LRUCache.list_ (KVStore.cache_ (KVStore.onExpire k st))))
             incr64 (KVStore.expirations_ st).
Proof.
  intros Hwf. unfold KVStore.onExpire.
  destruct (decide (k ∈ keys_of (LRUCache.list_ (KVStore.cache_ st)))) as [Hin|Hnin].
  - apply keys_of_split in Hin as (l1 & v0 & l2 & Hl & Hl1).
    rewrite (del_hit k v0 l1 l2) by done. cbn [KVStore.expirations_ KVStore.cache_
      LRUCache.list_]. rewrite Hl, !length_app. cbn [length].
    by replace (length l1 + S (length l2) - (length l1 + length l2))%nat with 1%nat by lia.
  - rewrite del_miss by done. cbn [KVStore.with_cache KVStore.expirations_ KVStore.cache_].
    by rewrite Nat.sub_diag.
Qed.

Lemma expire_keys_spec ks : ∀ st,
  store_wf st →
  let st' := foldl (λ st k, KVStore.onExpire k st) st ks in
  store_wf st' ∧
  LRUCache.list_ (KVStore.cache_ st')
    = filter (λ kv, kv.1 ∉ ks) (LRUCache.list_ (KVStore.cache_ st)) ∧
  KVStore.expirations_ st' =
    Nat.iter (length (LRUCache.list_ (KVStore.cache_ st))
              - length (LRUCache.list_ (KVStore.cache_ st')))
             incr64 (KVStore.expirations_ st) ∧
  KVStore.ttl_mgr_ st' = KVStore.ttl_mgr_ st ∧
  KVStore.hits_ st' = KVStore.hits_ st ∧ KVStore.misses_ st' = KVStore.misses_ st ∧
  KVStore.evictions_ st' = KVStore.evictions_ st ∧ KVStore.sets_ st' = KVStore.sets_ st ∧
  KVStore.dels_ st' = KVStore.dels_ st.
Proof.
  induction ks as [|k ks IH]; intros st Hwf; cbn [foldl].
  - split_and!; try done.
    + rewrite filter_all; [done|]. intros x _. apply not_elem_of_nil.
    + by rewrite Nat.sub_diag.
  - assert (store_wf (KVStore.onExpire k st)) as Hwf1.
    { unfold store_wf. rewrite onExpire_cache. by apply (apply_op_wf (OpDel k)). }
    destruct (IH _ Hwf1) as (Hwf' & Hl & He & Hm' & Hh' & Hmi' & Hev' & Hs' & Hd').
    pose proof (onExpire_frame k st) as Hf. cbn zeta in Hf.
    destruct Hf as (Hm & Hh & Hmi & Hev & Hs & Hd).
    pose proof (onExpire_expirations k st Hwf) as He1.
    assert (LRUCache.list_ (KVStore.cache_ (KVStore.onExpire k st))
              = filter (λ kv, kv.1 ≠ k) (LRUCache.list_ (KVStore.cache_ st))) as Hl1.
    { rewrite onExpire_cache. by apply del_list. }
    split_and!; [done| | |congruence..].
    + rewrite Hl, Hl1, list_filter_filter. apply list_filter_iff.
      intros [k' v']. cbn [fst]. rewrite not_elem_of_cons. tauto.
    + rewrite He, He1, <- Nat.iter_add. f_equal.
      pose proof (length_filter (λ kv : string * string, kv.1 ≠ k)
                    (LRUCache.list_ (KVStore.cache_ st))) as H1.
      rewrite <- Hl1 in H1.
      pose proof (length_filter (λ kv : string * string, kv.1 ∉ ks)
                    (LRUCache.list_ (KVStore.cache_ (KVStore.onExpire k st)))) as H2.
      rewrite <- Hl in H2. lia.
Qed.

Lemma sweep_spec now st :
  store_wf st →
  let st' := KVStore.sweep now st in
  store_wf st' ∧
  LRUCache.list_ (KVStore.cache_ st')
    = filter (λ kv, is_due now (KVStore.ttl_mgr_ st) kv.1 = false)
             (LRUCache.list_ (KVStore.cache_ st)) ∧
  KVStore.expirations_ st' =
    Nat.iter (length (LRUCache.list_ (KVStore.cache_ st))
              - length (LRUCache.list_ (KVStore.cache_ st')))
             incr64 (KVStore.expirations_ st) ∧
  KVStore.ttl_mgr_ st' = (TTLManager.wake now (KVStore.ttl_mgr_ st)).2 ∧
  KVStore.hits_ st' = KVStore.hits_ st ∧ KVStore.misses_ st' = KVStore.misses_ st ∧
  KVStore.evictions_ st' = KVStore.evictions_ st ∧ KVStore.sets_ st' = KVStore.sets_ st ∧
  KVStore.dels_ st' = KVStore.dels_ st.
Proof.
  intros Hwf. unfold KVStore.sweep.
  destruct (TTLManager.wake now (KVStore.ttl_mgr_ st)) as [ks m] eqn:Hwake.
  assert (ks = TTLManager.expired_keys now (KVStore.ttl_mgr_ st)) as Hks
    by (by injection Hwake).
  destruct (expire_keys_spec ks (KVStore.with_ttl_mgr m st) Hwf)
    as (Hwf' & Hl & He & Hrest).
  cbn zeta. destruct Hrest as (Hm' & Hh' & Hmi' & Hev' & Hs' & Hd').
  split_and!; [done| |done|done..].
  rewrite Hl. cbn [KVStore.with_ttl_mgr KVStore.cache_]. apply list_filter_iff.
  intros [k v]. cbn [fst]. rewrite Hks, expired_keys_elem, <- is_due_spec.
  by destruct (is_due now (KVStore.ttl_mgr_ st) k).
Qed.

(** A wake-up whose callbacks run with no store operation in between. *)
Lemma sweep_steps now st :
  run_store (DoCollect now :: (DoExpire <$> (KVStore.collect now st).1)) st
    = KVStore.sweep now st.
Proof.
  unfold run_store, KVStore.sweep, KVStore.collect. cbn [foldl store_step].
  unfold KVStore.collect.
  destruct (TTLManager.wake now (KVStore.ttl_mgr_ st)) as [ks m]. cbn [fst snd].
  by rewrite foldl_fmap.
Qed.

(** X12: on a well-formed store, a wake-up of the expiry thread at clock
    reading now collects the keys whose deadline is at or before now; when
    its callbacks run with no store operation in between, the keys removed
    from the cache are exactly the resident keys among them; the keys that
    stay keep their order and values; the expiration counter is incremented
    once for each key removed (a due deadline of a key that is not resident
    counts nothing); no due deadline remains and the other counters are
    untouched. *)
Theorem sweep_expires_due_keys (now : Z) (st : KVStore.t) :
  store_wf st →
  let collected := (KVStore.collect now st).1 in
  let st' := run_store (DoCollect now :: (DoExpire <$> collected)) st in
  (∀ k, k ∈ collected ↔ is_due now (KVStore.ttl_mgr_ st) k = true) ∧
  LRUCache.entries (KVStore.cache_ st')
    = filter (λ kv, is_due now (KVStore.ttl_mgr_ st) kv.1 = false)
             (LRUCache.entries (KVStore.cache_ st)) ∧
  KVStore.expirations_ st' =
    Nat.iter (KVStore.size st - KVStore.size st') incr64 (KVStore.expirations_ st) ∧
  (∀ k, is_due now (KVStore.ttl_mgr_ st') k = false) ∧
  (∀ k, is_due now (KVStore.ttl_mgr_ st) k = false →
        TTLManager.expiry_map_ (KVStore.ttl_mgr_ st') !! k
          = TTLManager.expiry_map_ (KVStore.ttl_mgr_ st) !! k) ∧
  KVStore.hits_ st' = KVStore.hits_ st ∧ KVStore.misses_ st' = KVStore.misses_ st ∧
  KVStore.evictions_ st' = KVStore.evictions_ st ∧ KVStore.sets_ st' = KVStore.sets_ st ∧
  KVStore.dels_ st' = KVStore.dels_ st.
Proof.
  intros Hwf collected st'. subst st' collected. rewrite sweep_steps.
  destruct (sweep_spec now st Hwf) as (Hwf' & Hl & He & Hm & Hrest).
  unfold LRUCache.entries, KVStore.size. rewrite !wf_size by done.
  destruct Hrest as (Hh' & Hmi' & Hev' & Hs' & Hd').
  split_and!; [|done|done| | |done..].
  - intros k. unfold KVStore.collect, TTLManager.wake. cbn [fst].
    by rewrite expired_keys_elem, is_due_spec.
  - intros k. unfold is_due at 1. rewrite Hm, wake_lookup.
    destruct (is_due now (KVStore.ttl_mgr_ st) k) eqn:Hdue; [done|].
    unfold is_due in Hdue. by destruct (_ !! k).
  - intros k Hk. by rewrite Hm, wake_lookup, Hk.
Qed.

Lemma sweep_expires_due_keys_witness :
  let collected := (KVStore.collect 1100000000 expired_store).1 in
  let st' := run_store (DoCollect 1100000000 :: (DoExpire <$> collected)) expired_store in
  (∀ k, k ∈ collected ↔ is_due 1100000000 (KVStore.ttl_mgr_ expired_store) k = true) ∧
  LRUCache.entries (KVStore.cache_ st')
    = filter (λ kv, is_due 1100000000 (KVStore.ttl_mgr_ expired_store) kv.1 = false)
             (LRUCache.entries (KVStore.cache_ expired_store)) ∧
  KVStore.expirations_ st' =
    Nat.iter (KVStore.size expired_store - KVStore.size st') incr64
             (KVStore.expirations_ expired_store) ∧
  (∀ k, is_due 1100000000 (KVStore.ttl_mgr_ st') k = false) ∧
  (∀ k, is_due 1100000000 (KVStore.ttl_mgr_ expired_store) k = false →
        TTLManager.expiry_map_ (KVStore.ttl_mgr_ st') !! k
          = TTLManager.expiry_map_ (KVStore.ttl_mgr_ expired_store) !! k) ∧
  KVStore.hits_ st' = KVStore.hits_ expired_store ∧
  KVStore.misses_ st' = KVStore.misses_ expired_store ∧
  KVStore.evictions_ st' = KVStore.evictions_ expired_store ∧
  KVStore.sets_ st' = KVStore.sets_ expired_store ∧
  KVStore.dels_ st' = KVStore.dels_ expired_store.
Proof.
  apply (sweep_expires_due_keys 1100000000 expired_store).
  apply set_wf, set_wf, demo_store_wf.
Defined.

(** X13: the store serves a key whose deadline has passed until the expiry
    thread wakes up, and never after: on a well-formed store, get(k)
    returns the value stored under k whatever its deadline; after a wake-up
    at or after the deadline, get(k) returns nothing and ttl(k) is -2. *)
Theorem expired_key_served_until_sweep (k v : string) (d now t : Z) (st : KVStore.t) :
  store_wf st →
  (k, v) ∈ LRUCache.entries (KVStore.cache_ st) →
  TTLManager.expiry_map_ (KVStore.ttl_mgr_ st) !! k = Some d →
  d <= now →
  (KVStore.get k st).1 = Some v ∧
  (KVStore.get k (KVStore.sweep now st)).1 = None ∧
  KVStore.ttl k t (KVStore.sweep now st) = -2.
Proof.
  intros Hwf Hin Hd Hle. destruct (sweep_spec now st Hwf) as (Hwf' & Hl & _).
  assert (k ∉ keys_of (LRUCache.list_ (KVStore.cache_ (KVStore.sweep now st)))) as Hgone.
  { intros Hk. apply resident_node in Hk as [v' Hk]. rewrite Hl in Hk.
    apply list_elem_of_filter in Hk as [Hdue _]. cbn [fst] in Hdue.
    assert (is_due now (KVStore.ttl_mgr_ st) k = true); [|congruence].
    apply is_due_spec. exists d. split; [done|lia]. }
  split_and!.
  - rewrite store_get_value. by apply get_returns.
  - rewrite store_get_value. by rewrite get_miss.
  - unfold KVStore.ttl.
    assert (LRUCache.contains k (KVStore.cache_ (KVStore.sweep now st)) = false) as ->;
      [|done].
    apply not_true_is_false. by rewrite contains_resident.
Qed.

Lemma expired_key_served_until_sweep_witness :
  (KVStore.get "b" expired_store).1 = Some "2" ∧
  (KVStore.get "b" (KVStore.sweep 1100000000 expired_store)).1 = None ∧
  KVStore.ttl "b" 1200000000 (KVStore.sweep 1100000000 expired_store) = -2.
Proof.
  apply (expired_key_served_until_sweep "b" "2" 1000000000 1100000000 1200000000
           expired_store).
  - apply set_wf, set_wf, demo_store_wf.
  - vm_compute. apply elem_of_cons. right. apply elem_of_cons. by left.
  - by vm_compute.
  - lia.
Defined.

(** ** get and del on the store (store.cpp) *)

Lemma del_removes_only_key_aux k c :
  cache_wf c →
  (LRUCache.del k c).1 = LRUCache.contains k c ∧
  LRUCache.contains k (LRUCache.del k c).2 = false ∧
  (∀ k', k' ≠ k → (LRUCache.get k' (LRUCache.del k c).2).1 = (LRUCache.get k' c).1) ∧
  cache_wf (LRUCache.del k c).2.
Proof.
  intros Hwf. pose proof (del_list k c Hwf) as Hl.
  assert (cache_wf (LRUCache.del k c).2) as Hwf' by apply (apply_op_wf (OpDel k) c Hwf).
  split_and!; [| | |done].
  - unfold LRUCache.del, LRUCache.contains.
    destruct (decide (k ∈ LRUCache.map_ c)).
    + by rewrite bool_decide_eq_true_2.
    + by rewrite bool_decide_eq_false_2.
  - apply not_true_is_false. rewrite contains_resident by done. rewrite Hl.
    intros Hin. unfold keys_of in Hin. apply list_elem_of_fmap in Hin as ([k' v] & -> & Hin).
    by apply list_elem_of_filter in Hin as [? _].
  - intros k' Hne. apply get_ext; [done|done|]. intros v.
    rewrite Hl, list_elem_of_filter. cbn [fst]. tauto.
Qed.

(** X14: on a well-formed store, del of a key that is not resident returns
    false and leaves the whole store as it was (no counter moves); del of a
    resident key returns true, after which the key is not resident, has no
    deadline (ttl is -2), the delete counter has gone up by one, and the
    deadlines and values of the other keys are as before. *)
Theorem store_del_clears_deadline (k : string) (t : Z) (st : KVStore.t) :
  store_wf st →
  (LRUCache.contains k (KVStore.cache_ st) = false → KVStore.del k st = (false, st)) ∧
  (LRUCache.contains k (KVStore.cache_ st) = true →
     let st' := (KVStore.del k st).2 in
     (KVStore.del k st).1 = true ∧
     KVStore.ttl k t st' = -2 ∧
     TTLManager.expiry_map_ (KVStore.ttl_mgr_ st') !! k = None ∧
     KVStore.dels_ st' = incr64 (KVStore.dels_ st) ∧
     (∀ k', k' ≠ k →
        TTLManager.expiry_map_ (KVStore.ttl_mgr_ st') !! k'
          = TTLManager.expiry_map_ (KVStore.ttl_mgr_ st) !! k' ∧
        (KVStore.get k' st').1 = (KVStore.get k' st).1)).
Proof.
  intros Hwf. split.
  - intros Hc. unfold KVStore.del. rewrite del_miss; [by destruct st|done|].
    intros Hin. apply (contains_resident _ _ Hwf) in Hin. congruence.
  - intros Hc. cbn zeta.
    destruct (del_removes_only_key_aux k (KVStore.cache_ st) Hwf)
      as (Hret & Hgone & Hothers & Hwf').
    unfold KVStore.ttl. rewrite del_cache, Hgone. cbn [negb].
    unfold KVStore.del in *. rewrite Hc in Hret.
    destruct (LRUCache.del k (KVStore.cache_ st)) as [existed c]. cbn [fst snd] in *.
    subst existed. cbn [fst snd KVStore.ttl_mgr_ KVStore.dels_ TTLManager.remove
      TTLManager.expiry_map_].
    split_and!; [done|done|apply lookup_delete_eq|done|].
    intros k' Hne. split; [by apply lookup_delete_ne|].
    rewrite !store_get_value. cbn [KVStore.cache_]. by apply Hothers.
Qed.

Lemma store_del_clears_deadline_witness :
  (LRUCache.contains "k" (KVStore.cache_ one_second_store) = false →
     KVStore.del "k" one_second_store = (false, one_second_store)) ∧
  (LRUCache.contains "k" (KVStore.cache_ one_second_store) = true →
     let st' := (KVStore.del "k" one_second_store).2 in
     (KVStore.del "k" one_second_store).1 = true ∧
     KVStore.ttl "k" 7 st' = -2 ∧
     TTLManager.expiry_map_ (KVStore.ttl_mgr_ st') !! "k" = None ∧
     KVStore.dels_ st' = incr64 (KVStore.dels_ one_second_store) ∧
     (∀ k', k' ≠ "k" →
        TTLManager.expiry_map_ (KVStore.ttl_mgr_ st') !! k'
          = TTLManager.expiry_map_ (KVStore.ttl_mgr_ one_second_store) !! k' ∧
        (KVStore.get k' st').1 = (KVStore.get k' one_second_store).1)).
Proof. apply (store_del_clears_deadline "k" 7 one_second_store), one_second_store_wf. Defined.

(** X15: on a well-formed store, get changes nothing but the recency order
    and one counter: the deadlines and the entries (keys with their values)
    are as before, and so are the set, delete, eviction and expiration
    counters; a hit returns the value stored under the key and increments
    hits only, a miss increments misses only and leaves the cache as it
    was. *)
Theorem store_get_changes_only_recency (k : string) (st : KVStore.t) :
  store_wf st →
  let st' := (KVStore.get k st).2 in
  KVStore.ttl_mgr_ st' = KVStore.ttl_mgr_ st ∧
  (∀ k' v', (k', v') ∈ LRUCache.entries (KVStore.cache_ st')
            ↔ (k', v') ∈ LRUCache.entries (KVStore.cache_ st)) ∧
  KVStore.sets_ st' = KVStore.sets_ st ∧ KVStore.dels_ st' = KVStore.dels_ st ∧
  KVStore.evictions_ st' = KVStore.evictions_ st ∧
  KVStore.expirations_ st' = KVStore.expirations_ st ∧
  match (KVStore.get k st).1 with
  | Some v =>
      (k, v) ∈ LRUCache.entries (KVStore.cache_ st) ∧
      KVStore.hits_ st' = incr64 (KVStore.hits_ st) ∧
      KVStore.misses_ st' = KVStore.misses_ st
  | None =>
      LRUCache.contains k (KVStore.cache_ st) = false ∧
      KVStore.cache_ st' = KVStore.cache_ st ∧
      KVStore.hits_ st' = KVStore.hits_ st ∧
      KVStore.misses_ st' = incr64 (KVStore.misses_ st)
  end.
Proof.
  intros Hwf. cbn zeta. unfold LRUCache.entries.
  destruct (decide (k ∈ keys_of (LRUCache.list_ (KVStore.cache_ st)))) as [Hin|Hnin].
  - apply keys_of_split in Hin as (l1 & v0 & l2 & Hl & Hl1).
    unfold KVStore.get. rewrite (get_hit k v0 l1 l2) by done.
    cbn [fst snd KVStore.ttl_mgr_ KVStore.cache_ KVStore.sets_ KVStore.dels_
         KVStore.evictions_ KVStore.expirations_ KVStore.hits_ KVStore.misses_
         LRUCache.list_].
    split_and!; try done.
    + intros k' v'. rewrite Hl, elem_of_cons, !elem_of_app, elem_of_cons. tauto.
    + rewrite Hl. apply elem_of_app. right. by apply elem_of_cons; left.
  - unfold KVStore.get. rewrite get_miss by done.
    cbn [fst snd KVStore.ttl_mgr_ KVStore.cache_ KVStore.sets_ KVStore.dels_
         KVStore.evictions_ KVStore.expirations_ KVStore.hits_ KVStore.misses_].
    split_and!; try done.
    apply not_true_is_false. by rewrite contains_resident.
Qed.

Lemma store_get_changes_only_recency_witness :
  let st' := (KVStore.get "k" one_second_store).2 in
  KVStore.ttl_mgr_ st' = KVStore.ttl_mgr_ one_second_store ∧
  (∀ k' v', (k', v') ∈ LRUCache.entries (KVStore.cache_ st')
            ↔ (k', v') ∈ LRUCache.entries (KVStore.cache_ one_second_store)) ∧
  KVStore.sets_ st' = KVStore.sets_ one_second_store ∧
  KVStore.dels_ st' = KVStore.dels_ one_second_store ∧
  KVStore.evictions_ st' = KVStore.evictions_ one_second_store ∧
  KVStore.expirations_ st' = KVStore.expirations_ one_second_store ∧
  match (KVStore.get "k" one_second_store).1 with
  | Some v =>
      ("k", v) ∈ LRUCache.entries (KVStore.cache_ one_second_store) ∧
      KVStore.hits_ st' = incr64 (KVStore.hits_ one_second_store) ∧
      KVStore.misses_ st' = KVStore.misses_ one_second_store
  | None =>
      LRUCache.contains "k" (KVStore.cache_ one_second_store) = false ∧
      KVStore.cache_ st' = KVStore.cache_ one_second_store ∧
      KVStore.hits_ st' = KVStore.hits_ one_second_store ∧
      KVStore.misses_ st' = incr64 (KVStore.misses_ one_second_store)
  end.
Proof. apply (store_get_changes_only_recency "k" one_second_store), one_second_store_wf. Defined.

(** ** Loading more records than the capacity (store.cpp) *)

Lemma take_snoc_evict {A} (C : nat) (x y : A) (R l0 : list A) :
  take C R = l0 ++ [y] → length (l0 ++ [y]) = C →
  take C (x :: R) = x :: l0.
Proof.
  intros Ht Hlen. rewrite length_app in Hlen. simpl in Hlen.
  destruct C as [|C]; [lia|]. cbn [take]. f_equal.
  assert (take C (take (S C) R) = take C (l0 ++ [y])) as H by (by rewrite Ht).
  rewrite take_take, Nat.min_l in H by lia. rewrite H.
  rewrite take_app_length'; [done|lia].
Qed.

Lemma load_entries_keep_last now (C : nat) st0 raw :
  store_wf st0 → LRUCache.list_ (KVStore.cache_ st0) = [] →
  LRUCache.capacity_ (KVStore.cache_ st0) = C →
  NoDup (key <$> filter (λ e, ttl_ms e ≠ 0) raw) →
  store_wf (foldl (KVStore.load_entry now) st0 raw) ∧
  LRUCache.capacity_ (KVStore.cache_ (foldl (KVStore.load_entry now) st0 raw)) = C ∧
  LRUCache.list_ (KVStore.cache_ (foldl (KVStore.load_entry now) st0 raw))
    = take C (reverse (entry_node <$> filter (λ e, ttl_ms e ≠ 0) raw)).
Proof.
  intros Hwf0 Hempty HC. induction raw as [|e raw IH] using rev_ind; intros Hnd.
  - cbn [foldl]. rewrite Hempty, filter_nil. split_and!; [done|done|].
    change (reverse (entry_node <$> [])) with (@nil (string * string)).
    by rewrite take_nil.
  - rewrite filter_app in Hnd |- *. rewrite foldl_app. cbn [foldl].
    rewrite filter_cons, filter_nil in Hnd |- *.
    set (st := foldl (KVStore.load_entry now) st0 raw) in *.
    destruct (decide (ttl_ms e ≠ 0)) as [Hnz|Hz].
    + rewrite fmap_app, NoDup_app in Hnd. destruct Hnd as (Hnd & Hdisj & _).
      destruct (IH Hnd) as (Hwf & Hcap & Hl).
      rewrite fmap_app, reverse_app. cbn [fmap list_fmap reverse]. 
      change (reverse [entry_node e]) with [entry_node e]. cbn [app].
      set (R := reverse (entry_node <$> filter (λ e, ttl_ms e ≠ 0) raw)) in *.
      assert (key e ∉ keys_of (LRUCache.list_ (KVStore.cache_ st))) as Hfresh.
      { rewrite Hl. intros Hin. unfold keys_of in Hin.
        apply list_elem_of_fmap in Hin as ([k v] & Hk & Hin). cbn [fst] in Hk.
        apply elem_of_take in Hin as (i & Hi & _). apply list_elem_of_lookup_2 in Hi.
        subst R. apply elem_of_reverse, list_elem_of_fmap in Hi as (e' & He' & Hin').
        apply (Hdisj (key e')).
        - by apply list_elem_of_fmap_2.
        - unfold entry_node in He'. injection He' as Hke _.
          apply list_elem_of_singleton. congruence. }
      unfold store_wf. rewrite load_entry_cache, decide_False by done.
      destruct (set_cases (key e) (value e) _ Hwf) as [Hout Hwf'].
      split; [done|]. split; [by rewrite capacity_set|]. revert Hwf'.
      destruct Hout as [l1 v0 l2 m Hl1 _|m _ Hlt|l0 k' v' m _ Hfull Hl0]; intros Hwf'.
      * exfalso. apply Hfresh. rewrite Hl1, keys_of_app, keys_of_cons.
        apply elem_of_app. right. by apply elem_of_cons; left.
      * cbn [LRUCache.list_]. rewrite Hl in Hlt |- *. rewrite Hcap in Hlt.
        rewrite length_take in Hlt.
        rewrite (take_ge R) by lia. rewrite take_ge; [done|]. simpl. lia.
      * cbn [LRUCache.list_]. rewrite Hcap in Hfull. symmetry.
        apply (take_snoc_evict C _ (k', v')).
        -- by rewrite <- Hl0, Hl.
        -- by rewrite <- Hl0.
    + rewrite app_nil_r in Hnd |- *. destruct (IH Hnd) as (Hwf & Hcap & Hl).
      unfold store_wf. rewrite load_entry_cache, decide_True; [done|].
      destruct (decide (ttl_ms e = 0)); [done|tauto].
Qed.

(** X16: load clears the cache and then inserts the records whose TTL is
    not 0, one after the other; when their keys are distinct and there are
    more of them than the capacity C, the store keeps the last C of them in
    file order (the least recently used ones when the file was saved), the
    last record most recently used.  In general entries() is the first C
    of these records taken from the end of the file backwards. *)
Theorem load_keeps_last_records (filename : string) (now : Z)
    (mem : vector.allocator) (fs : gmap string (list byte)) (st : KVStore.t)
    (raw : list SnapshotEntry) :
  store_wf st →
  PersistenceEngine.load filename mem fs = Ok raw →
  NoDup (key <$> filter (λ e, ttl_ms e ≠ 0) raw) →
  LRUCache.entries (KVStore.cache_ (KVStore.load filename now mem fs st).2)
    = take (KVStore.capacity st)
           (reverse (entry_node <$> filter (λ e, ttl_ms e ≠ 0) raw)).
Proof.
  intros Hwf Hraw Hnd. unfold KVStore.load. rewrite Hraw. cbn [snd].
  unfold LRUCache.entries.
  by apply load_entries_keep_last; [apply clear_wf|..].
Qed.

Lemma load_keeps_last_records_witness :
  LRUCache.entries (KVStore.cache_
      (KVStore.load "snapshot.bin" 0 roomy
         {["snapshot.bin" := PersistenceEngine.image
             [mkEntry "a" "1" (-1); mkEntry "b" "2" (-1); mkEntry "c" "3" (-1)]]}
         demo_store).2)
    = take (KVStore.capacity demo_store)
           (reverse (entry_node <$> filter (λ e, ttl_ms e ≠ 0)
              [mkEntry "a" "1" (-1); mkEntry "b" "2" (-1); mkEntry "c" "3" (-1)])).
Proof.
  apply (load_keeps_last_records "snapshot.bin" 0 roomy
           {["snapshot.bin" := PersistenceEngine.image
               [mkEntry "a" "1" (-1); mkEntry "b" "2" (-1); mkEntry "c" "3" (-1)]]}
           demo_store [mkEntry "a" "1" (-1); mkEntry "b" "2" (-1); mkEntry "c" "3" (-1)]).
  - apply demo_store_wf.
  - by vm_compute.
  - vm_compute. repeat constructor; set_solver.
Defined.

(** ** The snapshot codec (persistence.h) *)

Lemma le_value_bound bs : 0 <= le_value bs < 256 ^ Z.of_nat (length bs).
Proof.
  induction bs as [|b bs IH].
  - simpl. lia.
  - cbn [le_value length]. rewrite Nat2Z.inj_succ, Z.pow_succ_r by lia.
    pose proof (byte_to_Z_range b). lia.
Qed.

Lemma byte_of_to_Z b : byte_of_Z (byte_to_Z b) = b.
Proof.
  unfold byte_of_Z, byte_to_Z. pose proof (Byte.to_N_bounded b).
  rewrite Z.mod_small by lia. rewrite N2Z.id. by rewrite Byte.of_to_N.
Qed.

Lemma le_bytes_value bs : le_bytes (length bs) (le_value bs) = bs.
Proof.
  induction bs as [|b bs IH]; [done|]. cbn [length le_value le_bytes].
  pose proof (byte_to_Z_range b) as Hb.
  assert (byte_of_Z (byte_to_Z b + 256 * le_value bs) = b) as ->.
  { rewrite <- (byte_of_to_Z b) at 2. unfold byte_of_Z.
    replace ((byte_to_Z b + 256 * le_value bs) mod 256) with (byte_to_Z b mod 256); [done|].
    rewrite (Z.mul_comm 256), Z.mod_add by lia. done. }
  f_equal. rewrite (Z.mul_comm 256), Z.div_add by lia. rewrite Z.div_small by lia.
  rewrite Z.add_0_l. apply IH.
Qed.

Lemma read_at file off n :
  ifstream.read n (stream_at file off)
    = (take n (drop off file), stream_at file (off + n)).
Proof.
  unfold stream_at. pose proof (length_drop file off) as Hlen.
  destruct (decide (off <= length file)%nat) as [Hoff|Hoff].
  - cbv beta iota zeta delta [ifstream.read ifstream.open ifstream.good ifstream.eofbit
      ifstream.failbit ifstream.content negb andb].
    destruct (decide (n <= length (drop off file))%nat).
    + rewrite decide_True by lia. by rewrite drop_drop.
    + rewrite decide_False by lia. rewrite take_ge; [done|]. lia.
  - rewrite decide_False by lia. rewrite drop_ge by lia. by rewrite take_nil.
Qed.

Lemma read_entries_length n : ∀ acc s es s',
  PersistenceEngine.read_entries n acc s = Ok (es, s') →
  length es = (length acc + n)%nat.
Proof.
  induction n as [|n IH]; intros acc s es s'; cbn [PersistenceEngine.read_entries].
  - intros [= <- _]. lia.
  - destruct (PersistenceEngine.readString s) as [[k s1]|e]; [|done]. rewrite bind_Ok.
    destruct (PersistenceEngine.readString s1) as [[v s2]|e]; [|done]. rewrite bind_Ok.
    destruct (PersistenceEngine.read64 s2) as [t s3]. intros H. apply IH in H.
    rewrite length_app in H. simpl in H. lia.
Qed.

(** The header fields as [load] reads them from [file]. *)
Lemma load_header filename mem (fs : gmap string (list byte)) file :
  fs !! filename = Some file →
  let magic := le_value (take 4 file) in
  let version := le_value (take 4 (drop 4 file)) in
  let count := to_int64 (le_value (take 8 (drop 8 file))) in
  ∃ s,
    fail_at_eof s ∧
    PersistenceEngine.load filename mem fs =
      if decide (magic ≠ PersistenceEngine.MAGIC)
      then Throw (runtime_error "Invalid snapshot file (bad magic)")
      else if decide (version ≠ PersistenceEngine.VERSION)
      then Throw (runtime_error "Unsupported snapshot version")
      else if decide (count < 0)
      then Throw (runtime_error "Corrupt record count")
      else
        _ ← vector.reserve mem count;
        '(entries, s) ← PersistenceEngine.read_entries (Z.to_nat count) [] s;
        if ifstream.fail s && negb (ifstream.eof s)
        then Throw (runtime_error ("Read error on file: " +:+ filename))
        else Ok entries.
Proof.
  intros Hfile. cbn zeta. unfold PersistenceEngine.load. rewrite Hfile.
  unfold PersistenceEngine.read32, PersistenceEngine.read64.
  change (ifstream.open file) with (stream_at file 0).
  rewrite (read_at file 0 4). cbn [Nat.add]. rewrite (read_at file 4 4). cbn [Nat.add].
  rewrite (read_at file 8 8). cbn [Nat.add]. rewrite drop_0.
  exists (stream_at file 16). split; [|done].
  unfold stream_at. destruct (decide _); [apply open_fail_at_eof|by intros _].
Qed.

(** X17: save succeeds exactly when the file can be opened for writing
    and the device takes the whole snapshot; a list of records whose strings
    are at most 1 MiB long and whose TTLs are 64-bit values, once saved, is
    read back by load exactly as it was written, provided load finds
    storage for the records. *)
Theorem snapshot_codec_roundtrip (filename : string) (es : list SnapshotEntry)
    (dev : ofstream.device) (mem : vector.allocator) (fs : gmap string (list byte)) :
  Forall entry_portable es → Z.of_nat (length es) < 2 ^ 63 →
  ((PersistenceEngine.save filename es dev fs).1 = Ok ()
   ↔ ofstream.can_open dev filename = true ∧
     (length (PersistenceEngine.image es) <= ofstream.room dev)%nat) ∧
  ((PersistenceEngine.save filename es dev fs).1 = Ok () →
   vector.reserve mem (Z.of_nat (length es)) = Ok () →
   PersistenceEngine.load filename mem (PersistenceEngine.save filename es dev fs).2
     = Ok es).
Proof.
  intros Hes Hlen. rewrite save_outcome.
  destruct (ofstream.can_open dev filename); [|by split; [split; [|intros []]|]].
  destruct (decide _) as [Hfit|Hfit]; cbn [fst snd].
  - split; [done|]. intros _ Hmem. by apply load_image.
  - split; [|done]. split; [done|]. by intros [_ ?].
Qed.

Lemma snapshot_codec_roundtrip_witness :
  ((PersistenceEngine.save "snapshot.bin" [mkEntry "k" "v" (-1); mkEntry "" "" 1500]
      disk ∅).1 = Ok ()
   ↔ ofstream.can_open disk "snapshot.bin" = true ∧
     (length (PersistenceEngine.image [mkEntry "k" "v" (-1); mkEntry "" "" 1500])
        <= ofstream.room disk)%nat) ∧
  ((PersistenceEngine.save "snapshot.bin" [mkEntry "k" "v" (-1); mkEntry "" "" 1500]
      disk ∅).1 = Ok () →
   vector.reserve roomy (Z.of_nat (length [mkEntry "k" "v" (-1); mkEntry "" "" 1500]))
     = Ok () →
   PersistenceEngine.load "snapshot.bin" roomy
     (PersistenceEngine.save "snapshot.bin" [mkEntry "k" "v" (-1); mkEntry "" "" 1500]
        disk ∅).2
     = Ok [mkEntry "k" "v" (-1); mkEntry "" "" 1500]).
Proof.
  apply (snapshot_codec_roundtrip "snapshot.bin"
           [mkEntry "k" "v" (-1); mkEntry "" "" 1500] disk roomy ∅).
  - repeat constructor; simpl; lia.
  - simpl. lia.
Defined.

(** X18: load rejects with the bad-magic error exactly the files that do not
    begin with the four bytes 'B' 'D' 'S' 'C' (the magic 0x43534442, least
    significant byte first); this includes the empty file and every file
    shorter than four bytes. *)
Theorem load_checks_magic (filename : string) (mem : vector.allocator)
    (fs : gmap string (list byte)) (file : list byte) :
  fs !! filename = Some file →
  PersistenceEngine.load filename mem fs
    = Throw (runtime_error "Invalid snapshot file (bad magic)")
  ↔ take 4 file ≠ ["B"; "D"; "S"; "C"]%byte.
Proof.
  intros Hfile. destruct (load_header filename mem fs file Hfile) as (s & Hs & ->).
  assert (le_value (take 4 file) = PersistenceEngine.MAGIC
          ↔ take 4 file = ["B"; "D"; "S"; "C"]%byte) as Hmagic.
  { split.
    - intros Hv. pose proof (le_value_bound (take 4 file)) as Hb.
      pose proof (le_bytes_value (take 4 file)) as Hinv. rewrite Hv in Hb, Hinv.
      pose proof (length_take_le file 4) as Hlen'.
      assert (length (take 4 file) <= 4)%nat as Hlen by (rewrite length_take; lia).
      destruct (decide (length (take 4 file) = 4%nat)) as [H4|H4].
      + rewrite H4 in Hinv. by rewrite <- Hinv.
      + exfalso. unfold PersistenceEngine.MAGIC in Hb.
        assert (256 ^ Z.of_nat (length (take 4 file)) <= 256 ^ 3)
          by (apply Z.pow_le_mono_r; lia). lia.
    - by intros ->. }
  destruct (decide (le_value (take 4 file) ≠ PersistenceEngine.MAGIC)) as [Hne|Heq].
  - split; [|done]. intros _. by rewrite <- Hmagic.
  - split; [|intros Hne; exfalso; apply Hne, Hmagic; by destruct (decide
      (le_value (take 4 file) = PersistenceEngine.MAGIC)); [|tauto]].
    intros Hthrow. exfalso.
    destruct (decide (_ ≠ PersistenceEngine.VERSION)); [done|].
    destruct (decide (_ < 0)); [done|].
    destruct (vector.reserve mem _) as [[]|e0] eqn:Hmem.
    2:{ by apply reserve_throws in Hmem as [-> | ->]. }
    rewrite bind_Ok in Hthrow.
    pose proof (read_entries_outcome
      (Z.to_nat (to_int64 (le_value (take 8 (drop 8 file))))) [] s Hs) as Hout.
    destruct (PersistenceEngine.read_entries _ _ _) as [[es s']|e].
    + rewrite bind_Ok in Hthrow. by destruct (_ && _).
    + by subst e.
Qed.

Lemma load_checks_magic_witness :
  PersistenceEngine.load "snapshot.bin" roomy {["snapshot.bin" := []]}
    = Throw (runtime_error "Invalid snapshot file (bad magic)")
  ↔ take 4 [] ≠ ["B"; "D"; "S"; "C"]%byte.
Proof.
  by apply (load_checks_magic "snapshot.bin" roomy {["snapshot.bin" := []]} []).
Defined.

(** X19: whenever load returns, the file begins with the magic bytes, its
    version field reads 1, and the list returned has exactly as many
    records as the count field of the header says, whether or not the file
    holds that many. *)
Theorem load_returns_declared_count (filename : string) (mem : vector.allocator)
    (fs : gmap string (list byte)) (file : list byte) (es : list SnapshotEntry) :
  fs !! filename = Some file →
  PersistenceEngine.load filename mem fs = Ok es →
  le_value (take 4 file) = PersistenceEngine.MAGIC ∧
  le_value (take 4 (drop 4 file)) = PersistenceEngine.VERSION ∧
  Z.of_nat (length es) = to_int64 (le_value (take 8 (drop 8 file))).
Proof.
  intros Hfile. destruct (load_header filename mem fs file Hfile) as (s & Hs & ->).
  destruct (decide (_ ≠ PersistenceEngine.MAGIC)) as [|Hm]; [done|].
  destruct (decide (_ ≠ PersistenceEngine.VERSION)) as [|Hv]; [done|].
  destruct (decide (_ < 0)) as [|Hc]; [done|].
  destruct (vector.reserve mem _) as [[]|e0]; [rewrite bind_Ok|done].
  destruct (PersistenceEngine.read_entries _ _ _) as [[es' s']|e] eqn:Hread; [|done].
  rewrite bind_Ok. destruct (_ && _); [done|]. intros [= <-].
  apply read_entries_length in Hread. simpl in Hread.
  split_and!; [by destruct (decide (le_value (take 4 file) = PersistenceEngine.MAGIC));
    [|tauto]| |lia].
  by destruct (decide (le_value (take 4 (drop 4 file)) = PersistenceEngine.VERSION));
    [|tauto].
Qed.

Lemma load_returns_declared_count_witness :
  le_value (take 4 (take 33 one_record_file)) = PersistenceEngine.MAGIC ∧
  le_value (take 4 (drop 4 (take 33 one_record_file))) = PersistenceEngine.VERSION ∧
  Z.of_nat (length [mkEntry "k" "v" (2 ^ 56 - 1)])
    = to_int64 (le_value (take 8 (drop 8 (take 33 one_record_file)))).
Proof.
  apply (load_returns_declared_count "snapshot.bin" roomy (truncated_to 33)
           (take 33 one_record_file)); by vm_compute.
Defined.

(** X20: load throws nothing but these: the runtime errors for a file that
    cannot be opened (exactly when the path is not there), bad magic,
    unsupported version, corrupt (negative) record count and implausible
    string length; and std::length_error or std::bad_alloc, which come from
    reserving storage for the record count that the header declares. *)
Theorem load_throws_only (filename : string) (mem : vector.allocator)
    (fs : gmap string (list byte)) (e : exn) :
  PersistenceEngine.load filename mem fs = Throw e →
  (e = runtime_error ("Cannot open file for reading: " +:+ filename) ∧
     fs !! filename = None) ∨
  (∃ file, fs !! filename = Some file ∧
     (e ∈ [runtime_error "Invalid snapshot file (bad magic)";
           runtime_error "Unsupported snapshot version";
           runtime_error "Corrupt record count";
           runtime_error "Implausible string length in snapshot"] ∨
      (e = length_error ∨ e = bad_alloc) ∧
      vector.reserve mem (to_int64 (le_value (take 8 (drop 8 file)))) = Throw e)).
Proof.
  destruct (fs !! filename) as [file|] eqn:Hfile.
  - destruct (load_header filename mem fs file Hfile) as (s & Hs & ->).
    intros Hthrow. right. exists file. split; [done|]. rewrite !elem_of_cons.
    destruct (decide (_ ≠ PersistenceEngine.MAGIC)); [left; left; congruence|].
    destruct (decide (_ ≠ PersistenceEngine.VERSION)); [left; right; left; congruence|].
    destruct (decide (_ < 0)); [left; right; right; left; congruence|].
    destruct (vector.reserve mem _) as [[]|e0] eqn:Hmem.
    2:{ injection Hthrow as <-. right. split; [|done]. by eapply reserve_throws. }
    rewrite bind_Ok in Hthrow.
    pose proof (read_entries_outcome
      (Z.to_nat (to_int64 (le_value (take 8 (drop 8 file))))) [] s Hs) as Hout.
    destruct (PersistenceEngine.read_entries _ _ _) as [[es s']|e'].
    + rewrite bind_Ok in Hthrow. unfold ifstream.fail, ifstream.eof in Hthrow.
      destruct (ifstream.failbit s') eqn:Hf; [|done]. by rewrite Hout in Hthrow.
    + injection Hthrow as <-. subst e'. left; right; right; right; left. done.
  - unfold PersistenceEngine.load. rewrite Hfile. intros [= <-]. by left.
Qed.

Lemma load_throws_only_witness :
  (length_error = runtime_error ("Cannot open file for reading: " +:+ "f") ∧
     huge_count_fs !! "f" = None) ∨
  (∃ file, huge_count_fs !! "f" = Some file ∧
     (length_error
        ∈ [runtime_error "Invalid snapshot file (bad magic)";
           runtime_error "Unsupported snapshot version";
           runtime_error "Corrupt record count";
           runtime_error "Implausible string length in snapshot"] ∨
      (length_error = length_error ∨ length_error = bad_alloc) ∧
      vector.reserve roomy (to_int64 (le_value (take 8 (drop 8 file))))
        = Throw length_error)).
Proof. apply (load_throws_only "f" roomy huge_count_fs). by vm_compute. Defined.

Lemma oversized_value_length :
  String.length oversized_value = (1024 * 1024 + 1)%nat.
Proof.
  unfold oversized_value. generalize (1024 * 1024 + 1)%nat. intros n.
  induction n as [|n IH]; [done|]. cbn [replicate String.string_of_list_ascii String.length].
  by rewrite IH.
Qed.

Lemma readString_oversized s rest :
  1024 * 1024 < Z.of_nat (String.length s) < 2 ^ 32 →
  PersistenceEngine.readString (ifstream.open (PersistenceEngine.writeString s ++ rest))
    = Throw implausible_length.
Proof.
  intros Hs. unfold PersistenceEngine.readString, PersistenceEngine.writeString.
  rewrite Z.mod_small by lia. rewrite <- app_assoc, read32_write32 by lia.
  by rewrite decide_True by lia.
Qed.

Lemma read_entries_oversized es1 e es2 rest :
  Forall entry_portable es1 → entry_oversized e →
  ∀ acc,
    PersistenceEngine.read_entries (length (es1 ++ e :: es2)) acc
      (ifstream.open (concat (PersistenceEngine.write_entry <$> es1 ++ e :: es2) ++ rest))
    = Throw implausible_length.
Proof.
  intros Hes1 He. induction Hes1 as [|e1 es1 (Hk & Hv & Ht) Hes1 IH]; intros acc.
  - cbn [app length fmap list_fmap concat PersistenceEngine.read_entries].
    unfold PersistenceEngine.write_entry at 1. rewrite <- !app_assoc.
    destruct He as [Hk|[Hk Hv]].
    + by rewrite readString_oversized.
    + rewrite readString_writeString, bind_Ok by done.
      by rewrite readString_oversized.
  - cbn [app length fmap list_fmap concat PersistenceEngine.read_entries].
    unfold PersistenceEngine.write_entry at 1. rewrite <- !app_assoc.
    rewrite readString_writeString, bind_Ok by done.
    rewrite readString_writeString, bind_Ok by done.
    rewrite read64_write64 by done. apply IH.
Qed.

(** X21: save writes a string of any length below 4 GiB, but load accepts
    strings of at most 1 MiB: when the file can be opened and the device
    takes the bytes, save succeeds on a list with a key or value longer than
    1 MiB, and load (with storage for the records) rejects the file it
    wrote with the implausible-length error, the records before that one
    being read back. *)
Theorem oversized_string_not_loaded (filename : string) (es1 es2 : list SnapshotEntry)
    (e : SnapshotEntry) (dev : ofstream.device) (mem : vector.allocator)
    (fs : gmap string (list byte)) :
  Forall entry_portable es1 → entry_oversized e →
  Z.of_nat (length (es1 ++ e :: es2)) < 2 ^ 63 →
  ofstream.can_open dev filename = true →
  (length (PersistenceEngine.image (es1 ++ e :: es2)) <= ofstream.room dev)%nat →
  vector.reserve mem (Z.of_nat (length (es1 ++ e :: es2))) = Ok () →
  (PersistenceEngine.save filename (es1 ++ e :: es2) dev fs).1 = Ok () ∧
  PersistenceEngine.load filename mem
    (PersistenceEngine.save filename (es1 ++ e :: es2) dev fs).2
    = Throw (runtime_error "Implausible string length in snapshot").
Proof.
  intros Hes1 He Hlen Hopen Hroom Hmem. rewrite save_outcome, Hopen.
  rewrite decide_True by done. cbn [fst snd]. split; [done|].
  unfold PersistenceEngine.load, PersistenceEngine.image. rewrite lookup_insert_eq.
  rewrite read32_write32 by (unfold PersistenceEngine.MAGIC; lia).
  rewrite read32_write32 by (unfold PersistenceEngine.VERSION; lia).
  rewrite decide_False by tauto. rewrite decide_False by tauto.
  rewrite read64_write64 by lia. rewrite decide_False by lia.
  rewrite Hmem, bind_Ok. rewrite Nat2Z.id.
  rewrite <- (app_nil_r (concat _)), read_entries_oversized by done.
  done.
Qed.

Lemma oversized_string_not_loaded_witness :
  (PersistenceEngine.save "snapshot.bin"
     ([mkEntry "a" "1" (-1)] ++ mkEntry "k" oversized_value (-1) :: [])
     large_disk ∅).1 = Ok () ∧
  PersistenceEngine.load "snapshot.bin" roomy
    (PersistenceEngine.save "snapshot.bin"
       ([mkEntry "a" "1" (-1)] ++ mkEntry "k" oversized_value (-1) :: [])
       large_disk ∅).2
    = Throw (runtime_error "Implausible string length in snapshot").
Proof.
  apply (oversized_string_not_loaded "snapshot.bin" [mkEntry "a" "1" (-1)] []
           (mkEntry "k" oversized_value (-1)) large_disk roomy ∅).
  - repeat constructor; simpl; lia.
  - right. cbn [key value]. rewrite oversized_value_length. split; [simpl; lia|lia].
  - simpl. lia.
  - done.
  - done.
  - done.
Defined.

(** ** The command parser (command_parser.h) *)

Lemma chars_app s1 s2 : chars (s1 +:+ s2) = chars s1 ++ chars s2.
Proof.
  unfold chars. induction s1 as [|c s1 IH]; [done|].
  change (c :: String.list_ascii_of_string (s1 +:+ s2)
          = c :: (String.list_ascii_of_string s1 ++ String.list_ascii_of_string s2)).
  by rewrite IH.
Qed.

Lemma chars_inj s1 s2 : chars s1 = chars s2 → s1 = s2.
Proof.
  unfold chars. intros H.
  rewrite <- (String.string_of_list_ascii_of_string s1),
    <- (String.string_of_list_ascii_of_string s2). by rewrite H.
Qed.

Lemma append_empty_r s : s +:+ "" = s.
Proof.
  induction s as [|c s IH]; [done|]. change (String c (s +:+ "") = String c s).
  by rewrite IH.
Qed.

Lemma append_assoc_string s1 s2 s3 : (s1 +:+ s2) +:+ s3 = s1 +:+ (s2 +:+ s3).
Proof.
  induction s1 as [|c s1 IH]; [done|].
  change (String c ((s1 +:+ s2) +:+ s3) = String c (s1 +:+ (s2 +:+ s3))).
  by rewrite IH.
Qed.

Lemma append_nonempty tok c : tok +:+ String c "" ≠ "".
Proof. by destruct tok. Qed.

Lemma no_space_snoc tok c :
  no_space tok → CommandParser.isspace c = false → no_space (tok +:+ String c "").
Proof.
  unfold no_space. rewrite chars_app. intros Htok Hc. apply Forall_app. split; [done|].
  by repeat constructor.
Qed.

Lemma scan_tokens s : ∀ tok t,
  no_space tok → t ∈ CommandParser.scan s tok → t ≠ "" ∧ no_space t.
Proof.
  induction s as [|c s IH]; intros tok t Htok; cbn [CommandParser.scan].
  - destruct (decide (tok = "")); [by intros ?%elem_of_nil|].
    by intros ->%list_elem_of_singleton.
  - destruct (CommandParser.isspace c) eqn:Hc.
    + destruct (decide (tok = "")) as [->|Hne]; [by apply IH|].
      intros [->|Hin]%elem_of_cons; [done|]. by apply (IH ""); [constructor|].
    + apply IH. by apply no_space_snoc.
Qed.

(** X22: every token that tokenise returns is non-empty and holds no white
    space (space, tab, line feed, vertical tab, form feed, carriage
    return). *)
Theorem tokenise_tokens (input t : string) :
  t ∈ CommandParser.tokenise input →
  t ≠ "" ∧ ∀ c, c ∈ chars t → CommandParser.isspace c = false.
Proof.
  intros Hin. apply scan_tokens in Hin as [Hne Hns]; [|constructor].
  split; [done|]. intros c Hc. unfold no_space in Hns. rewrite Forall_forall in Hns.
  by apply Hns.
Qed.

Lemma tokenise_tokens_witness :
  "name" ≠ "" ∧ ∀ c, c ∈ chars "name" → CommandParser.isspace c = false.
Proof.
  apply (tokenise_tokens " SET  name Bhanu " "name"). vm_compute.
  apply elem_of_cons. right. apply elem_of_cons. by left.
Defined.

Lemma tokenise_Forall input :
  Forall (λ t, t ≠ "" ∧ no_space t) (CommandParser.tokenise input).
Proof. apply Forall_forall. intros t Ht. by apply scan_tokens in Ht; [|constructor]. Qed.

Lemma read_ttl_range tok n : CommandParser.read_ttl tok = Some n → 0 < n < 2 ^ 63.
Proof.
  unfold CommandParser.read_ttl, CommandParser.stoll.
  destruct (match CommandParser.skip_space tok with
            | String "-" s' => (true, s')
            | String "+" s' => (false, s')
            | _ => (false, CommandParser.skip_space tok)
            end) as [negative s'].
  destruct (CommandParser.leading_digits s') as [|d ds]; [done|].
  destruct (decide (_ <= _ < _)) as [Hr|]; [|done].
  destruct (decide (_ <= 0)); [done|]. intros [= <-]. lia.
Qed.

Lemma parse_wellformed (input : string) (cmd : CommandParser.Command) :
  CommandParser.parse input = Ok cmd →
  CommandParser.raw cmd = input ∧
  match CommandParser.type cmd with
  | CommandParser.SET =>
      CommandParser.key cmd ≠ "" ∧ no_space (CommandParser.key cmd) ∧
      CommandParser.value cmd ≠ "" ∧ no_space (CommandParser.value cmd) ∧
      (CommandParser.ttl cmd = -1 ∨ 0 < CommandParser.ttl cmd < 2 ^ 63)
  | CommandParser.GET | CommandParser.DEL | CommandParser.TTL =>
      CommandParser.key cmd ≠ "" ∧ no_space (CommandParser.key cmd) ∧
      CommandParser.value cmd = "" ∧ CommandParser.ttl cmd = -1
  | _ =>
      CommandParser.key cmd = "" ∧ CommandParser.value cmd = "" ∧
      CommandParser.ttl cmd = -1
  end.
Proof.
  unfold CommandParser.parse. pose proof (tokenise_Forall input) as Htok.
  destruct (CommandParser.tokenise input) as [|verb0 args]; [by intros [= <-]|].
  apply Forall_cons in Htok as [_ Hargs].
  repeat (destruct (decide _); [|]).
  - destruct args as [|k [|v rest]]; [done|done|].
    apply Forall_cons in Hargs as [[Hk Hks] Hargs].
    apply Forall_cons in Hargs as [[Hv Hvs] Hargs].
    destruct rest as [|ex [|secs rest]]; [intros [= <-]; cbn; auto 10..|].
    destruct (decide _); [|intros [= <-]; cbn; auto 10].
    destruct (CommandParser.read_ttl secs) as [n|] eqn:Hn; [|done].
    apply read_ttl_range in Hn. intros [= <-]. cbn. auto 10.
  - destruct args as [|k rest]; [done|]. apply Forall_cons in Hargs as [[Hk Hks] _].
    by intros [= <-].
  - destruct args as [|k rest]; [done|]. apply Forall_cons in Hargs as [[Hk Hks] _].
    by intros [= <-].
  - destruct args as [|k rest]; [done|]. apply Forall_cons in Hargs as [[Hk Hks] _].
    by intros [= <-].
  - by intros [= <-].
  - by intros [= <-].
  - by intros [= <-].
  - by intros [= <-].
  - by intros [= <-].
  - by intros [= <-].
Qed.

(** X23: a command that parse returns carries the input line as raw; for
    SET, GET, DEL and TTL its key is a token of the line, hence never empty
    and free of white space, and so is the value of a SET; the TTL of a SET
    is -1 (none) or a positive 64-bit number; the other fields have their
    defaults (empty strings, TTL -1). *)
Theorem parse_fields (input : string) (cmd : CommandParser.Command) :
  CommandParser.parse input = Ok cmd →
  CommandParser.raw cmd = input ∧
  match CommandParser.type cmd with
  | CommandParser.SET =>
      CommandParser.key cmd ≠ "" ∧ no_space (CommandParser.key cmd) ∧
      CommandParser.value cmd ≠ "" ∧ no_space (CommandParser.value cmd) ∧
      (CommandParser.ttl cmd = -1 ∨ 0 < CommandParser.ttl cmd < 2 ^ 63)
  | CommandParser.GET | CommandParser.DEL | CommandParser.TTL =>
      CommandParser.key cmd ≠ "" ∧ no_space (CommandParser.key cmd) ∧
      CommandParser.value cmd = "" ∧ CommandParser.ttl cmd = -1
  | _ =>
      CommandParser.key cmd = "" ∧ CommandParser.value cmd = "" ∧
      CommandParser.ttl cmd = -1
  end.
Proof. apply parse_wellformed. Qed.

Lemma parse_fields_witness :
  CommandParser.raw (CommandParser.mkCommand CommandParser.SET "name" "Bhanu" 30
                       "set name Bhanu ex 30") = "set name Bhanu ex 30" ∧
  "name" ≠ "" ∧ no_space "name" ∧ "Bhanu" ≠ "" ∧ no_space "Bhanu" ∧
  (30 = -1 ∨ 0 < 30 < 2 ^ 63).
Proof.
  apply (parse_fields "set name Bhanu ex 30"
           (CommandParser.mkCommand CommandParser.SET "name" "Bhanu" 30
              "set name Bhanu ex 30")).
  by vm_compute.
Defined.

(** X24: parse throws nothing but invalid_argument with one of the four
    usage messages or with "Invalid TTL value: " followed by the token
    given as the TTL; the message "TTL must be positive" of the inner throw
    never leaves parse.  A line whose first token is not SET, GET, DEL,
    DELETE or TTL (in any case) never throws. *)
Theorem parse_throws_only (input : string) (e : exn) :
  CommandParser.parse input = Throw e →
  (∃ verb args, CommandParser.tokenise input = verb :: args ∧
     CommandParser.toUpper verb ∈ ["SET"; "GET"; "DEL"; "DELETE"; "TTL"]) ∧
  (e ∈ [invalid_argument "Usage: SET <key> <value> [EX <seconds>]";
        invalid_argument "Usage: GET <key>";
        invalid_argument "Usage: DEL <key>";
        invalid_argument "Usage: TTL <key>"] ∨
   ∃ tok, tok ∈ CommandParser.tokenise input ∧
          e = invalid_argument ("Invalid TTL value: " +:+ tok)).
Proof.
  unfold CommandParser.parse.
  destruct (CommandParser.tokenise input) as [|verb0 args]; [done|].
  destruct (decide (_ = "SET")) as [Hset|].
  { intros H. split; [exists verb0, args; split; [done|]; rewrite Hset; set_solver|].
    destruct args as [|k [|v rest]]; [injection H as <-; left; set_solver..|].
    destruct rest as [|ex [|secs rest]]; [done..|].
    destruct (decide _); [|done].
    destruct (CommandParser.read_ttl secs); [done|]. injection H as <-.
    right. exists secs. split; [|done]. set_solver. }
  destruct (decide (_ = "GET")) as [Hget|].
  { intros H. split; [exists verb0, args; split; [done|]; rewrite Hget; set_solver|].
    destruct args; [|done]. injection H as <-. left. set_solver. }
  destruct (decide (_ = "DEL" ∨ _ = "DELETE")) as [Hdel|].
  { intros H. split; [exists verb0, args; split; [done|]; destruct Hdel as [->| ->];
      set_solver|].
    destruct args; [|done]. injection H as <-. left. set_solver. }
  destruct (decide (_ = "TTL")) as [Httl|].
  { intros H. split; [exists verb0, args; split; [done|]; rewrite Httl; set_solver|].
    destruct args; [|done]. injection H as <-. left. set_solver. }
  by repeat (destruct (decide _); [done|]).
Qed.

Lemma parse_throws_only_witness :
  (∃ verb args, CommandParser.tokenise "SET k v EX -5" = verb :: args ∧
     CommandParser.toUpper verb ∈ ["SET"; "GET"; "DEL"; "DELETE"; "TTL"]) ∧
  (invalid_argument "Invalid TTL value: -5"
     ∈ [invalid_argument "Usage: SET <key> <value> [EX <seconds>]";
        invalid_argument "Usage: GET <key>";
        invalid_argument "Usage: DEL <key>";
        invalid_argument "Usage: TTL <key>"] ∨
   ∃ tok, tok ∈ CommandParser.tokenise "SET k v EX -5" ∧
          invalid_argument "Invalid TTL value: -5"
            = invalid_argument ("Invalid TTL value: " +:+ tok)).
Proof. apply (parse_throws_only "SET k v EX -5"). by vm_compute. Defined.

(** ** The read loop of main (main.cpp) *)

Lemma chars_substring s : ∀ n m,
  chars (String.substring n m s) = take m (drop n (chars s)).
Proof.
  induction s as [|c s IH]; intros [|n] [|m]; try done.
  - change (c :: chars (String.substring 0 m s) = c :: take m (drop 0 (chars s))).
    by rewrite IH.
  - apply (IH n 0%nat).
  - apply (IH n (S m)).
Qed.

Lemma chars_of_list l : chars (String.string_of_list_ascii l) = l.
Proof. apply String.list_ascii_of_string_of_list_ascii. Qed.

Lemma chars_length s : length (chars s) = String.length s.
Proof. induction s as [|c s IH]; [done|]. simpl. by rewrite <- IH. Qed.

Lemma is_blank_isspace c : is_blank c = true → CommandParser.isspace c = true.
Proof.
  unfold is_blank, CommandParser.isspace. generalize (nat_of_ascii c). intros n H.
  repeat match goal with
         | H : _ || _ = true |- _ => apply orb_true_iff in H as [H|H]
         end; apply Nat.eqb_eq in H as ->; done.
Qed.

Lemma find_first_not_of_spec s :
  match find_first_not_of s with
  | None => Forall (λ c, is_blank c = true) (chars s)
  | Some nf => Forall (λ c, is_blank c = true) (take nf (chars s)) ∧
               ∃ c, chars s !! nf = Some c ∧ is_blank c = false
  end.
Proof.
  induction s as [|c s IH]; [by constructor|]. cbn [find_first_not_of].
  destruct (is_blank c) eqn:Hc.
  - destruct (find_first_not_of s) as [nf|]; cbn.
    + destruct IH as [Hpre Hat]. split; [by constructor|done].
    + by constructor.
  - split; [by constructor|]. by exists c.
Qed.

Lemma find_last_not_of_spec s :
  match find_last_not_of s with
  | None => Forall (λ c, is_blank c = true) (chars s)
  | Some nl => Forall (λ c, is_blank c = true) (drop (S nl) (chars s)) ∧
               ∃ c, chars s !! nl = Some c ∧ is_blank c = false
  end.
Proof.
  induction s as [|c s IH]; [by constructor|]. cbn [find_last_not_of].
  destruct (find_last_not_of s) as [nl|]; [done|].
  destruct (is_blank c) eqn:Hc; [by constructor|].
  split; [done|]. by exists c.
Qed.

Lemma scan_space_prefix pre s :
  Forall (λ c, CommandParser.isspace c = true) (chars pre) →
  CommandParser.scan (pre +:+ s) "" = CommandParser.scan s "".
Proof.
  induction pre as [|c pre IH]; [done|]. intros [Hc Hpre]%Forall_cons.
  change (String c pre +:+ s) with (String c (pre +:+ s)).
  cbn [CommandParser.scan]. rewrite Hc. by apply IH.
Qed.

Lemma scan_space_only post : ∀ tok,
  Forall (λ c, CommandParser.isspace c = true) (chars post) →
  CommandParser.scan post tok = CommandParser.scan "" tok.
Proof.
  induction post as [|c post IH]; [done|]. intros tok [Hc Hpost]%Forall_cons.
  cbn [CommandParser.scan]. rewrite Hc, (IH "" Hpost). cbn [CommandParser.scan].
  by destruct (decide (tok = "")).
Qed.

Lemma scan_space_suffix post s : ∀ tok,
  Forall (λ c, CommandParser.isspace c = true) (chars post) →
  CommandParser.scan (s +:+ post) tok = CommandParser.scan s tok.
Proof.
  induction s as [|c s IH]; intros tok Hpost; [by apply scan_space_only|].
  change (String c s +:+ post) with (String c (s +:+ post)).
  cbn [CommandParser.scan]. by rewrite !IH.
Qed.

(** X25: the trimming at the head of the read loop skips a line exactly
    when all its characters are among space, tab, carriage return and line
    feed; otherwise the line handed on is the input without a blank prefix
    and a blank suffix, begins and ends with a character that is not blank,
    and has the tokens of the input line. *)
Theorem trim_line_spec (line : string) :
  match trim_line line with
  | None => Forall (λ c, is_blank c = true) (chars line)
  | Some t =>
      (∃ pre post, line = pre +:+ t +:+ post ∧
         Forall (λ c, is_blank c = true) (chars pre) ∧
         Forall (λ c, is_blank c = true) (chars post)) ∧
      (∃ c, head (chars t) = Some c ∧ is_blank c = false) ∧
      (∃ c, last (chars t) = Some c ∧ is_blank c = false) ∧
      CommandParser.tokenise t = CommandParser.tokenise line
  end.
Proof.
  unfold trim_line. pose proof (find_first_not_of_spec line) as Hf.
  pose proof (find_last_not_of_spec line) as Hl.
  destruct (find_first_not_of line) as [nf|]; [|done].
  destruct Hf as [Hpre (cf & Hcf & Hbf)].
  destruct (find_last_not_of line) as [nl|]; last first.
  { rewrite Forall_lookup in Hl. specialize (Hl _ _ Hcf). congruence. }
  destruct Hl as [Hpost (cl & Hcl & Hbl)].
  assert (nf ≤ nl)%nat as Hle.
  { destruct (decide (nf ≤ nl)%nat) as [|Hgt]; [done|]. exfalso.
    rewrite Forall_lookup in Hpre. specialize (Hpre nl cl).
    rewrite lookup_take_lt in Hpre by lia. specialize (Hpre Hcl). congruence. }
  pose proof (lookup_lt_Some _ _ _ Hcl) as Hlen.
  set (t := String.substring nf (nl - nf + 1) line).
  assert (chars t = take (nl - nf + 1) (drop nf (chars line))) as Ht
    by apply chars_substring.
  assert (head (chars t) = Some cf) as Hhead.
  { rewrite Ht, Nat.add_1_r. destruct (drop nf (chars line)) as [|c l] eqn:Hd.
    - apply (f_equal length) in Hd. rewrite length_drop in Hd. simpl in Hd. lia.
    - cbn. f_equal. apply (f_equal (λ l, l !! 0%nat)) in Hd.
      rewrite lookup_drop, Nat.add_0_r, Hcf in Hd. by injection Hd as <-. }
  assert (last (chars t) = Some cl) as Hlast.
  { rewrite last_lookup, Ht, length_take, length_drop.
    replace (Init.Nat.pred ((nl - nf + 1) `min` (length (chars line) - nf)))
      with (nl - nf)%nat by lia.
    rewrite lookup_take_lt by lia. rewrite lookup_drop.
    by replace (nf + (nl - nf))%nat with nl by lia. }
  assert (line = String.string_of_list_ascii (take nf (chars line)) +:+ t
                 +:+ String.string_of_list_ascii (drop (S nl) (chars line))) as Hsplit.
  { apply chars_inj. rewrite !chars_app, !chars_of_list, Ht.
    replace (S nl) with (nf + (nl - nf + 1))%nat by lia. rewrite <- drop_drop.
    rewrite <- ?app_assoc. by rewrite !take_drop. }
  destruct (decide (t = "")) as [Hempty|_]; [by rewrite Hempty in Hhead|].
  split; [|split; [by exists cf|split; [by exists cl|]]].
  - eexists _, _. split; [exact Hsplit|]. by rewrite !chars_of_list.
  - unfold CommandParser.tokenise. symmetry.
    etrans; [apply (f_equal (λ s, CommandParser.scan s "") Hsplit)|]. cbv beta.
    rewrite scan_space_prefix
      by (rewrite chars_of_list; eapply Forall_impl; [exact Hpre|];
          apply is_blank_isspace).
    by rewrite scan_space_suffix
      by (rewrite chars_of_list; eapply Forall_impl; [exact Hpost|];
          apply is_blank_isspace).
Qed.

(** ** Sessions of the read loop *)

Lemma set_keys k v c k' :
  cache_wf c →
  k' ∈ keys_of (LRUCache.list_ (LRUCache.set k v c).2) →
  k' = k ∨ k' ∈ keys_of (LRUCache.list_ c).
Proof.
  intros Hwf. destruct (set_cases k v c Hwf) as [Hout _].
  destruct Hout as [l1 v0 l2 m Hl Hl1|m Hk Hlen|l0 k0 v0 m Hk Hlen Hl];
    cbn [LRUCache.list_]; rewrite ?Hl, keys_of_cons, ?keys_of_app, ?keys_of_cons;
    rewrite elem_of_cons, ?elem_of_app, ?elem_of_cons; tauto.
Qed.

Lemma get_keys k c k' :
  cache_wf c →
  k' ∈ keys_of (LRUCache.list_ (LRUCache.get k c).2) ↔ k' ∈ keys_of (LRUCache.list_ c).
Proof.
  intros Hwf. destruct (decide (k ∈ keys_of (LRUCache.list_ c))) as [Hin|Hnin].
  - apply keys_of_split in Hin as (l1 & v0 & l2 & Hl & Hl1).
    rewrite (get_hit k v0 l1 l2) by done. cbn [snd LRUCache.list_].
    rewrite Hl, keys_of_cons, !keys_of_app, keys_of_cons.
    rewrite elem_of_cons, !elem_of_app, elem_of_cons. tauto.
  - by rewrite get_miss.
Qed.

Lemma del_keys k c k' :
  cache_wf c →
  k' ∈ keys_of (LRUCache.list_ (LRUCache.del k c).2) → k' ∈ keys_of (LRUCache.list_ c).
Proof.
  intros Hwf. rewrite del_list by done. intros Hin.
  apply keys_of_elem in Hin as [v Hin]. apply keys_of_elem.
  apply list_elem_of_filter in Hin as [_ Hin]. by exists v.
Qed.

Lemma repl_effect_invariant line now st :
  store_wf st ∧ "" ∉ KVStore.keys st →
  store_wf (repl_effect line now st) ∧ "" ∉ KVStore.keys (repl_effect line now st).
Proof.
  intros [Hwf Hne]. unfold repl_effect.
  destruct (trim_line line) as [t|]; [|done].
  destruct (decide _); [done|].
  destruct (CommandParser.parse t) as [cmd|e] eqn:Hparse; [|done].
  apply parse_wellformed in Hparse as [_ Hfields].
  destruct (CommandParser.type cmd); try done.
  - destruct Hfields as (Hk & _). split; [by apply set_wf|].
    unfold KVStore.keys, LRUCache.entries. rewrite set_cache.
    intros Hin. apply set_keys in Hin as [Heq|Hin]; [congruence|done|done].
  - split.
    + unfold store_wf. rewrite get_cache. by apply (apply_op_wf (OpGet _)).
    + unfold KVStore.keys, LRUCache.entries. rewrite get_cache.
      fold (keys_of (LRUCache.list_ (LRUCache.get (CommandParser.key cmd)
                                       (KVStore.cache_ st)).2)).
      by rewrite get_keys.
  - split.
    + unfold store_wf. rewrite del_cache. by apply (apply_op_wf (OpDel _)).
    + unfold KVStore.keys, LRUCache.entries. rewrite del_cache.
      intros Hin. by apply del_keys in Hin.
  - split; [by apply clear_wf|]. apply not_elem_of_nil.
Qed.

Lemma repl_step_invariant ev st :
  store_wf st ∧ "" ∉ KVStore.keys st →
  store_wf (repl_step st ev) ∧ "" ∉ KVStore.keys (repl_step st ev).
Proof.
  destruct ev as [line now|now|now|k]; cbn [repl_step];
    [apply repl_effect_invariant|..]; intros [Hwf Hne].
  - destruct (sweep_spec now st Hwf) as (Hwf' & Hl & _).
    split; [done|]. unfold KVStore.keys, LRUCache.entries. rewrite Hl.
    fold (keys_of (filter (λ kv : string * string,
                     is_due now (KVStore.ttl_mgr_ st) kv.1 = false)
                     (LRUCache.list_ (KVStore.cache_ st)))).
    intros Hin. apply keys_of_elem in Hin as [v Hin].
    apply list_elem_of_filter in Hin as [_ Hin].
    apply Hne. apply keys_of_elem. by exists v.
  - unfold KVStore.collect. by destruct (TTLManager.wake now (KVStore.ttl_mgr_ st)).
  - split.
    + unfold store_wf. rewrite onExpire_cache. by apply (apply_op_wf (OpDel _)).
    + unfold KVStore.keys, LRUCache.entries. rewrite onExpire_cache.
      intros Hin. by apply del_keys in Hin.
Qed.

(** X26: over a session of the read loop (lines typed, with wake-ups of
    the expiry thread, or their two steps, between them) the store stays
    well formed, and when the empty string is not a resident key at the
    start (it is not in the constructed store) it is not one at any later
    point: no command line stores the empty key. *)
Theorem repl_never_stores_empty_key (events : list repl_event) (st : KVStore.t) :
  store_wf st → "" ∉ KVStore.keys st →
  store_wf (run_repl events st) ∧ "" ∉ KVStore.keys (run_repl events st).
Proof.
  intros Hwf Hne. assert (store_wf st ∧ "" ∉ KVStore.keys st) as H by done.
  clear Hwf Hne. revert st H. unfold run_repl.
  induction events as [|ev events IH]; intros st H; [done|].
  cbn [foldl]. by apply IH, repl_step_invariant.
Qed.

Lemma repl_never_stores_empty_key_witness :
  store_wf (run_repl [ReadLine "  set a 1 ex 5 " 0; ReadLine "SET b 2" 0;
                      WakeUp 6000000000; ReadLine "get b" 6000000000;
                      ReadLine "SET c 3" 6000000000] demo_store) ∧
  "" ∉ KVStore.keys
         (run_repl [ReadLine "  set a 1 ex 5 " 0; ReadLine "SET b 2" 0;
                    WakeUp 6000000000; ReadLine "get b" 6000000000;
                    ReadLine "SET c 3" 6000000000] demo_store).
Proof.
  apply repl_never_stores_empty_key; [apply demo_store_wf|]. vm_compute.
  apply not_elem_of_nil.
Defined.

(** X27: on a well-formed store, a resident key other than the empty
    string that is no longer resident after set(k, v, ttl) is the key that
    set returns as evicted; the eviction counter has gone up by one and the
    key has no deadline left. *)
Theorem set_reports_departure (k v : string) (ttl_seconds now : Z) (st : KVStore.t)
    (k' : string) :
  store_wf st → k' ≠ "" →
  k' ∈ KVStore.keys st →
  k' ∉ KVStore.keys (KVStore.set k v ttl_seconds now st).2 →
  (KVStore.set k v ttl_seconds now st).1 = k' ∧
  KVStore.evictions_ (KVStore.set k v ttl_seconds now st).2
    = incr64 (KVStore.evictions_ st) ∧
  TTLManager.expiry_map_ (KVStore.ttl_mgr_ (KVStore.set k v ttl_seconds now st).2) !! k'
    = None.
Proof.
  intros Hwf Hne Hin Hout.
  assert ((KVStore.set k v ttl_seconds now st).1 = k') as Hev.
  { rewrite set_returns. revert Hin Hout. unfold KVStore.keys, LRUCache.entries.
    rewrite set_cache. destruct (set_cases k v _ Hwf) as [Hcase _].
    fold (keys_of (LRUCache.list_ (KVStore.cache_ st))).
    fold (keys_of (LRUCache.list_ (LRUCache.set k v (KVStore.cache_ st)).2)).
    destruct Hcase as [l1 v0 l2 m Hl Hl1|m Hk Hlen|l0 k0 v0 m Hk Hlen Hl];
      cbn [LRUCache.list_]; rewrite ?Hl, keys_of_cons, ?keys_of_app, ?keys_of_cons;
      rewrite ?elem_of_cons, ?elem_of_app, ?elem_of_cons, ?elem_of_nil.
    - tauto.
    - tauto.
    - intros [?|[?|[]]] ?; [tauto|done]. }
  pose proof (set_evicts_nonempty k v ttl_seconds now 0 st Hwf) as H.
  cbv zeta in H. rewrite Hev in H. destruct (H Hne) as (Hcount & Hdl & _). done.
Qed.

Lemma set_reports_departure_witness :
  (KVStore.set "c" "3" 0 0 (KVStore.set "j" "w" 0 0 one_second_store).2).1 = "k" ∧
  KVStore.evictions_
    (KVStore.set "c" "3" 0 0 (KVStore.set "j" "w" 0 0 one_second_store).2).2
    = incr64 (KVStore.evictions_ (KVStore.set "j" "w" 0 0 one_second_store).2) ∧
  TTLManager.expiry_map_
    (KVStore.ttl_mgr_
       (KVStore.set "c" "3" 0 0 (KVStore.set "j" "w" 0 0 one_second_store).2).2) !! "k"
    = None.
Proof.
  apply (set_reports_departure "c" "3" 0 0
           (KVStore.set "j" "w" 0 0 one_second_store).2 "k").
  - apply set_wf, one_second_store_wf.
  - done.
  - vm_compute. apply elem_of_cons. right. apply elem_of_cons. by left.
  - vm_compute. intros Hin. apply elem_of_cons in Hin as [?|Hin]; [done|].
    apply elem_of_cons in Hin as [?|Hin]; [done|]. by apply elem_of_nil in Hin.
Defined.

(** ** Lines made of words *)

Lemma scan_word t : ∀ s tok,
  no_space t → CommandParser.scan (t +:+ s) tok = CommandParser.scan s (tok +:+ t).
Proof.
  induction t as [|c t IH]; intros s tok Ht.
  - by rewrite append_empty_r.
  - apply Forall_cons in Ht as [Hc Ht].
    change (String c t +:+ s) with (String c (t +:+ s)).
    cbn [CommandParser.scan]. rewrite Hc, IH by done.
    by rewrite append_assoc_string.
Qed.

Lemma scan_unwords ws :
  Forall (λ w, w ≠ "" ∧ no_space w) ws →
  CommandParser.scan (unwords ws) "" = ws.
Proof.
  induction ws as [|w ws IH]; [done|]. intros [[Hne Hns] Hws]%Forall_cons.
  destruct ws as [|w' ws].
  - cbn [unwords]. rewrite <- (append_empty_r w) at 1. rewrite scan_word by done.
    cbn [CommandParser.scan]. change ("" +:+ w) with w. by rewrite decide_False.
  - change (unwords (w :: w' :: ws)) with (w +:+ String " " (unwords (w' :: ws))).
    rewrite scan_word by done. change ("" +:+ w) with w.
    cbn [CommandParser.scan]. change (CommandParser.isspace " ") with true.
    cbn iota. rewrite decide_False by done. by rewrite IH.
Qed.

(** X28: tokenise gives back the words of a line written with single
    spaces between them, each as typed, for words that are not empty and
    hold no white space. *)
Theorem tokenise_unwords (ws : list string) :
  Forall (λ w, w ≠ "" ∧ no_space w) ws →
  CommandParser.tokenise (unwords ws) = ws.
Proof. apply scan_unwords. Qed.

Lemma tokenise_unwords_witness :
  CommandParser.tokenise (unwords ["SET"; "Name"; "Bhanu"]) = ["SET"; "Name"; "Bhanu"].
Proof.
  apply (tokenise_unwords ["SET"; "Name"; "Bhanu"]).
  repeat (apply Forall_cons; split; [split; [done|by repeat constructor]|]).
  apply Forall_nil_2.
Defined.

Lemma toupper_space c :
  CommandParser.isspace c = true → CommandParser.toupper c = c.
Proof.
  unfold CommandParser.isspace, CommandParser.toupper.
  generalize (nat_of_ascii c). intros n H.
  destruct (97 <=? n)%nat eqn:H1; [|done]. destruct (n <=? 122)%nat eqn:H2; [|done].
  apply Nat.leb_le in H1. exfalso.
  apply orb_true_iff in H as [H|H].
  - apply Nat.eqb_eq in H. lia.
  - apply andb_true_iff in H as [_ H]. apply Nat.leb_le in H. lia.
Qed.

Lemma toUpper_word verb :
  CommandParser.toUpper verb ≠ "" → no_space (CommandParser.toUpper verb) →
  verb ≠ "" ∧ no_space verb.
Proof.
  intros Hne Hns. split; [by intros ->|]. clear Hne. revert Hns.
  induction verb as [|c verb IH]; [done|]. cbn [CommandParser.toUpper].
  intros [Hc Hverb]%Forall_cons. apply Forall_cons. split; [|by apply IH].
  destruct (CommandParser.isspace c) eqn:Hsp; [|done].
  rewrite (toupper_space c Hsp) in Hc. congruence.
Qed.

(** X29: the verb of a command is matched in any letter case, and the key
    and the value are stored as typed: for words k and v, the line made of a
    verb that upper-cases to SET, k and v parses to the SET of k and v
    without TTL, and the line made of a verb that upper-cases to GET, DEL,
    DELETE or TTL and k parses to that command on k. *)
Theorem parse_verb_any_case (verb k v : string) :
  (k ≠ "" ∧ no_space k) → (v ≠ "" ∧ no_space v) →
  (CommandParser.toUpper verb = "SET" →
     CommandParser.parse (unwords [verb; k; v])
       = Ok (CommandParser.mkCommand CommandParser.SET k v (-1) (unwords [verb; k; v]))) ∧
  (CommandParser.toUpper verb = "GET" →
     CommandParser.parse (unwords [verb; k])
       = Ok (CommandParser.mkCommand CommandParser.GET k "" (-1) (unwords [verb; k]))) ∧
  (CommandParser.toUpper verb = "DEL" ∨ CommandParser.toUpper verb = "DELETE" →
     CommandParser.parse (unwords [verb; k])
       = Ok (CommandParser.mkCommand CommandParser.DEL k "" (-1) (unwords [verb; k]))) ∧
  (CommandParser.toUpper verb = "TTL" →
     CommandParser.parse (unwords [verb; k])
       = Ok (CommandParser.mkCommand CommandParser.TTL k "" (-1) (unwords [verb; k]))).
Proof.
  intros Hk Hv.
  assert (∀ V, CommandParser.toUpper verb = V → V ≠ "" → no_space V →
               CommandParser.tokenise (unwords [verb; k]) = [verb; k] ∧
               CommandParser.tokenise (unwords [verb; k; v]) = [verb; k; v]) as Htok.
  { intros V HV Hne Hns. rewrite <- HV in Hne, Hns.
    pose proof (toUpper_word verb Hne Hns) as Hverb.
    split; apply scan_unwords; repeat (apply Forall_cons; split; [done|]);
      apply Forall_nil_2. }
  split_and!.
  - intros HV. destruct (Htok _ HV) as [_ Ht]; [done|by repeat constructor|].
    unfold CommandParser.parse. rewrite Ht. cbv zeta. by rewrite HV.
  - intros HV. destruct (Htok _ HV) as [Ht _]; [done|by repeat constructor|].
    unfold CommandParser.parse. rewrite Ht. cbv zeta. by rewrite HV.
  - intros [HV|HV]; (destruct (Htok _ HV) as [Ht _]; [done|by repeat constructor|]);
      unfold CommandParser.parse; rewrite Ht; cbv zeta; by rewrite HV.
  - intros HV. destruct (Htok _ HV) as [Ht _]; [done|by repeat constructor|].
    unfold CommandParser.parse. rewrite Ht. cbv zeta. by rewrite HV.
Qed.

Lemma parse_verb_any_case_witness :
  CommandParser.parse (unwords ["sEt"; "Name"; "Bhanu"])
    = Ok (CommandParser.mkCommand CommandParser.SET "Name" "Bhanu" (-1)
            (unwords ["sEt"; "Name"; "Bhanu"])).
Proof.
  apply (parse_verb_any_case "sEt" "Name" "Bhanu").
  - split; [done|by repeat constructor].
  - split; [done|by repeat constructor].
  - done.
Defined.

(** ** Store operations between the two steps of a wake-up *)

(** X30: a set of a key that the expiry thread has collected, when it runs
    before the callback for that key, is undone by the callback: the set
    takes effect (get returns the new value), then the callback deletes the
    key and counts an expiration, although the deadline of the new set, if
    any, has not been looked at; that deadline stays recorded. *)
Theorem set_before_callback_is_expired (k v : string) (ttl_seconds now now' : Z)
    (st : KVStore.t) :
  store_wf st →
  k ∈ (KVStore.collect now st).1 →
  let st1 := (KVStore.collect now st).2 in
  let st2 := (KVStore.set k v ttl_seconds now' st1).2 in
  let st3 := KVStore.onExpire k st2 in
  (KVStore.get k st2).1 = Some v ∧
  (KVStore.get k st3).1 = None ∧
  (k ∉ KVStore.keys st3) ∧
  KVStore.expirations_ st3 = incr64 (KVStore.expirations_ st) ∧
  TTLManager.expiry_map_ (KVStore.ttl_mgr_ st3) !! k
    = TTLManager.expiry_map_ (KVStore.ttl_mgr_ st2) !! k ∧
  (ttl_seconds > 0 → is_Some (TTLManager.expiry_map_ (KVStore.ttl_mgr_ st3) !! k)).
Proof.
  intros Hwf _ st1 st2 st3.
  assert (store_wf st1) as Hwf1.
  { subst st1. unfold KVStore.collect.
    by destruct (TTLManager.wake now (KVStore.ttl_mgr_ st)). }
  assert (KVStore.expirations_ st1 = KVStore.expirations_ st) as He1.
  { subst st1. unfold KVStore.collect.
    by destruct (TTLManager.wake now (KVStore.ttl_mgr_ st)). }
  assert (store_wf st2) as Hwf2 by (by apply set_wf).
  assert (KVStore.expirations_ st2 = KVStore.expirations_ st) as He2.
  { rewrite <- He1. subst st2. unfold KVStore.set.
    destruct (LRUCache.set k v (KVStore.cache_ st1)) as [ev c].
    by destruct (decide (ev ≠ "")). }
  assert ((k, v) ∈ LRUCache.list_ (KVStore.cache_ st2)) as Hkv.
  { subst st2. rewrite set_cache.
    destruct (set_cases k v (KVStore.cache_ st1) Hwf1) as [Hout _].
    destruct Hout; cbn [LRUCache.list_]; by apply elem_of_cons; left. }
  assert (k ∈ keys_of (LRUCache.list_ (KVStore.cache_ st2))) as Hk
    by (apply keys_of_elem; by exists v).
  destruct (del_removes_only_key_aux k (KVStore.cache_ st2) Hwf2)
    as (_ & Hgone & _ & Hwf3).
  rewrite <- onExpire_cache in Hgone, Hwf3. fold st3 in Hgone, Hwf3.
  assert (k ∉ keys_of (LRUCache.list_ (KVStore.cache_ st3))) as Hk3.
  { intros Hin. apply (contains_resident _ _ Hwf3) in Hin. congruence. }
  split_and!.
  - rewrite store_get_value. by apply get_returns.
  - rewrite store_get_value. by rewrite get_miss.
  - done.
  - rewrite <- He2. subst st3. unfold KVStore.onExpire.
    apply keys_of_split in Hk as (l1 & v0 & l2 & Hl & Hl1).
    by rewrite (del_hit k v0 l1 l2).
  - subst st3. by destruct (onExpire_frame k st2) as [-> _].
  - intros Hpos. subst st3. destruct (onExpire_frame k st2) as [-> _].
    subst st2. rewrite set_ttl_mgr. cbn zeta. rewrite decide_True by done.
    cbn [TTLManager.set TTLManager.expiry_map_]. rewrite lookup_insert_eq. by eexists.
Qed.

Lemma set_before_callback_is_expired_witness :
  let st1 := (KVStore.collect 1100000000 expired_store).2 in
  let st2 := (KVStore.set "b" "new" 60 1200000000 st1).2 in
  let st3 := KVStore.onExpire "b" st2 in
  (KVStore.get "b" st2).1 = Some "new" ∧
  (KVStore.get "b" st3).1 = None ∧
  ("b" ∉ KVStore.keys st3) ∧
  KVStore.expirations_ st3 = incr64 (KVStore.expirations_ expired_store) ∧
  TTLManager.expiry_map_ (KVStore.ttl_mgr_ st3) !! "b"
    = TTLManager.expiry_map_ (KVStore.ttl_mgr_ st2) !! "b" ∧
  (60 > 0 → is_Some (TTLManager.expiry_map_ (KVStore.ttl_mgr_ st3) !! "b")).
Proof.
  apply (set_before_callback_is_expired "b" "new" 60 1100000000 1200000000 expired_store).
  - apply set_wf, set_wf, demo_store_wf.
  - vm_compute. by apply list_elem_of_singleton.
Defined.
